(** * Access-key lifecycle of tuwenv2: storage layer, verifier, accountant, registry

    Shallow embedding of [src/api/_db.ts] and of the request handlers that
    call it: [src/api/generate-card.ts], [src/api/admin/key-logs.ts] and the
    admin handlers that list, update and create keys.

    Modelling conventions.
    - The two tables of [initDatabase] are lists of rows in insertion order;
      the [SERIAL] columns draw from an explicit sequence counter, which ends
      at 2147483647, and the primary keys, the [UNIQUE] constraint on
      [key_code] and the reference from [usage_logs.key_id] to
      [access_keys.id] are checked by the statements that can break them.
    - A JavaScript number is [NaN], an integer, or another number (a
      fraction, an infinity) known by the text JavaScript prints for it.
      [INTEGER] columns hold integers of 32 bits: a number bound to an
      [INTEGER] placeholder is refused unless it is one, and so is the sum
      [used_count + 1].
    - A string is the sequence of bytes of its UTF-8 encoding. A text bound
      to a placeholder is refused when it holds a NUL character; a
      [VARCHAR(n)] column takes [n] characters, cuts off the spaces beyond
      them and refuses anything else beyond them. The access key of a
      request arrives in a header, which cannot hold a NUL character.
    - A timestamp is the number of milliseconds since the epoch, the value
      JavaScript compares when it evaluates [new Date(a) < new Date(b)]; the
      clock is read once per call, and a row holds the instants that the
      process reads from it. How a date moves by days, how it is written as
      a text, and which instant the process reads from a [TIMESTAMP] column
      to which a text was bound depend on the time zone of the process and
      on the range of the column; they are functions of [Runtime].
    - [async] functions are computations in a state-and-exception monad over
      the store; a thrown [Error] is the left injection. Calls run one after
      the other, and the connection made by [query] always succeeds.
    - What the outside world decides (the clock, [Math.random], the reply of
      the generation service, [JSON.parse], the text-to-number conversion of
      [Number], the arithmetic of [Date]) is an explicit argument. *)

From Stdlib Require Import ZArith Lia Ascii String.
From stdpp Require Import base list strings sorting pretty.

Local Open Scope Z_scope.

(** ** Rows and store *)

(** A row of [access_keys]. *)
Record AccessKey := mkAccessKey {
  ak_id : Z;
  ak_key_code : string;
  ak_name : string;
  ak_max_uses : Z;
  ak_used_count : Z;
  ak_expires_at : option Z;
  ak_is_active : bool;
  ak_created_at : Z
}.

(** A row of [usage_logs]. *)
Record UsageLog := mkUsageLog {
  ul_id : Z;
  ul_key_id : Z;
  ul_request_text : string;
  ul_success : bool;
  ul_error_msg : string;
  ul_created_at : Z
}.

Record Store := mkStore {
  access_keys : list AccessKey;
  usage_logs : list UsageLog;
  access_keys_id_seq : Z;
  usage_logs_id_seq : Z
}.

(** The database right after [initDatabase]: both tables empty, both
    sequences at their first value. *)
Definition initDatabase : Store :=
  {| access_keys := []; usage_logs := [];
     access_keys_id_seq := 1; usage_logs_id_seq := 1 |}.

(** ** JavaScript values met in request bodies *)

(** [Num z] is an integer, which JavaScript prints in decimal digits;
    [Other text] is any other number that is not [NaN], a fraction or an
    infinity, with the text JavaScript prints for it. *)
Inductive JsNumber := NaN | Num (z : Z) | Other (text : string).

Inductive JsValue :=
| JUndefined
| JNull
| JNumber (n : JsNumber)
| JString (s : string).

(** [!!v] *)
Definition truthy (v : JsValue) : bool :=
  match v with
  | JUndefined | JNull => false
  | JNumber NaN => false
  | JNumber (Num z) => negb (z =? 0)
  | JNumber (Other _) => true
  | JString s => negb (String.eqb s "")
  end.

(** [a || d] on numbers. *)
Definition num_or (a : JsNumber) (d : Z) : JsNumber :=
  if truthy (JNumber a) then a else Num d.

(** [a || d] on a string that may be [undefined] or [null]. *)
Definition str_or (a : option string) (d : string) : string :=
  match a with
  | Some s => if String.eqb s "" then d else s
  | None => d
  end.

(** [a || null] on a string that may be [undefined] or [null]. *)
Definition str_or_null (a : option string) : option string :=
  match a with
  | Some s => if String.eqb s "" then None else Some s
  | None => None
  end.

(** Library functions the code calls.
    - [Number] applied to a string, and [JSON.parse] (left: the message of
      the [SyntaxError] it throws).
    - [setDate now days] is the time value of [date] after
      [date.setDate(date.getDate() + days)], where [date] held the instant
      [now]; it is [None] when the date has become invalid.
    - [toISOString t] is the text of a valid date.
    - [timestamp text] tells what becomes of a text bound to a [TIMESTAMP]
      column: the message of the error PostgreSQL raises on it, or the
      instant that the process later reads from the column. *)
Record Runtime := mkRuntime {
  StringToNumber : string -> JsNumber;
  JSON_parse : string -> string + string;
  setDate : Z -> JsNumber -> option Z;
  toISOString : Z -> string;
  timestamp : string -> string + Z
}.

(** ** Errors *)

Inductive Constraint :=
| access_keys_pkey
| access_keys_key_code_key
| usage_logs_pkey
| usage_logs_key_id_fkey.

Inductive Error :=
| InvalidKey
| Expired
| QuotaExhausted
| DuplicateName (name : string)
| Misconfigured
| NoResponse
| External (message : option string)
| UniqueViolation (c : Constraint)
| ForeignKeyViolation (c : Constraint)
| StillReferenced (c : Constraint)
| InvalidInteger (text : string)
| IntegerOutOfRange (z : Z)
| IntegerOverflow
| InvalidByteSequence
| ValueTooLong (n : nat)
| SequenceExhausted (sequence : string)
| InvalidTimestamp (message : string)
| InvalidTime
| BodyMissing (property : string).

Definition dquote : string := String (ascii_of_nat 34) EmptyString.

Definition constraint_name (c : Constraint) : string :=
  match c with
  | access_keys_pkey => "access_keys_pkey"
  | access_keys_key_code_key => "access_keys_key_code_key"
  | usage_logs_pkey => "usage_logs_pkey"
  | usage_logs_key_id_fkey => "usage_logs_key_id_fkey"
  end.

(** [error.message]; the errors raised by the database carry the text
    PostgreSQL gives them, [InvalidTime] is the [RangeError] of
    [toISOString], and [BodyMissing] the [TypeError] of a destructuring of
    [undefined]. *)
Definition message (e : Error) : option string :=
  match e with
  | InvalidKey => Some "无效的访问密钥,请联系管理员chex490@gmail.com"
  | Expired => Some "密钥已过期，请联系管理员chex490@gmail.com"
  | QuotaExhausted => Some "密钥使用次数已耗尽,请联系管理员chex490@gmail.com"
  | DuplicateName name =>
      Some ("名称 " +:+ dquote +:+ name +:+ dquote +:+ " 已存在，请使用其他名称。")
  | Misconfigured => Some "Server misconfiguration: GEMINI_API_KEY missing"
  | NoResponse => Some "No response from AI"
  | External m => m
  | UniqueViolation c =>
      Some ("duplicate key value violates unique constraint "
            +:+ dquote +:+ constraint_name c +:+ dquote)
  | ForeignKeyViolation c =>
      Some ("insert or update on table " +:+ dquote +:+ "usage_logs"
            +:+ dquote +:+ " violates foreign key constraint "
            +:+ dquote +:+ constraint_name c +:+ dquote)
  | StillReferenced c =>
      Some ("update or delete on table " +:+ dquote +:+ "access_keys"
            +:+ dquote +:+ " violates foreign key constraint "
            +:+ dquote +:+ constraint_name c +:+ dquote
            +:+ " on table " +:+ dquote +:+ "usage_logs" +:+ dquote)
  | InvalidInteger text =>
      Some ("invalid input syntax for type integer: "
            +:+ dquote +:+ text +:+ dquote)
  | IntegerOutOfRange z =>
      Some ("value " +:+ dquote +:+ pretty z +:+ dquote
            +:+ " is out of range for type integer")
  | IntegerOverflow => Some "integer out of range"
  | InvalidByteSequence =>
      Some ("invalid byte sequence for encoding "
            +:+ dquote +:+ "UTF8" +:+ dquote +:+ ": 0x00")
  | ValueTooLong n =>
      Some ("value too long for type character varying("
            +:+ pretty n +:+ ")")
  | SequenceExhausted sequence =>
      Some ("nextval: reached maximum value of sequence "
            +:+ dquote +:+ sequence +:+ dquote +:+ " (2147483647)")
  | InvalidTimestamp m => Some m
  | InvalidTime => Some "Invalid time value"
  | BodyMissing property =>
      Some ("Cannot destructure property '" +:+ property
            +:+ "' of 'req.body' as it is undefined.")
  end.

(** ** The monad of [async] store computations *)

Definition M (A : Type) : Type := Store -> (Error + A) * Store.

Definition ret {A} (a : A) : M A := fun s => (inr a, s).

Definition throw {A} (e : Error) : M A := fun s => (inl e, s).

Definition bind {A B} (m : M A) (k : A -> M B) : M B :=
  fun s =>
    match m s with
    | (inr a, s') => k a s'
    | (inl e, s') => (inl e, s')
    end.

(** [try { m } catch (error) { h error }] *)
Definition try_catch {A} (m : M A) (h : Error -> M A) : M A :=
  fun s =>
    match m s with
    | (inr a, s') => (inr a, s')
    | (inl e, s') => h e s'
    end.

Notation "'let*' x := m 'in' k" := (bind m (fun x => k))
  (at level 10, x name, m at level 100, k at level 200).

(** ** Parameters bound to the placeholders of a statement *)

(** The range of an [INTEGER] column or placeholder. *)
Definition int32 (z : Z) : bool :=
  (-2147483648 <=? z) && (z <=? 2147483647).

(** A number bound to an [INTEGER] placeholder: it is sent as the text
    JavaScript prints for it. *)
Definition bind_integer (n : JsNumber) : M Z :=
  match n with
  | Num z => if int32 z then ret z else throw (IntegerOutOfRange z)
  | NaN => throw (InvalidInteger "NaN")
  | Other text => throw (InvalidInteger text)
  end.

(** The text holds no NUL character. *)
Fixpoint nul_free (s : string) : bool :=
  match s with
  | EmptyString => true
  | String a s' => negb (Ascii.eqb a zero) && nul_free s'
  end.

(** A string bound to a placeholder. *)
Definition bind_text (s : string) : M string :=
  if nul_free s then ret s else throw InvalidByteSequence.

(** A string or [null] bound to a [TIMESTAMP] placeholder; the result is
    what the process will read from the column. *)
Definition bind_timestamp (rt : Runtime) (text : option string)
  : M (option Z) :=
  match text with
  | Some text =>
      match timestamp rt text with
      | inl m => throw (InvalidTimestamp m)
      | inr t => ret (Some t)
      end
  | None => ret None
  end.

(** A byte that continues a character begun by an earlier byte. *)
Definition continuation (a : ascii) : bool :=
  ((128 <=? N_of_ascii a) && (N_of_ascii a <? 192))%N.

(** The number of characters of a text. *)
Fixpoint characters (s : string) : nat :=
  match s with
  | EmptyString => 0
  | String a s' =>
      if continuation a then characters s' else S (characters s')
  end.

(** The first [n] characters of a text, and what follows them. *)
Fixpoint clip (n : nat) (s : string) : string * string :=
  match s with
  | EmptyString => (EmptyString, EmptyString)
  | String a s' =>
      if continuation a
      then let (kept, surplus) := clip n s' in (String a kept, surplus)
      else match n with
           | O => (EmptyString, s)
           | S n' =>
               let (kept, surplus) := clip n' s' in (String a kept, surplus)
           end
  end.

(** The text consists of spaces. *)
Fixpoint blank (s : string) : bool :=
  match s with
  | EmptyString => true
  | String a s' => Ascii.eqb a " " && blank s'
  end.

(** A text assigned to a [VARCHAR(n)] column: spaces beyond the [n]-th
    character are cut off, anything else there is refused. *)
Definition varchar (n : nat) (s : string) : M string :=
  let (kept, surplus) := clip n s in
  if blank surplus then ret kept else throw (ValueTooLong n).

(** ** SQL statements issued through [query] *)

(** [SELECT * FROM access_keys WHERE p] *)
Definition select_keys (p : AccessKey -> Prop) `{!forall k, Decision (p k)}
  : M (list AccessKey) :=
  fun s => (inr (filter p (access_keys s)), s).

(** [SELECT * FROM usage_logs WHERE p] *)
Definition select_logs (p : UsageLog -> Prop) `{!forall l, Decision (p l)}
  : M (list UsageLog) :=
  fun s => (inr (filter p (usage_logs s)), s).

(** [ORDER BY created_at DESC]: insertion at the first place whose row is
    not newer. *)
Fixpoint insert_desc {A} (at_ : A -> Z) (x : A) (l : list A) : list A :=
  match l with
  | [] => [x]
  | y :: l' => if at_ y <? at_ x then x :: y :: l'
               else y :: insert_desc at_ x l'
  end.

Definition order_desc {A} (at_ : A -> Z) (l : list A) : list A :=
  foldr (insert_desc at_) [] l.

Definition set_access_keys (ks : list AccessKey) (s : Store) : Store :=
  {| access_keys := ks; usage_logs := usage_logs s;
     access_keys_id_seq := access_keys_id_seq s;
     usage_logs_id_seq := usage_logs_id_seq s |}.

Definition set_usage_logs (ls : list UsageLog) (s : Store) : Store :=
  {| access_keys := access_keys s; usage_logs := ls;
     access_keys_id_seq := access_keys_id_seq s;
     usage_logs_id_seq := usage_logs_id_seq s |}.

(** [nextval] of the two [SERIAL] sequences, which end at 2147483647; a
    value drawn by a statement that fails afterwards is not given back. *)
Definition nextval_access_keys : M Z :=
  fun s =>
    if access_keys_id_seq s <=? 2147483647
    then (inr (access_keys_id_seq s),
          {| access_keys := access_keys s; usage_logs := usage_logs s;
             access_keys_id_seq := access_keys_id_seq s + 1;
             usage_logs_id_seq := usage_logs_id_seq s |})
    else (inl (SequenceExhausted "access_keys_id_seq"), s).

Definition nextval_usage_logs : M Z :=
  fun s =>
    if usage_logs_id_seq s <=? 2147483647
    then (inr (usage_logs_id_seq s),
          {| access_keys := access_keys s; usage_logs := usage_logs s;
             access_keys_id_seq := access_keys_id_seq s;
             usage_logs_id_seq := usage_logs_id_seq s + 1 |})
    else (inl (SequenceExhausted "usage_logs_id_seq"), s).

(** The row that [INSERT INTO access_keys] makes of fitted texts: the
    columns that are not named take their defaults, and the primary key and
    the [UNIQUE] constraint on [key_code] are checked. *)
Definition insert_key_row (now : Z) (key_code name : string) (max_uses : Z)
    (expires_at : option Z) : M AccessKey :=
  let* i := nextval_access_keys in
  let row := {| ak_id := i; ak_key_code := key_code; ak_name := name;
                ak_max_uses := max_uses; ak_used_count := 0;
                ak_expires_at := expires_at; ak_is_active := true;
                ak_created_at := now |} in
  fun s =>
    if decide (i ∈ ak_id <$> access_keys s)
    then (inl (UniqueViolation access_keys_pkey), s)
    else if decide (key_code ∈ ak_key_code <$> access_keys s)
    then (inl (UniqueViolation access_keys_key_code_key), s)
    else (inr row, set_access_keys (access_keys s ++ [row]) s).

(** [INSERT INTO access_keys (key_code, name, max_uses, expires_at)
    VALUES (...) RETURNING *], once its parameters are bound: the two texts
    are fitted to their columns before any row is made. *)
Definition insert_key (now : Z) (key_code name : string) (max_uses : Z)
    (expires_at : option Z) : M AccessKey :=
  let* key_code := varchar 64 key_code in
  let* name := varchar 100 name in
  insert_key_row now key_code name max_uses expires_at.

(** [INSERT INTO usage_logs (key_id, request_text, success, error_msg)
    VALUES (...)], once its parameters are bound: the primary key and the
    reference to [access_keys(id)] are checked. *)
Definition insert_log (now : Z) (key_id : Z) (request_text : string)
    (success : bool) (error_msg : string) : M unit :=
  let* i := nextval_usage_logs in
  let row := {| ul_id := i; ul_key_id := key_id;
                ul_request_text := request_text; ul_success := success;
                ul_error_msg := error_msg; ul_created_at := now |} in
  fun s =>
    if decide (i ∈ ul_id <$> usage_logs s)
    then (inl (UniqueViolation usage_logs_pkey), s)
    else if decide (key_id ∈ ak_id <$> access_keys s)
    then (inr (), set_usage_logs (usage_logs s ++ [row]) s)
    else (inl (ForeignKeyViolation usage_logs_key_id_fkey), s).

(** [UPDATE access_keys SET f WHERE id = i RETURNING *] *)
Definition update_key (i : Z) (f : AccessKey -> AccessKey)
  : M (list AccessKey) :=
  fun s =>
    (inr (f <$> filter (λ k, ak_id k = i) (access_keys s)),
     set_access_keys
       ((λ k, if decide (ak_id k = i) then f k else k) <$> access_keys s) s).

(** [DELETE FROM usage_logs WHERE key_id = i] *)
Definition delete_logs (i : Z) : M unit :=
  fun s =>
    (inr (), set_usage_logs (filter (λ l, ul_key_id l ≠ i) (usage_logs s)) s).

(** [DELETE FROM access_keys WHERE id = i]: refused while a row of
    [usage_logs] still refers to a row it would remove. *)
Definition delete_key (i : Z) : M unit :=
  fun s =>
    if decide (i ∈ ak_id <$> access_keys s ∧ i ∈ ul_key_id <$> usage_logs s)
    then (inl (StillReferenced usage_logs_key_id_fkey), s)
    else
      (inr (), set_access_keys (filter (λ k, ak_id k ≠ i) (access_keys s)) s).

(** ** [src/api/_db.ts] *)

Definition set_used_count (n : Z) (k : AccessKey) : AccessKey :=
  {| ak_id := ak_id k; ak_key_code := ak_key_code k; ak_name := ak_name k;
     ak_max_uses := ak_max_uses k; ak_used_count := n;
     ak_expires_at := ak_expires_at k; ak_is_active := ak_is_active k;
     ak_created_at := ak_created_at k |}.

Definition set_limits (max_uses : Z) (expires_at : option Z) (k : AccessKey)
  : AccessKey :=
  {| ak_id := ak_id k; ak_key_code := ak_key_code k; ak_name := ak_name k;
     ak_max_uses := max_uses; ak_used_count := ak_used_count k;
     ak_expires_at := expires_at; ak_is_active := ak_is_active k;
     ak_created_at := ak_created_at k |}.

(** A row after [used_count = used_count + 1]. *)
Definition increment (k : AccessKey) : AccessKey :=
  set_used_count (ak_used_count k + 1) k.

(** [UPDATE access_keys SET used_count = used_count + 1 WHERE id = i]: the
    statement fails, and changes nothing, when the sum on a row it updates
    exceeds the range of the column. *)
Definition increment_key (i : Z) : M (list AccessKey) :=
  let* rows := select_keys (λ k, ak_id k = i) in
  if forallb (λ k, ak_used_count k + 1 <=? 2147483647) rows
  then update_key i increment
  else throw IntegerOverflow.

(** [key.expires_at && new Date(key.expires_at) < new Date()] *)
Definition expired (now : Z) (key : AccessKey) : bool :=
  match ak_expires_at key with
  | Some t => t <? now
  | None => false
  end.

(** [key.max_uses !== -1 && key.used_count >= key.max_uses] *)
Definition exhausted (key : AccessKey) : bool :=
  negb (ak_max_uses key =? -1) && (ak_used_count key >=? ak_max_uses key).

Definition verifyAccessKey (now : Z) (keyCode : string) : M AccessKey :=
  let* rows :=
    select_keys (λ k, ak_key_code k = keyCode ∧ ak_is_active k = true) in
  match head rows with
  | None => throw InvalidKey
  | Some key =>
      if expired now key then throw Expired
      else if exhausted key then throw QuotaExhausted
      else ret key
  end.

Definition updateAccessKeyUsage (keyId : JsNumber) : M unit :=
  let* i := bind_integer keyId in
  let* _ := increment_key i in
  ret ().

Definition logUsage (now : Z) (keyId : JsNumber) (ip requestText : string)
    (success : bool) (errorMsg : option string) : M unit :=
  let* i := bind_integer keyId in
  let* request_text := bind_text ("[IP: " +:+ ip +:+ "] " +:+ requestText) in
  let* error_msg := bind_text (str_or errorMsg "") in
  insert_log now i request_text success error_msg.

(** ['sk-' + r1.substring(2, 15) + r2.substring(2, 15)], where [r1] and
    [r2] are the base-36 renderings of two draws of [Math.random()]. *)
Definition generateKey (rnd : string * string) : string :=
  "sk-" +:+ substring 2 13 (fst rnd) +:+ substring 2 13 (snd rnd).

(** [let expiresAt = null; if (daysValid) { const date = new Date();
    date.setDate(date.getDate() + daysValid);
    expiresAt = date.toISOString(); }]: [toISOString] throws on an invalid
    date. *)
Definition expiry_of (rt : Runtime) (now : Z) (daysValid : option JsNumber)
  : M (option string) :=
  match daysValid with
  | Some days =>
      if truthy (JNumber days)
      then match setDate rt now days with
           | Some t => ret (Some (toISOString rt t))
           | None => throw InvalidTime
           end
      else ret None
  | None => ret None
  end.

(** [maxUses: number = -1] *)
Definition default_maxUses (maxUses : option JsNumber) : JsNumber :=
  match maxUses with
  | Some n => n
  | None => Num (-1)
  end.

Definition createAccessKey (now : Z) (rt : Runtime) (rnd : string * string)
    (name : string) (maxUses daysValid : option JsNumber) : M AccessKey :=
  let* name1 := bind_text name in
  let* check := select_keys (λ k, ak_name k = name1) in
  if (0 <? Z.of_nat (length check)) then throw (DuplicateName name)
  else
    let keyCode := generateKey rnd in
    let* expiresAt := expiry_of rt now daysValid in
    let* key_code := bind_text keyCode in
    let* name := bind_text name in
    let* max_uses := bind_integer (default_maxUses maxUses) in
    let* expires_at := bind_timestamp rt expiresAt in
    insert_key now key_code name max_uses expires_at.

Definition updateAccessKey (rt : Runtime) (id maxUses : JsNumber)
    (expiresAt : option string) : M (option AccessKey) :=
  let* i := bind_integer id in
  let* max_uses := bind_integer maxUses in
  let* expires_at := bind_timestamp rt expiresAt in
  let* rows := update_key i (set_limits max_uses expires_at) in
  ret (head rows).

Definition deleteAccessKey (id : JsNumber) : M bool :=
  let* i := bind_integer id in
  let* _ := delete_logs i in
  let* _ := delete_key i in
  ret true.

Definition getAllKeys : M (list AccessKey) :=
  let* rows := select_keys (λ _, True) in
  ret (order_desc ak_created_at rows).

Definition getKeyLogs (keyId : JsNumber) : M (list UsageLog) :=
  let* i := bind_integer keyId in
  let* rows := select_logs (λ l, ul_key_id l = i) in
  ret (take 50 (order_desc ul_created_at rows)).

(** ** Request handlers *)

Inductive Method := GET | POST | OPTIONS | OtherMethod.

#[global] Instance Method_eq_dec : EqDecision Method.
Proof. solve_decision. Defined.

(** What [res.json] or [res.end] sends. *)
Inductive Body :=
| NoBody
| ErrorBody (error : option string)
| KeyBody (row : option AccessKey)
| KeysBody (rows : list AccessKey)
| LogsBody (rows : list UsageLog)
| DataBody (resultData : string).

Record Response := mkResponse { status : Z; body : Body }.

(** [process.env] *)
Record Env := mkEnv {
  GEMINI_API_KEY : option string;
  ADMIN_PASSWORD : option string
}.

(** [Number(v)] *)
Definition Number (rt : Runtime) (v : JsValue) : JsNumber :=
  match v with
  | JUndefined => NaN
  | JNull => Num 0
  | JNumber n => n
  | JString s => StringToNumber rt s
  end.

(** [!s] for a header, query or body string that may be missing. *)
Definition falsy (s : option string) : bool :=
  match s with
  | Some s => String.eqb s ""
  | None => true
  end.

(** [s.split(c)] *)
Fixpoint split (c : ascii) (s : string) : list string :=
  match s with
  | EmptyString => [EmptyString]
  | String a s' =>
      if Ascii.eqb a c then EmptyString :: split c s'
      else match split c s' with
           | [] => [String a EmptyString]
           | w :: ws => String a w :: ws
           end
  end.

(** Runs [m] and hands its outcome, thrown or returned, to the caller. *)
Definition attempt {A} (m : M A) : M (Error + A) :=
  fun s => let (r, s') := m s in (inr r, s').

Definition unauthorized (adminPwd : option string) (env : Env) : bool :=
  negb (bool_decide (adminPwd = ADMIN_PASSWORD env)).

Module GenerateCard.
(** [src/api/generate-card.ts] *)

(** The method, the headers, the socket address and, of a request that has
    a body, [req.body.inputText]. *)
Record Request := mkRequest {
  method : Method;
  authorization : option string;
  inputText : option string;
  x_forwarded_for : option string;
  remoteAddress : option string
}.

(** Outcome of [ai.models.generateContent]: it throws an error with the
    given [message], or answers with [response.text]. *)
Inductive Generation :=
| Throws (message : option string)
| Responds (text : option string).

(** The [catch] block; [keyId] is the local variable at the time of the
    throw. *)
Definition on_error (now : Z) (keyId : Z) (ip : string)
    (inputText : option string) (error : Error) : M Response :=
  let* _ :=
    if 0 <? keyId
    then logUsage now (Num keyId) ip (str_or inputText "") false
           (message error)
    else ret () in
  ret {| status := 500;
         body := ErrorBody
                   (Some (str_or (message error) "Internal Server Error")) |}.

(** Steps 2 to 4 of the [try] block, which do not touch the store: the
    parsed reply, or the error thrown on the way to it. *)
Definition generation (env : Env) (rt : Runtime) (ai : Generation)
  : Error + string :=
  if falsy (GEMINI_API_KEY env) then inl Misconfigured
  else
    match ai with
    | Throws m => inl (External m)
    | Responds text =>
        if falsy text then inl NoResponse
        else
          match JSON_parse rt (default "" text) with
          | inl m => inl (External (Some m))
          | inr resultData => inr resultData
          end
    end.

(** Steps 2 to 6 of the [try] block. *)
Definition generate (now : Z) (env : Env) (rt : Runtime) (ai : Generation)
    (keyId : Z) (ip : string) (inputText : option string) : M Response :=
  match generation env rt ai with
  | inl error => throw error
  | inr resultData =>
      let* _ := updateAccessKeyUsage (Num keyId) in
      let* _ := logUsage now (Num keyId) ip (str_or inputText "") true
                  None in
      ret {| status := 200; body := DataBody resultData |}
  end.

(** The handler on a request that has a body ([has_body]) or has none:
    without one [req.body] is [undefined], and
    [const { inputText } = req.body], which stands before [try], throws.
    [keyId] is [0] until [verifyAccessKey] has returned a row (a row is an
    object, so the [!keyData] test after it never fires). *)
Definition handle (now : Z) (env : Env) (rt : Runtime) (ai : Generation)
    (has_body : bool) (req : Request) : M Response :=
  if decide (method req = OPTIONS)
  then ret {| status := 200; body := NoBody |}
  else if decide (method req ≠ POST)
  then ret {| status := 405;
              body := ErrorBody (Some "Method not allowed") |}
  else
    match authorization req with
    | Some authHeader =>
        if String.eqb authHeader "" || negb (String.prefix "Bearer " authHeader)
        then ret {| status := 401;
                    body := ErrorBody
                      (Some "Missing or invalid Authorization header") |}
        else if has_body
        then
          let ip := str_or (x_forwarded_for req)
                      (str_or (remoteAddress req) "unknown") in
          let* keyData :=
            attempt
              match split " " authHeader !! 1%nat with
              | Some accessKey => verifyAccessKey now accessKey
              | None => throw InvalidKey
              end in
          match keyData with
          | inl error => on_error now 0 ip (inputText req) error
          | inr keyData =>
              let keyId := ak_id keyData in
              try_catch
                (generate now env rt ai keyId ip (inputText req))
                (on_error now keyId ip (inputText req))
          end
        else throw (BodyMissing "inputText")
    | None =>
        ret {| status := 401;
               body := ErrorBody
                 (Some "Missing or invalid Authorization header") |}
    end.

(** The handler on a request that has a body. *)
Definition handler (now : Z) (env : Env) (rt : Runtime) (ai : Generation)
    (req : Request) : M Response :=
  handle now env rt ai true req.
End GenerateCard.

Module AdminKeys.
(** [GET] listing of all keys ([src/unnamed/part_000]). *)

Record Request := mkRequest {
  method : Method;
  x_admin_password : option string
}.

Definition handler (env : Env) (req : Request) : M Response :=
  if decide (method req ≠ GET)
  then ret {| status := 405;
              body := ErrorBody (Some "Method not allowed") |}
  else if unauthorized (x_admin_password req) env
  then ret {| status := 401; body := ErrorBody (Some "Unauthorized") |}
  else
    try_catch
      (let* keys := getAllKeys in
       ret {| status := 200; body := KeysBody keys |})
      (λ error, ret {| status := 500; body := ErrorBody (message error) |}).
End AdminKeys.

Module AdminKeyLogs.
(** [src/api/admin/key-logs.ts] *)

Record Request := mkRequest {
  method : Method;
  x_admin_password : option string;
  keyId : option string
}.

Definition handler (env : Env) (rt : Runtime) (req : Request) : M Response :=
  if decide (method req ≠ GET)
  then ret {| status := 405;
              body := ErrorBody (Some "Method not allowed") |}
  else if unauthorized (x_admin_password req) env
  then ret {| status := 401; body := ErrorBody (Some "Unauthorized") |}
  else
    match keyId req with
    | Some keyId =>
        if String.eqb keyId ""
        then ret {| status := 400;
                    body := ErrorBody (Some "keyId is required") |}
        else
          try_catch
            (let* logs := getKeyLogs (StringToNumber rt keyId) in
             ret {| status := 200; body := LogsBody logs |})
            (λ error,
               ret {| status := 500; body := ErrorBody (message error) |})
    | None =>
        ret {| status := 400; body := ErrorBody (Some "keyId is required") |}
    end.
End AdminKeyLogs.

Module AdminUpdateKey.
(** [POST] update of a key's limits ([src/unnamed/part_001]). *)

(** What the handler reads from [req.body]; [expiresAt] is a text. *)
Record Fields := mkFields {
  id : JsValue;
  maxUses : JsValue;
  expiresAt : option string
}.

(** [req_body] is [None] in a request sent without a body: [req.body] is
    then [undefined], and the destructuring of it, which stands before
    [try], throws. *)
Record Request := mkRequest {
  method : Method;
  x_admin_password : option string;
  req_body : option Fields
}.

Definition handler (env : Env) (rt : Runtime) (req : Request) : M Response :=
  if decide (method req ≠ POST)
  then ret {| status := 405;
              body := ErrorBody (Some "Method not allowed") |}
  else if unauthorized (x_admin_password req) env
  then ret {| status := 401; body := ErrorBody (Some "Unauthorized") |}
  else
    match req_body req with
    | Some fields =>
        if negb (truthy (id fields))
        then ret {| status := 400;
                    body := ErrorBody (Some "ID is required") |}
        else
          try_catch
            (let* updatedKey :=
               updateAccessKey rt (Number rt (id fields))
                 (Number rt (maxUses fields))
                 (str_or_null (expiresAt fields)) in
             ret {| status := 200; body := KeyBody updatedKey |})
            (λ error,
               ret {| status := 500; body := ErrorBody (message error) |})
    | None => throw (BodyMissing "id")
    end.
End AdminUpdateKey.

Module AdminCreateKey.
(** [POST] creation of a key ([src/unnamed/part_002]). *)

(** What the handler reads from [req.body]. *)
Record Fields := mkFields {
  name : option string;
  maxUses : JsValue;
  expiresInDays : JsValue
}.

(** [req_body] is [None] in a request sent without a body. *)
Record Request := mkRequest {
  method : Method;
  x_admin_password : option string;
  req_body : option Fields
}.

Definition handler (now : Z) (rnd : string * string) (env : Env)
    (rt : Runtime) (req : Request) : M Response :=
  if decide (method req ≠ POST)
  then ret {| status := 405;
              body := ErrorBody (Some "Method not allowed") |}
  else if unauthorized (x_admin_password req) env
  then ret {| status := 401; body := ErrorBody (Some "Unauthorized") |}
  else
    match req_body req with
    | Some fields =>
        match name fields with
        | Some name =>
            if String.eqb name ""
            then ret {| status := 400;
                        body := ErrorBody (Some "Name is required") |}
            else
              try_catch
                (let* newKey :=
                   createAccessKey now rt rnd name
                     (Some (num_or (Number rt (maxUses fields)) 100))
                     (Some (num_or (Number rt (expiresInDays fields)) 30)) in
                 ret {| status := 200; body := KeyBody (Some newKey) |})
                (λ error,
                   ret {| status := 500;
                          body := ErrorBody (message error) |})
        | None =>
            ret {| status := 400;
                   body := ErrorBody (Some "Name is required") |}
        end
    | None => throw (BodyMissing "name")
    end.
End AdminCreateKey.

(** ** Admission conditions *)

(** The admission condition in the words of the specification: active, not
    expired ([expiresAt] absent or strictly later than [now]), quota left. *)
Definition admissible_spec (now : Z) (K : AccessKey) : Prop :=
  ak_is_active K = true
  ∧ (ak_expires_at K = None ∨ ∃ t, ak_expires_at K = Some t ∧ t > now)
  ∧ (ak_max_uses K = -1 ∨ ak_used_count K < ak_max_uses K).

(** The admission condition [verifyAccessKey] implements: a key whose
    expiry instant is [now] itself still passes. *)
Definition admissible (now : Z) (K : AccessKey) : Prop :=
  ak_is_active K = true
  ∧ (ak_expires_at K = None ∨ ∃ t, ak_expires_at K = Some t ∧ t >= now)
  ∧ (ak_max_uses K = -1 ∨ ak_used_count K < ak_max_uses K).

(** ** Store invariant

    What the schema of [initDatabase] maintains: primary keys and key codes
    are unique, every id was drawn from its sequence, every log row refers
    to a stored key, and neither sequence has gone past its end. *)
Record wf_store (s : Store) : Prop := mk_wf_store {
  wf_key_ids : NoDup (ak_id <$> access_keys s);
  wf_key_codes : NoDup (ak_key_code <$> access_keys s);
  wf_key_seq : ∀ k, k ∈ access_keys s → 1 ≤ ak_id k < access_keys_id_seq s;
  wf_log_ids : NoDup (ul_id <$> usage_logs s);
  wf_log_seq : ∀ l, l ∈ usage_logs s → 1 ≤ ul_id l < usage_logs_id_seq s;
  wf_log_fk : ∀ l, l ∈ usage_logs s → ul_key_id l ∈ ak_id <$> access_keys s;
  wf_seq_pos : 1 ≤ access_keys_id_seq s ∧ 1 ≤ usage_logs_id_seq s;
  wf_seq_end : access_keys_id_seq s ≤ 2147483648
               ∧ usage_logs_id_seq s ≤ 2147483648
}.

#[global] Instance AccessKey_eq_dec : EqDecision AccessKey.
Proof. solve_decision. Defined.

#[global] Instance UsageLog_eq_dec : EqDecision UsageLog.
Proof. solve_decision. Defined.

(** The invariant as a check that can be run on a given store. *)
Definition wf_store_check (s : Store) : bool :=
  bool_decide
    (NoDup (ak_id <$> access_keys s)
     ∧ NoDup (ak_key_code <$> access_keys s)
     ∧ Forall (λ k, 1 ≤ ak_id k < access_keys_id_seq s) (access_keys s)
     ∧ NoDup (ul_id <$> usage_logs s)
     ∧ Forall (λ l, 1 ≤ ul_id l < usage_logs_id_seq s) (usage_logs s)
     ∧ Forall (λ l, ul_key_id l ∈ ak_id <$> access_keys s) (usage_logs s)
     ∧ (1 ≤ access_keys_id_seq s ∧ 1 ≤ usage_logs_id_seq s)
     ∧ (access_keys_id_seq s ≤ 2147483648
        ∧ usage_logs_id_seq s ≤ 2147483648)).

(** ** Calls into the core

    Every exported function of [src/api/_db.ts] and every request handler,
    with the arguments of one call. *)
Inductive Call :=
| CallVerify (now : Z) (keyCode : string)
| CallUpdateUsage (keyId : JsNumber)
| CallLogUsage (now : Z) (keyId : JsNumber) (ip requestText : string)
    (success : bool) (errorMsg : option string)
| CallCreate (now : Z) (rt : Runtime) (rnd : string * string)
    (name : string) (maxUses daysValid : option JsNumber)
| CallUpdate (rt : Runtime) (id maxUses : JsNumber)
    (expiresAt : option string)
| CallDelete (id : JsNumber)
| CallAllKeys
| CallKeyLogs (keyId : JsNumber)
| ReqGenerate (now : Z) (env : Env) (rt : Runtime)
    (ai : GenerateCard.Generation) (req : GenerateCard.Request)
| ReqKeys (env : Env) (req : AdminKeys.Request)
| ReqKeyLogs (env : Env) (rt : Runtime) (req : AdminKeyLogs.Request)
| ReqUpdateKey (env : Env) (rt : Runtime) (req : AdminUpdateKey.Request)
| ReqCreateKey (now : Z) (rnd : string * string) (env : Env) (rt : Runtime)
    (req : AdminCreateKey.Request).

(** The store a call leaves behind, whether it returned or threw. *)
Definition after (c : Call) (s : Store) : Store :=
  match c with
  | CallVerify now keyCode => snd (verifyAccessKey now keyCode s)
  | CallUpdateUsage keyId => snd (updateAccessKeyUsage keyId s)
  | CallLogUsage now keyId ip requestText success errorMsg =>
      snd (logUsage now keyId ip requestText success errorMsg s)
  | CallCreate now rt rnd name maxUses daysValid =>
      snd (createAccessKey now rt rnd name maxUses daysValid s)
  | CallUpdate rt id maxUses expiresAt =>
      snd (updateAccessKey rt id maxUses expiresAt s)
  | CallDelete id => snd (deleteAccessKey id s)
  | CallAllKeys => snd (getAllKeys s)
  | CallKeyLogs keyId => snd (getKeyLogs keyId s)
  | ReqGenerate now env rt ai req =>
      snd (GenerateCard.handler now env rt ai req s)
  | ReqKeys env req => snd (AdminKeys.handler env req s)
  | ReqKeyLogs env rt req => snd (AdminKeyLogs.handler env rt req s)
  | ReqUpdateKey env rt req => snd (AdminUpdateKey.handler env rt req s)
  | ReqCreateKey now rnd env rt req =>
      snd (AdminCreateKey.handler now rnd env rt req s)
  end.

(** The calls that reach the increment of [updateAccessKeyUsage]. *)
Definition accounts (c : Call) : bool :=
  match c with
  | CallUpdateUsage _ | ReqGenerate _ _ _ _ _ => true
  | _ => false
  end.

Definition after_all (cs : list Call) (s : Store) : Store :=
  foldl (λ s c, after c s) s cs.

(** ** Relations between the store before and after a computation *)

(** [m] relates every store to the store it leaves behind. *)
Definition respects {A} (R : relation Store) (m : M A) : Prop :=
  ∀ s, R s (snd (m s)).

Definition keeps_wf : relation Store :=
  λ s s', wf_store s → wf_store s'.

(** The table [access_keys] and its sequence are untouched. *)
Definition same_keys : relation Store :=
  λ s s', access_keys s' = access_keys s
          ∧ access_keys_id_seq s' = access_keys_id_seq s.

(** Every key of [s'] continues a key of [s] with the same counter, or was
    created since, with a counter of [0]. *)
Definition quiet : relation Store :=
  λ s s', access_keys_id_seq s ≤ access_keys_id_seq s'
          ∧ ∀ K', K' ∈ access_keys s' →
              (∃ K, K ∈ access_keys s ∧ ak_id K' = ak_id K
                    ∧ ak_used_count K' = ak_used_count K)
              ∨ (access_keys_id_seq s ≤ ak_id K' ∧ ak_used_count K' = 0).

(** Every key of [s'] continues a key of [s], with the same counter or with
    the counter one higher. *)
Definition counted : relation Store :=
  λ s s', ∀ K', K' ∈ access_keys s' →
            ∃ K, K ∈ access_keys s ∧ ak_id K' = ak_id K
                 ∧ (ak_used_count K' = ak_used_count K
                    ∨ ak_used_count K' = ak_used_count K + 1).

(** Every key of [s'] continues a key of [s] with a counter at least as
    large, or was created since. *)
Definition grows : relation Store :=
  λ s s', access_keys_id_seq s ≤ access_keys_id_seq s'
          ∧ ∀ K', K' ∈ access_keys s' →
              (∃ K, K ∈ access_keys s ∧ ak_id K' = ak_id K
                    ∧ ak_used_count K ≤ ak_used_count K')
              ∨ (access_keys_id_seq s ≤ ak_id K' ∧ 0 ≤ ak_used_count K').

(** ** Sample data *)

Definition key_promo : AccessKey :=
  {| ak_id := 1; ak_key_code := "sk-promo"; ak_name := "promo";
     ak_max_uses := 2; ak_used_count := 0;
     ak_expires_at := Some 86400000; ak_is_active := true;
     ak_created_at := 0 |}.

Definition store_promo : Store :=
  {| access_keys := [key_promo]; usage_logs := [];
     access_keys_id_seq := 2; usage_logs_id_seq := 1 |}.

Definition env_sample : Env :=
  {| GEMINI_API_KEY := Some "g-key"; ADMIN_PASSWORD := Some "admin" |}.

Definition ms_per_day : Z := 86400000.

(** Reads a text of decimal digits. *)
Fixpoint read_digits (s : string) (acc : Z) : option Z :=
  match s with
  | EmptyString => Some acc
  | String a s' =>
      let d := Z.of_N (N_of_ascii a) - 48 in
      if (0 <=? d) && (d <=? 9) then read_digits s' (10 * acc + d) else None
  end.

(** A runtime whose [Number] reads no string as a number and whose
    [JSON.parse] accepts every text. It keeps time as a process and a
    database in the zone UTC do: a day has 86400000 milliseconds, and the
    instant read from the database is the instant written. (A date is
    written as its count of milliseconds, in place of the ISO format.) *)
Definition rt_sample : Runtime :=
  {| StringToNumber := λ _, NaN;
     JSON_parse := λ text, inr text;
     setDate := λ now days,
       match days with
       | Num d => Some (now + d * ms_per_day)
       | _ => None
       end;
     toISOString := λ t, pretty t;
     timestamp := λ text,
       match text with
       | EmptyString => inl "invalid input syntax for type timestamp"
       | _ => match read_digits text 0 with
              | Some t => inr t
              | None => inl "invalid input syntax for type timestamp"
              end
       end |}.

Definition request_promo : GenerateCard.Request :=
  {| GenerateCard.method := POST;
     GenerateCard.authorization := Some "Bearer sk-promo";
     GenerateCard.inputText := Some "hello";
     GenerateCard.x_forwarded_for := None;
     GenerateCard.remoteAddress := Some "10.0.0.1" |}.

(** An authorised creation request that names the key and leaves
    [expiresInDays] out. *)
Definition request_create (name : string) (maxUses : JsValue)
  : AdminCreateKey.Request :=
  {| AdminCreateKey.method := POST;
     AdminCreateKey.x_admin_password := Some "admin";
     AdminCreateKey.req_body :=
       Some {| AdminCreateKey.name := Some name;
               AdminCreateKey.maxUses := maxUses;
               AdminCreateKey.expiresInDays := JUndefined |} |}.

(** An authorised update request. *)
Definition request_update (id maxUses : Z) (expiresAt : option string)
  : AdminUpdateKey.Request :=
  {| AdminUpdateKey.method := POST;
     AdminUpdateKey.x_admin_password := Some "admin";
     AdminUpdateKey.req_body :=
       Some {| AdminUpdateKey.id := JNumber (Num id);
               AdminUpdateKey.maxUses := JNumber (Num maxUses);
               AdminUpdateKey.expiresAt := expiresAt |} |}.


(** A name of 100 characters followed by a space. *)
Definition name_100_space : string :=
  "aaaaaaaaaaaaaaaaaaaaaaaaaaaaaaaaaaaaaaaaaaaaaaaaaa"
  +:+ "aaaaaaaaaaaaaaaaaaaaaaaaaaaaaaaaaaaaaaaaaaaaaaaaaa" +:+ " ".

(** A request text that holds a NUL character. *)
Definition text_nul : string := "a" +:+ String zero "b".

(** The request [request_promo] with a NUL character in its input text. *)
Definition request_nul : GenerateCard.Request :=
  {| GenerateCard.method := POST;
     GenerateCard.authorization := Some "Bearer sk-promo";
     GenerateCard.inputText := Some text_nul;
     GenerateCard.x_forwarded_for := None;
     GenerateCard.remoteAddress := Some "10.0.0.1" |}.

(** ** The browser-side caller of the generation handler *)

Module GeminiService.
(** [src/services/geminiService.ts]. The request always reaches the handler;
    what the network adds to it and how it renders the reply is in
    [Transport]. A handler that throws is answered by the platform with a
    reply that is not JSON. *)

Record Transport := mkTransport {
  x_forwarded_for : option string;
  remoteAddress : option string;
  statusText : Z -> string;
  (** [message] of the error [response.json()] throws on a reply that is
      not JSON *)
  not_json : option string
}.

(** [response.ok] *)
Definition ok (response : Response) : bool :=
  (200 <=? status response) && (status response <=? 299).

(** [data.error] *)
Definition data_error (data : Body) : option string :=
  match data with
  | ErrorBody error => error
  | _ => None
  end.

(** The [catch] block: [throw new Error(error.message || ...)]. *)
Definition rethrow (message : option string) : string :=
  str_or message "生成内容时发生未知错误".

(** Returns the parsed reply, or the message of the error it throws. The
    request it sends has a body. *)
Definition generateCardContent (now : Z) (env : Env) (rt : Runtime)
    (ai : GenerateCard.Generation) (tr : Transport) (inputText : string)
    (accessKey : option string) : Store -> (string + Body) * Store :=
  let key := str_or accessKey "" in
  if String.eqb key ""
  then fun s => (inl "请输入访问密钥 (Access Key)。", s)
  else fun s =>
    let request :=
      {| GenerateCard.method := POST;
         GenerateCard.authorization := Some ("Bearer " +:+ key);
         GenerateCard.inputText := Some inputText;
         GenerateCard.x_forwarded_for := x_forwarded_for tr;
         GenerateCard.remoteAddress := remoteAddress tr |} in
    match GenerateCard.handler now env rt ai request s with
    | (inr response, s') =>
        match body response with
        | NoBody => (inl (rethrow (not_json tr)), s')
        | data =>
            if ok response then (inr data, s')
            else
              (inl (rethrow
                      (Some (str_or (data_error data)
                               ("请求失败: "
                                +:+ statusText tr (status response))))),
               s')
        end
    | (inl _, s') => (inl (rethrow (not_json tr)), s')
    end.
End GeminiService.

(** ** Further relations and predicates on stores *)

(** [ORDER BY created_at DESC] as a relation on rows. *)
Definition newest_first {A} (at_ : A -> Z) : relation A :=
  λ a b, at_ b ≤ at_ a.

(** The columns no statement of [src/api/_db.ts] ever updates. *)
Definition same_identity (K K' : AccessKey) : Prop :=
  ak_id K' = ak_id K ∧ ak_key_code K' = ak_key_code K
  ∧ ak_name K' = ak_name K ∧ ak_is_active K' = ak_is_active K
  ∧ ak_created_at K' = ak_created_at K.

(** Every key of [s'] continues a key of [s] with the same identity, or
    was created since, and is then active. *)
Definition stable : relation Store :=
  λ s s', access_keys_id_seq s ≤ access_keys_id_seq s'
          ∧ ∀ K', K' ∈ access_keys s' →
              (∃ K, K ∈ access_keys s ∧ same_identity K K')
              ∨ (access_keys_id_seq s ≤ ak_id K'
                 ∧ ak_is_active K' = true).

(** No limited key has been used more often than its limit allows. *)
Definition within_quota (s : Store) : Prop :=
  ∀ k, k ∈ access_keys s →
       ak_max_uses k = -1 ∨ ak_used_count k ≤ ak_max_uses k.

(** The text holds no space character. *)
Fixpoint spaceless (s : string) : bool :=
  match s with
  | EmptyString => true
  | String a s' => negb (Ascii.eqb a " ") && spaceless s'
  end.

(** The calls that are generation requests. *)
Definition is_generate (c : Call) : bool :=
  match c with
  | ReqGenerate _ _ _ _ _ => true
  | _ => false
  end.

(** Every log row of [s'] is a row of [s], unchanged, or was appended
    since. *)
Definition log_stable : relation Store :=
  λ s s', usage_logs_id_seq s ≤ usage_logs_id_seq s'
          ∧ ∀ l, l ∈ usage_logs s' →
                 l ∈ usage_logs s ∨ usage_logs_id_seq s ≤ ul_id l.

(** Names stay pairwise distinct. *)
Definition keeps_names : relation Store :=
  λ s s', NoDup (ak_name <$> access_keys s) →
          NoDup (ak_name <$> access_keys s').

(** The calls that create no key under a name of more than 100
    characters. *)
Definition short_named (c : Call) : bool :=
  match c with
  | CallCreate _ _ _ name _ _ => bool_decide (characters name ≤ 100)%nat
  | ReqCreateKey _ _ _ _ req =>
      match AdminCreateKey.req_body req with
      | Some fields =>
          match AdminCreateKey.name fields with
          | Some name => bool_decide (characters name ≤ 100)%nat
          | None => true
          end
      | None => true
      end
  | _ => true
  end.

(** * Properties *)

(** ** Lists of rows *)

Section filter.
Context {A : Type} (P : A → Prop) `{!∀ x, Decision (P x)}.

Lemma filter_none (l : list A) :
  (∀ x, x ∈ l → ¬ P x) → filter P l = [].
Proof.
  intros Hno. destruct (filter P l) as [|x l'] eqn:Hf; [done|].
  assert (x ∈ filter P l) as [? ?]%list_elem_of_filter
    by (rewrite Hf; left).
  by destruct (Hno x).
Qed.

Lemma filter_all (l : list A) :
  (∀ x, x ∈ l → P x) → filter P l = l.
Proof.
  induction l as [|x l IH]; intros Hall; [done|].
  rewrite filter_cons_True by (apply Hall; left).
  f_equal. apply IH. intros y Hy. apply Hall. by right.
Qed.
End filter.

Section rows.
Context {A B : Type} `{EqDecision B} (f : A → B).

Lemma filter_key_absent (b : B) (l : list A) :
  b ∉ f <$> l → filter (λ x, f x = b) l = [].
Proof.
  induction l as [|y l IH]; intros Hb; [done|].
  rewrite fmap_cons, not_elem_of_cons in Hb. destruct Hb as [Hy Hl].
  rewrite filter_cons_False by congruence. auto.
Qed.

Lemma filter_key_unique (x : A) (l : list A) :
  NoDup (f <$> l) → x ∈ l → filter (λ y, f y = f x) l = [x].
Proof.
  induction l as [|y l IH]; intros Hnd Hx; [by apply elem_of_nil in Hx|].
  rewrite fmap_cons in Hnd. apply NoDup_cons in Hnd as [Hy Hnd].
  apply elem_of_cons in Hx as [->|Hx].
  - rewrite filter_cons_True by done.
    by rewrite filter_key_absent.
  - rewrite filter_cons_False; [by apply IH|].
    intros Heq. apply Hy. rewrite Heq. by apply list_elem_of_fmap_2.
Qed.

Lemma key_unique (x y : A) (l : list A) :
  NoDup (f <$> l) → x ∈ l → y ∈ l → f x = f y → x = y.
Proof.
  intros Hnd Hx Hy Heq.
  assert (y ∈ filter (λ z, f z = f x) l) as Hin
    by (apply list_elem_of_filter; auto).
  rewrite (filter_key_unique x l Hnd Hx) in Hin.
  by apply list_elem_of_singleton in Hin.
Qed.

Lemma filter_other_keys (b : B) (l : list A) :
  b ∉ f <$> l → filter (λ x, f x ≠ b) l = l.
Proof.
  induction l as [|y l IH]; intros Hb; [done|].
  rewrite fmap_cons, not_elem_of_cons in Hb. destruct Hb as [Hy Hl].
  rewrite filter_cons_True by congruence. f_equal. auto.
Qed.

Lemma fmap_update_absent (g : A → A) (b : B) (l : list A) :
  b ∉ f <$> l → (λ y, if decide (f y = b) then g y else y) <$> l = l.
Proof.
  intros Hb. rewrite <- (list_fmap_id l) at 2.
  apply list_fmap_ext. intros ? y Hy%list_elem_of_lookup_2.
  rewrite decide_False; [done|].
  intros <-. apply Hb. by apply list_elem_of_fmap_2.
Qed.

Lemma fmap_update_unique `{EqDecision A} (g : A → A) (x : A) (l : list A) :
  NoDup (f <$> l) → x ∈ l →
  (λ y, if decide (f y = f x) then g y else y) <$> l
  = (λ y, if decide (y = x) then g x else y) <$> l.
Proof.
  intros Hnd Hx. apply list_fmap_ext. intros i y Hy.
  apply list_elem_of_lookup_2 in Hy.
  destruct (decide (f y = f x)) as [Heq|Hne].
  - assert (y = x) as -> by eauto using key_unique.
    by rewrite decide_True.
  - rewrite decide_False; congruence.
Qed.
End rows.

(** ** Parameters bound to placeholders *)

Lemma int32_iff (z : Z) :
  int32 z = true ↔ -2147483648 ≤ z ≤ 2147483647.
Proof. unfold int32. rewrite andb_true_iff, !Z.leb_le. done. Qed.

Lemma bind_integer_int32 (z : Z) (s : Store) :
  int32 z = true → bind_integer (Num z) s = (inr z, s).
Proof. intros Hz. unfold bind_integer. by rewrite Hz. Qed.


Lemma bind_integer_pure (n : JsNumber) (s : Store) :
  snd (bind_integer n s) = s.
Proof. destruct n as [|z|text]; simpl; [done| |done]. by destruct (int32 z). Qed.

Lemma bind_text_nul_free (text : string) (s : Store) :
  nul_free text = true → bind_text text s = (inr text, s).
Proof. intros Ht. unfold bind_text. by rewrite Ht. Qed.

Lemma bind_text_nul (text : string) (s : Store) :
  nul_free text = false → bind_text text s = (inl InvalidByteSequence, s).
Proof. intros Ht. unfold bind_text. by rewrite Ht. Qed.

Lemma bind_text_pure (text : string) (s : Store) :
  snd (bind_text text s) = s.
Proof. unfold bind_text. by destruct (nul_free text). Qed.

Lemma bind_timestamp_pure (rt : Runtime) (text : option string) (s : Store) :
  snd (bind_timestamp rt text s) = s.
Proof.
  destruct text as [text|]; simpl; [|done]. by destruct (timestamp rt text).
Qed.

Lemma bind_timestamp_any (rt : Runtime) (text : option string)
    (e : option Z) (s s' : Store) :
  bind_timestamp rt text s = (inr e, s) →
  bind_timestamp rt text s' = (inr e, s').
Proof.
  destruct text as [text|]; simpl.
  - destruct (timestamp rt text); [done|]. by intros [= <-].
  - by intros [= <-].
Qed.

Lemma expiry_of_pure (rt : Runtime) (now : Z) (daysValid : option JsNumber)
    (s : Store) :
  snd (expiry_of rt now daysValid s) = s.
Proof.
  destruct daysValid as [days|]; [|done]. unfold expiry_of.
  destruct (truthy (JNumber days)); [|done].
  by destruct (setDate rt now days).
Qed.

Lemma varchar_pure (n : nat) (text : string) (s : Store) :
  snd (varchar n text s) = s.
Proof.
  unfold varchar. destruct (clip n text) as [kept surplus].
  by destruct (blank surplus).
Qed.

Lemma nul_free_app (s1 s2 : string) :
  nul_free (s1 +:+ s2) = nul_free s1 && nul_free s2.
Proof.
  induction s1 as [|a s1 IH]; simpl; [done|]. by rewrite IH, andb_assoc.
Qed.

Lemma clip_fits (n : nat) (text : string) :
  (characters text ≤ n)%nat → clip n text = (text, EmptyString).
Proof.
  revert n. induction text as [|a text IH]; intros n Hn; simpl in *; [done|].
  destruct (continuation a).
  - by rewrite IH.
  - destruct n as [|n]; [lia|]. rewrite IH by lia. done.
Qed.

Lemma varchar_fits (n : nat) (text : string) (s : Store) :
  (characters text ≤ n)%nat → varchar n text s = (inr text, s).
Proof. intros Hn. unfold varchar. by rewrite clip_fits. Qed.

Lemma characters_le_length (text : string) :
  (characters text ≤ String.length text)%nat.
Proof.
  induction text as [|a text IH]; simpl; [done|].
  destruct (continuation a); lia.
Qed.

(** ** The store invariant can be checked, and holds initially *)

Lemma wf_store_unfold (s : Store) :
  wf_store s ↔
  NoDup (ak_id <$> access_keys s)
  ∧ NoDup (ak_key_code <$> access_keys s)
  ∧ Forall (λ k, 1 ≤ ak_id k < access_keys_id_seq s) (access_keys s)
  ∧ NoDup (ul_id <$> usage_logs s)
  ∧ Forall (λ l, 1 ≤ ul_id l < usage_logs_id_seq s) (usage_logs s)
  ∧ Forall (λ l, ul_key_id l ∈ ak_id <$> access_keys s) (usage_logs s)
  ∧ (1 ≤ access_keys_id_seq s ∧ 1 ≤ usage_logs_id_seq s)
  ∧ (access_keys_id_seq s ≤ 2147483648 ∧ usage_logs_id_seq s ≤ 2147483648).
Proof.
  rewrite !Forall_forall. split.
  - intros [H1 H2 H3 H4 H5 H6 H7 H8]. by repeat (split; [assumption|]).
  - intros (? & ? & ? & ? & ? & ? & ? & ?). by constructor.
Qed.

Lemma wf_store_check_sound (s : Store) :
  wf_store_check s = true → wf_store s.
Proof.
  unfold wf_store_check. intros Hcheck.
  apply wf_store_unfold. by apply bool_decide_eq_true in Hcheck.
Qed.

Lemma wf_initDatabase : wf_store initDatabase.
Proof.
  constructor; simpl; try apply NoDup_nil_2; try lia;
    by intros ? ?%elem_of_nil.
Qed.

(** The id of a stored key fits an [INTEGER] placeholder. *)
Lemma wf_key_int32 (s : Store) (K : AccessKey) :
  wf_store s → K ∈ access_keys s → int32 (ak_id K) = true.
Proof.
  intros Hwf HK. apply int32_iff.
  pose proof (wf_key_seq s Hwf K HK). pose proof (wf_seq_end s Hwf). lia.
Qed.

(** ** Verification *)

Lemma verify_rows (code : string) (l : list AccessKey) (K : AccessKey) :
  NoDup (ak_key_code <$> l) → K ∈ l →
  filter (λ k, ak_key_code k = ak_key_code K ∧ ak_is_active k = true) l
  = if ak_is_active K then [K] else [].
Proof.
  intros Hnd HK.
  rewrite <- (list_filter_filter (λ k, ak_key_code k = ak_key_code K)
                (λ k, ak_is_active k = true)).
  rewrite list_filter_filter, (list_filter_iff _
    (λ k, ak_is_active k = true ∧ ak_key_code k = ak_key_code K))
    by tauto.
  rewrite <- list_filter_filter, (filter_key_unique ak_key_code K l) by done.
  destruct (ak_is_active K) eqn:Hact.
  - by rewrite filter_cons_True.
  - rewrite filter_cons_False; [done|]. by rewrite Hact.
Qed.

Lemma verify_unknown (now : Z) (code : string) (s : Store) :
  (∀ k, k ∈ access_keys s → ak_key_code k = code → ak_is_active k = false) →
  verifyAccessKey now code s = (inl InvalidKey, s).
Proof.
  intros Hno. unfold verifyAccessKey, bind, select_keys.
  replace (filter _ (access_keys s)) with (@nil AccessKey); [done|].
  symmetry. apply filter_none.
  intros k Hk [Hc Ha]. rewrite (Hno k Hk Hc) in Ha. discriminate.
Qed.

Lemma verify_known (now : Z) (s : Store) (K : AccessKey) :
  NoDup (ak_key_code <$> access_keys s) → K ∈ access_keys s →
  verifyAccessKey now (ak_key_code K) s =
  (if ak_is_active K then
     if expired now K then inl Expired
     else if exhausted K then inl QuotaExhausted
     else inr K
   else inl InvalidKey, s).
Proof.
  intros Hnd HK. unfold verifyAccessKey, bind, select_keys.
  rewrite (verify_rows (ak_key_code K)) by done.
  destruct (ak_is_active K); [|done]. simpl.
  destruct (expired now K); [done|]. by destruct (exhausted K).
Qed.

Lemma verify_read_only (now : Z) (code : string) (s : Store) :
  snd (verifyAccessKey now code s) = s.
Proof.
  unfold verifyAccessKey, bind, select_keys.
  destruct (head _) as [key|]; [|done].
  destruct (expired now key); [done|]. by destruct (exhausted key).
Qed.

Lemma verify_returns_row (now : Z) (code : string) (s s' : Store)
    (K : AccessKey) :
  verifyAccessKey now code s = (inr K, s') →
  s' = s ∧ K ∈ access_keys s ∧ ak_key_code K = code
  ∧ ak_is_active K = true ∧ expired now K = false ∧ exhausted K = false.
Proof.
  unfold verifyAccessKey, bind, select_keys.
  destruct (head _) as [key|] eqn:Hhead; [|done].
  apply head_Some_elem_of, list_elem_of_filter in Hhead as [[Hc Ha] Hin].
  destruct (expired now key) eqn:He; [done|].
  destruct (exhausted key) eqn:Hq; [done|].
  by intros [= <- <-].
Qed.

Lemma expired_false_iff (now : Z) (K : AccessKey) :
  expired now K = false ↔
  ak_expires_at K = None ∨ ∃ t, ak_expires_at K = Some t ∧ t >= now.
Proof.
  unfold expired. destruct (ak_expires_at K) as [t|]; [|naive_solver].
  rewrite Z.ltb_ge. split.
  - intros ?. right. exists t. split; [done|lia].
  - intros [|(t' & [= <-] & ?)]; [done|lia].
Qed.

Lemma exhausted_false_iff (K : AccessKey) :
  exhausted K = false ↔
  ak_max_uses K = -1 ∨ ak_used_count K < ak_max_uses K.
Proof.
  unfold exhausted. rewrite andb_false_iff, negb_false_iff, Z.eqb_eq.
  rewrite Z.geb_leb, Z.leb_gt. tauto.
Qed.

(** ** Composition of store computations *)

#[global] Instance keeps_wf_preorder : PreOrder keeps_wf.
Proof. split; unfold keeps_wf; [intros s|intros s1 s2 s3]; auto. Qed.

#[global] Instance same_keys_preorder : PreOrder same_keys.
Proof.
  split; unfold same_keys; [intros s|intros s1 s2 s3]; [done|].
  intros [-> ->] [-> ->]. done.
Qed.

#[global] Instance quiet_preorder : PreOrder quiet.
Proof.
  split.
  - intros s. split; [lia|]. intros K HK. left. by exists K.
  - intros s1 s2 s3 [Hseq12 H12] [Hseq23 H23]. split; [lia|].
    intros K3 HK3.
    destruct (H23 K3 HK3) as [(K2 & HK2 & Hid & Huc)|[Hnew Huc]].
    + destruct (H12 K2 HK2) as [(K1 & HK1 & Hid' & Huc')|[Hnew Huc']].
      * left. exists K1. split; [done|]. split; congruence.
      * right. split; [lia|congruence].
    + right. split; [lia|done].
Qed.

#[global] Instance grows_preorder : PreOrder grows.
Proof.
  split.
  - intros s. split; [lia|]. intros K HK. left. exists K. split; [done|].
    split; [done|lia].
  - intros s1 s2 s3 [Hseq12 H12] [Hseq23 H23]. split; [lia|].
    intros K3 HK3.
    destruct (H23 K3 HK3) as [(K2 & HK2 & Hid & Huc)|[Hnew Huc]].
    + destruct (H12 K2 HK2) as [(K1 & HK1 & Hid' & Huc')|[Hnew Huc']].
      * left. exists K1. split; [done|]. split; [congruence|lia].
      * right. split; lia.
    + right. split; lia.
Qed.

Lemma same_keys_quiet (s s' : Store) : same_keys s s' → quiet s s'.
Proof.
  intros [Hk Hseq]. split; [lia|]. intros K HK. left. exists K.
  by rewrite <- Hk.
Qed.

Lemma quiet_grows (s s' : Store) : quiet s s' → grows s s'.
Proof.
  intros [Hseq Hq]. split; [done|]. intros K' HK'.
  destruct (Hq K' HK') as [(K & HK & Hid & Huc)|[Hnew Huc]].
  - left. exists K. split; [done|]. split; [done|lia].
  - right. split; lia.
Qed.

Lemma respects_weaken {A} (R R' : relation Store) (m : M A) :
  (∀ s s', R s s' → R' s s') → respects R m → respects R' m.
Proof. intros HR Hm s. apply HR, Hm. Qed.

Section respects.
Context (R : relation Store) `{!PreOrder R}.

Lemma respects_ret {A} (a : A) : respects R (ret a).
Proof. intros s. reflexivity. Qed.

Lemma respects_throw {A} (e : Error) : respects R (@throw A e).
Proof. intros s. reflexivity. Qed.

(** A computation that leaves the store alone. *)
Lemma respects_pure {A} (m : M A) : (∀ s, snd (m s) = s) → respects R m.
Proof. intros Hm s. rewrite Hm. reflexivity. Qed.

Lemma respects_bind {A B} (m : M A) (k : A → M B) :
  respects R m → (∀ a, respects R (k a)) → respects R (bind m k).
Proof.
  intros Hm Hk s. unfold bind. specialize (Hm s).
  destruct (m s) as [[e|a] s1]; [done|].
  etrans; [exact Hm|apply Hk].
Qed.

Lemma respects_try_catch {A} (m : M A) (h : Error → M A) :
  respects R m → (∀ e, respects R (h e)) → respects R (try_catch m h).
Proof.
  intros Hm Hh s. unfold try_catch. specialize (Hm s).
  destruct (m s) as [[e|a] s1]; [|done].
  etrans; [exact Hm|apply Hh].
Qed.

Lemma respects_attempt {A} (m : M A) :
  respects R m → respects R (attempt m).
Proof.
  intros Hm s. unfold attempt. specialize (Hm s). by destruct (m s).
Qed.

Lemma respects_bind_integer (n : JsNumber) : respects R (bind_integer n).
Proof. apply respects_pure, bind_integer_pure. Qed.

Lemma respects_bind_text (text : string) : respects R (bind_text text).
Proof. apply respects_pure, bind_text_pure. Qed.

Lemma respects_bind_timestamp (rt : Runtime) (text : option string) :
  respects R (bind_timestamp rt text).
Proof. apply respects_pure, bind_timestamp_pure. Qed.

Lemma respects_expiry_of (rt : Runtime) (now : Z)
    (daysValid : option JsNumber) :
  respects R (expiry_of rt now daysValid).
Proof. apply respects_pure, expiry_of_pure. Qed.

Lemma respects_varchar (n : nat) (text : string) :
  respects R (varchar n text).
Proof. apply respects_pure, varchar_pure. Qed.

Lemma respects_select_keys (p : AccessKey → Prop)
    `{!∀ k, Decision (p k)} :
  respects R (select_keys p).
Proof. intros s. reflexivity. Qed.

Lemma respects_select_logs (p : UsageLog → Prop)
    `{!∀ l, Decision (p l)} :
  respects R (select_logs p).
Proof. intros s. reflexivity. Qed.
End respects.

Create HintDb respects.

#[global] Hint Resolve respects_ret respects_throw respects_bind
  respects_try_catch respects_attempt respects_bind_integer
  respects_bind_text respects_bind_timestamp respects_expiry_of
  respects_varchar respects_select_keys respects_select_logs : respects.

#[global] Hint Extern 0 (PreOrder _) => apply _ : respects.

(** Splits a composite computation along its binds and branches. *)
Ltac respects_steps :=
  repeat match goal with
    | |- ∀ _, _ => intro
    | |- respects _ (ret _) => apply respects_ret
    | |- respects _ (throw _) => apply respects_throw
    | |- respects _ (bind_integer _) => apply respects_bind_integer
    | |- respects _ (bind_text _) => apply respects_bind_text
    | |- respects _ (bind_timestamp _ _) => apply respects_bind_timestamp
    | |- respects _ (expiry_of _ _ _) => apply respects_expiry_of
    | |- respects _ (varchar _ _) => apply respects_varchar
    | |- respects _ (select_keys _) => apply respects_select_keys
    | |- respects _ (select_logs _) => apply respects_select_logs
    | |- respects _ (bind _ _) => apply respects_bind
    | |- respects _ (try_catch _ _) => apply respects_try_catch
    | |- respects _ (attempt _) => apply respects_attempt
    | |- respects _ (if ?b then _ else _) => destruct b
    | |- respects _ (match ?x with _ => _ end) => destruct x
    | |- PreOrder _ => apply _
    end.

(** ** The SQL statements keep the invariant *)

Lemma nextval_access_keys_wf : respects keeps_wf nextval_access_keys.
Proof.
  intros s Hwf. unfold nextval_access_keys.
  destruct (Z.leb_spec (access_keys_id_seq s) 2147483647); [|done].
  destruct Hwf as [H1 H2 H3 H4 H5 H6 H7 H8].
  constructor; simpl; auto; [|lia|lia].
  intros k Hk. specialize (H3 k Hk). lia.
Qed.

Lemma nextval_usage_logs_wf : respects keeps_wf nextval_usage_logs.
Proof.
  intros s Hwf. unfold nextval_usage_logs.
  destruct (Z.leb_spec (usage_logs_id_seq s) 2147483647); [|done].
  destruct Hwf as [H1 H2 H3 H4 H5 H6 H7 H8].
  constructor; simpl; auto; [|lia|lia].
  intros l Hl. specialize (H5 l Hl). lia.
Qed.

(** What [nextval] does when the sequence has not come to its end. *)
Lemma nextval_access_keys_run (s : Store) :
  access_keys_id_seq s ≤ 2147483647 →
  nextval_access_keys s =
  (inr (access_keys_id_seq s),
   {| access_keys := access_keys s; usage_logs := usage_logs s;
      access_keys_id_seq := access_keys_id_seq s + 1;
      usage_logs_id_seq := usage_logs_id_seq s |}).
Proof.
  intros Hseq. unfold nextval_access_keys.
  by destruct (Z.leb_spec (access_keys_id_seq s) 2147483647); [|lia].
Qed.

Lemma nextval_usage_logs_run (s : Store) :
  usage_logs_id_seq s ≤ 2147483647 →
  nextval_usage_logs s =
  (inr (usage_logs_id_seq s),
   {| access_keys := access_keys s; usage_logs := usage_logs s;
      access_keys_id_seq := access_keys_id_seq s;
      usage_logs_id_seq := usage_logs_id_seq s + 1 |}).
Proof.
  intros Hseq. unfold nextval_usage_logs.
  by destruct (Z.leb_spec (usage_logs_id_seq s) 2147483647); [|lia].
Qed.

Lemma insert_key_row_wf (now : Z) (key_code name : string) (max_uses : Z)
    (expires_at : option Z) :
  respects keeps_wf (insert_key_row now key_code name max_uses expires_at).
Proof.
  intros s Hwf. pose proof (nextval_access_keys_wf s Hwf) as Hwf'.
  unfold insert_key_row, bind. unfold nextval_access_keys in *.
  destruct (Z.leb_spec (access_keys_id_seq s) 2147483647) as [Hseq|Hseq];
    [|done].
  simpl in *. case_decide as Hid; simpl; [done|].
  case_decide as Hcode; simpl; [done|].
  destruct Hwf' as [H1 H2 H3 H4 H5 H6 H7 H8]. simpl in *.
  constructor; simpl; auto.
  - rewrite fmap_app. apply NoDup_app. split; [done|]. split.
    + intros i Hi ->%list_elem_of_singleton. done.
    + apply NoDup_singleton.
  - rewrite fmap_app. apply NoDup_app. split; [done|]. split.
    + intros c Hc ->%list_elem_of_singleton. done.
    + apply NoDup_singleton.
  - intros k [Hk| ->%list_elem_of_singleton]%elem_of_app; [auto|].
    pose proof (wf_seq_pos s Hwf). simpl. lia.
  - intros l Hl. rewrite fmap_app. apply elem_of_app. left. auto.
Qed.

Lemma insert_log_wf (now key_id : Z) (request_text : string) (success : bool)
    (error_msg : string) :
  respects keeps_wf (insert_log now key_id request_text success error_msg).
Proof.
  intros s Hwf. pose proof (nextval_usage_logs_wf s Hwf) as Hwf'.
  unfold insert_log, bind. unfold nextval_usage_logs in *.
  destruct (Z.leb_spec (usage_logs_id_seq s) 2147483647) as [Hseq|Hseq];
    [|done].
  simpl in *. case_decide as Hid; simpl; [done|].
  case_decide as Hfk; simpl; [|done].
  destruct Hwf' as [H1 H2 H3 H4 H5 H6 H7 H8]. simpl in *.
  constructor; simpl; auto.
  - rewrite fmap_app. apply NoDup_app. split; [done|]. split.
    + intros i Hi ->%list_elem_of_singleton. done.
    + apply NoDup_singleton.
  - intros l [Hl| ->%list_elem_of_singleton]%elem_of_app; [auto|].
    pose proof (wf_seq_pos s Hwf). simpl. lia.
  - intros l [Hl| ->%list_elem_of_singleton]%elem_of_app; [auto|done].
Qed.

Lemma update_key_columns {B} (g : AccessKey → B) (i : Z)
    (f : AccessKey → AccessKey) (l : list AccessKey) :
  (∀ k, g (f k) = g k) →
  g <$> ((λ k, if decide (ak_id k = i) then f k else k) <$> l) = g <$> l.
Proof.
  intros Hg. rewrite <- list_fmap_compose. apply list_fmap_ext.
  intros ? k _. simpl. by case_decide.
Qed.

Lemma update_key_wf (i : Z) (f : AccessKey → AccessKey) :
  (∀ k, ak_id (f k) = ak_id k) →
  (∀ k, ak_key_code (f k) = ak_key_code k) →
  respects keeps_wf (update_key i f).
Proof.
  intros Hid Hcode s [H1 H2 H3 H4 H5 H6 H7 H8]. unfold update_key. simpl.
  constructor; simpl; auto; rewrite ?update_key_columns by done; auto.
  intros k' (k & -> & Hk)%list_elem_of_fmap.
  specialize (H3 k Hk). case_decide; rewrite ?Hid; lia.
Qed.

Lemma delete_logs_wf (i : Z) : respects keeps_wf (delete_logs i).
Proof.
  intros s [H1 H2 H3 H4 H5 H6 H7 H8]. unfold delete_logs. simpl.
  constructor; simpl; auto.
  - eapply sublist_NoDup; [exact H4|apply fmap_sublist, sublist_filter].
  - intros l [_ Hl]%list_elem_of_filter. auto.
  - intros l [_ Hl]%list_elem_of_filter. auto.
Qed.

Lemma delete_key_wf (i : Z) : respects keeps_wf (delete_key i).
Proof.
  intros s Hwf. unfold delete_key. case_decide as Hfk; simpl; [done|].
  destruct Hwf as [H1 H2 H3 H4 H5 H6 H7 H8].
  constructor; simpl; auto.
  - eapply sublist_NoDup; [exact H1|apply fmap_sublist, sublist_filter].
  - eapply sublist_NoDup; [exact H2|apply fmap_sublist, sublist_filter].
  - intros k [_ Hk]%list_elem_of_filter. auto.
  - intros l Hl. pose proof (H6 l Hl) as Hin.
    apply list_elem_of_fmap in Hin as (k & Heq & Hk).
    apply list_elem_of_fmap. exists k. split; [done|].
    apply list_elem_of_filter. split; [|done].
    intros Hi. apply Hfk. split.
    + rewrite <- Hi. by apply list_elem_of_fmap_2.
    + rewrite <- Hi, <- Heq. by apply list_elem_of_fmap_2.
Qed.

#[global] Hint Resolve insert_key_row_wf insert_log_wf delete_logs_wf
  delete_key_wf : respects.

(** ** Lifting a relation from the SQL statements to the functions and the
    handlers built from them *)

Section lift.
Context (R : relation Store) `{!PreOrder R}.
Hypothesis insert_key_R :
  ∀ now c n m e, respects R (insert_key_row now c n m e).
Hypothesis insert_log_R : ∀ now i t b e, respects R (insert_log now i t b e).
Hypothesis update_limits_R :
  ∀ i m e, respects R (update_key i (set_limits m e)).
Hypothesis update_increment_R : ∀ i, respects R (update_key i increment).
Hypothesis delete_logs_R : ∀ i, respects R (delete_logs i).
Hypothesis delete_key_R : ∀ i, respects R (delete_key i).

Lemma verifyAccessKey_respects now keyCode :
  respects R (verifyAccessKey now keyCode).
Proof. unfold verifyAccessKey. respects_steps. Qed.

Lemma increment_key_respects i : respects R (increment_key i).
Proof. unfold increment_key. respects_steps. auto. Qed.

Lemma updateAccessKeyUsage_respects keyId :
  respects R (updateAccessKeyUsage keyId).
Proof.
  unfold updateAccessKeyUsage. respects_steps. apply increment_key_respects.
Qed.

Lemma logUsage_respects now keyId ip requestText success errorMsg :
  respects R (logUsage now keyId ip requestText success errorMsg).
Proof. unfold logUsage. respects_steps. auto. Qed.

Lemma insert_key_respects now c n m e : respects R (insert_key now c n m e).
Proof. unfold insert_key. respects_steps. auto. Qed.

Lemma createAccessKey_respects now rt rnd name maxUses daysValid :
  respects R (createAccessKey now rt rnd name maxUses daysValid).
Proof.
  unfold createAccessKey. respects_steps. apply insert_key_respects.
Qed.

Lemma updateAccessKey_respects rt id maxUses expiresAt :
  respects R (updateAccessKey rt id maxUses expiresAt).
Proof. unfold updateAccessKey. respects_steps. auto. Qed.

Lemma deleteAccessKey_respects id : respects R (deleteAccessKey id).
Proof. unfold deleteAccessKey. respects_steps; auto. Qed.

Lemma getAllKeys_respects : respects R getAllKeys.
Proof. unfold getAllKeys. respects_steps. Qed.

Lemma getKeyLogs_respects keyId : respects R (getKeyLogs keyId).
Proof. unfold getKeyLogs. respects_steps. Qed.

Lemma on_error_respects now keyId ip inputText error :
  respects R (GenerateCard.on_error now keyId ip inputText error).
Proof.
  unfold GenerateCard.on_error. respects_steps.
  apply logUsage_respects.
Qed.

Lemma generate_respects now env rt ai keyId ip inputText :
  respects R (GenerateCard.generate now env rt ai keyId ip inputText).
Proof.
  unfold GenerateCard.generate. respects_steps.
  - apply updateAccessKeyUsage_respects.
  - apply logUsage_respects.
Qed.

Lemma generate_card_handle_respects now env rt ai has_body req :
  respects R (GenerateCard.handle now env rt ai has_body req).
Proof.
  unfold GenerateCard.handle. respects_steps;
    auto using verifyAccessKey_respects, on_error_respects,
      generate_respects.
Qed.

Lemma generate_card_respects now env rt ai req :
  respects R (GenerateCard.handler now env rt ai req).
Proof. apply generate_card_handle_respects. Qed.

Lemma admin_keys_respects env req : respects R (AdminKeys.handler env req).
Proof.
  unfold AdminKeys.handler. respects_steps. apply getAllKeys_respects.
Qed.

Lemma admin_key_logs_respects env rt req :
  respects R (AdminKeyLogs.handler env rt req).
Proof.
  unfold AdminKeyLogs.handler. respects_steps. apply getKeyLogs_respects.
Qed.

Lemma admin_update_key_respects env rt req :
  respects R (AdminUpdateKey.handler env rt req).
Proof.
  unfold AdminUpdateKey.handler. respects_steps.
  apply updateAccessKey_respects.
Qed.

Lemma admin_create_key_respects now rnd env rt req :
  respects R (AdminCreateKey.handler now rnd env rt req).
Proof.
  unfold AdminCreateKey.handler. respects_steps.
  apply createAccessKey_respects.
Qed.
End lift.

(** ** What the SQL statements do to the table of keys *)

Lemma insert_log_same_keys (now key_id : Z) (request_text : string)
    (success : bool) (error_msg : string) :
  respects same_keys (insert_log now key_id request_text success error_msg).
Proof.
  intros s. unfold insert_log, bind, nextval_usage_logs.
  destruct (_ <=? _); simpl; [|done]. by repeat case_decide.
Qed.

Lemma delete_logs_same_keys (i : Z) : respects same_keys (delete_logs i).
Proof. by intros s. Qed.

Lemma insert_key_row_quiet (now : Z) (key_code name : string) (max_uses : Z)
    (expires_at : option Z) :
  respects quiet (insert_key_row now key_code name max_uses expires_at).
Proof.
  intros s. unfold insert_key_row, bind, nextval_access_keys.
  destruct (_ <=? _); simpl; [|reflexivity].
  repeat case_decide; simpl; (split; simpl; [lia|]); intros K' HK';
    try (left; by exists K').
  apply elem_of_app in HK' as [HK'| ->%list_elem_of_singleton].
  - left. by exists K'.
  - right. simpl. split; [lia|done].
Qed.

Lemma update_key_quiet (i : Z) (f : AccessKey → AccessKey) :
  (∀ k, ak_id (f k) = ak_id k) →
  (∀ k, ak_used_count (f k) = ak_used_count k) →
  respects quiet (update_key i f).
Proof.
  intros Hid Huc s. split; simpl; [lia|].
  intros K' (K & -> & HK)%list_elem_of_fmap. left. exists K.
  split; [done|]. by case_decide.
Qed.

Lemma update_key_increment (i : Z) (s : Store) (K' : AccessKey) :
  K' ∈ access_keys (snd (update_key i increment s)) →
  ∃ K, K ∈ access_keys s ∧ ak_id K' = ak_id K
       ∧ (ak_used_count K' = ak_used_count K
          ∨ ak_used_count K' = ak_used_count K + 1).
Proof.
  simpl. intros (K & -> & HK)%list_elem_of_fmap. exists K.
  split; [done|]. case_decide; auto.
Qed.

Lemma update_key_grows (i : Z) : respects grows (update_key i increment).
Proof.
  intros s. split; [simpl; lia|]. intros K' HK'.
  apply update_key_increment in HK' as (K & HK & Hid & Huc).
  left. exists K. split; [done|]. split; [done|lia].
Qed.

Lemma delete_key_quiet (i : Z) : respects quiet (delete_key i).
Proof.
  intros s. unfold delete_key. case_decide; simpl; [reflexivity|].
  split; simpl; [lia|]. intros K' [_ HK']%list_elem_of_filter.
  left. by exists K'.
Qed.

(** ** Every call keeps the invariant and lets the counters grow *)

(** Picks, for the function or handler a call runs, its lemma of section
    [lift] at relation [R]. *)
Ltac lift_call R :=
  first
    [ apply (verifyAccessKey_respects R)
    | apply (updateAccessKeyUsage_respects R)
    | apply (logUsage_respects R)
    | apply (createAccessKey_respects R)
    | apply (updateAccessKey_respects R)
    | apply (deleteAccessKey_respects R)
    | apply (getAllKeys_respects R)
    | apply (getKeyLogs_respects R)
    | apply (generate_card_respects R)
    | apply (admin_keys_respects R)
    | apply (admin_key_logs_respects R)
    | apply (admin_update_key_respects R)
    | apply (admin_create_key_respects R) ].

Lemma wf_after (c : Call) (s : Store) : wf_store s → wf_store (after c s).
Proof.
  assert (∀ i m e, respects keeps_wf (update_key i (set_limits m e)))
    by (intros; by apply update_key_wf).
  assert (∀ i, respects keeps_wf (update_key i increment))
    by (intros; by apply update_key_wf).
  destruct c; simpl; lift_call keeps_wf; auto with respects; apply _.
Qed.

Lemma wf_after_all (cs : list Call) (s : Store) :
  wf_store s → wf_store (after_all cs s).
Proof.
  revert s. induction cs as [|c cs IH]; intros s Hwf; [done|].
  simpl. apply IH. by apply wf_after.
Qed.

Lemma quiet_after (c : Call) (s : Store) :
  accounts c = false → quiet s (after c s).
Proof.
  assert (∀ now i t b e, respects quiet (insert_log now i t b e))
    by (intros; eapply respects_weaken;
        [apply same_keys_quiet|apply insert_log_same_keys]).
  assert (∀ i, respects quiet (delete_logs i))
    by (intros; eapply respects_weaken;
        [apply same_keys_quiet|apply delete_logs_same_keys]).
  assert (∀ i m e, respects quiet (update_key i (set_limits m e)))
    by (intros; by apply update_key_quiet).
  pose proof insert_key_row_quiet. pose proof delete_key_quiet.
  destruct c; simpl; try discriminate; intros _;
    lift_call quiet; auto; apply _.
Qed.

Lemma grows_after (c : Call) (s : Store) : grows s (after c s).
Proof.
  destruct (accounts c) eqn:Hc; [|by apply quiet_grows, quiet_after].
  assert (∀ now i t b e, respects grows (insert_log now i t b e))
    by (intros; eapply respects_weaken;
        [intros ? ? ?; by apply quiet_grows, same_keys_quiet
        |apply insert_log_same_keys]).
  pose proof update_key_grows.
  destruct c; try discriminate; simpl; lift_call grows; auto; apply _.
Qed.

Lemma grows_after_all (cs : list Call) (s : Store) :
  grows s (after_all cs s).
Proof.
  revert s. induction cs as [|c cs IH]; intros s; [reflexivity|].
  simpl. etrans; [apply grows_after|apply IH].
Qed.

(** * The claims *)

(** ** Verification (C1, C10) *)

(** C1, as the specification words it, fails at the expiry instant itself:
    with [now = expiresAt] the key [key_promo] is admitted by
    [verifyAccessKey], although the stated condition [expiresAt > now] is
    false. *)
Lemma verify_admits_at_expiry_instant :
  ¬ (verifyAccessKey 86400000 (ak_key_code key_promo) store_promo
       = (inr key_promo, store_promo)
     ↔ admissible_spec 86400000 key_promo).
Proof.
  intros [Hadmit _].
  destruct (Hadmit eq_refl) as (_ & [Hnone|(t & Ht & Hlt)] & _).
  - discriminate Hnone.
  - injection Ht as <-. lia.
Qed.

(** C1 (amended): on a store with unique key codes, [verifyAccessKey] called
    with the code of a stored key [K] returns [K] if and only if [K] is
    active, its [expiresAt] is absent or not earlier than [now], and its
    [maxUses] is [-1] or exceeds [usedCount]. Otherwise it throws:
    [InvalidKey] when [K] is inactive (and for any code that no active key
    carries), [Expired] when [K] is active and [expiresAt < now],
    [QuotaExhausted] when [K] is active, not expired and out of quota. *)
Theorem verify_admits_iff (now : Z) (s : Store) (K : AccessKey) :
  wf_store s → K ∈ access_keys s →
  let result := verifyAccessKey now (ak_key_code K) s in
  (result = (inr K, s) ↔ admissible now K)
  ∧ (ak_is_active K = false → result = (inl InvalidKey, s))
  ∧ (ak_is_active K = true →
     (∃ t, ak_expires_at K = Some t ∧ t < now) →
     result = (inl Expired, s))
  ∧ (ak_is_active K = true →
     (ak_expires_at K = None ∨ ∃ t, ak_expires_at K = Some t ∧ t >= now) →
     ak_max_uses K ≠ -1 → ak_used_count K >= ak_max_uses K →
     result = (inl QuotaExhausted, s))
  ∧ (∀ code,
       (∀ k, k ∈ access_keys s → ak_key_code k = code →
             ak_is_active k = false) →
       verifyAccessKey now code s = (inl InvalidKey, s)).
Proof.
  intros Hwf HK result. subst result.
  rewrite (verify_known now s K (wf_key_codes s Hwf) HK).
  unfold admissible.
  rewrite <- expired_false_iff, <- exhausted_false_iff.
  split; [|split; [|split; [|split]]].
  - destruct (ak_is_active K), (expired now K), (exhausted K);
      split; try done; try (intros (? & ? & ?); done).
  - by intros ->.
  - intros -> (t & Ht & Hlt). unfold expired. rewrite Ht.
    by rewrite (proj2 (Z.ltb_lt t now)).
  - intros -> Hexp Hmax Huc.
    rewrite Hexp.
    destruct (exhausted K) eqn:Hq; [done|].
    apply exhausted_false_iff in Hq. lia.
  - intros code. apply verify_unknown.
Qed.

Lemma verify_admits_iff_witness :
  verifyAccessKey 5 (ak_key_code key_promo) store_promo
    = (inr key_promo, store_promo)
  ↔ admissible 5 key_promo.
Proof.
  apply (verify_admits_iff 5 store_promo key_promo).
  - apply wf_store_check_sound. reflexivity.
  - apply list_elem_of_here.
Defined.

(** ** Usage accounting (C2, C3) *)

Lemma increment_only (K : AccessKey) (s : Store) :
  wf_store s → K ∈ access_keys s →
  (λ k, if decide (ak_id k = ak_id K) then increment k else k)
    <$> access_keys s
  = (λ k, if decide (k = K) then increment K else k) <$> access_keys s.
Proof.
  intros Hwf HK.
  apply (fmap_update_unique ak_id increment K); [|done].
  apply (wf_key_ids s Hwf).
Qed.

(** The increment of a stored key whose counter has room. *)
Lemma updateAccessKeyUsage_run (K : AccessKey) (s : Store) :
  wf_store s → K ∈ access_keys s → ak_used_count K < 2147483647 →
  updateAccessKeyUsage (Num (ak_id K)) s =
  (inr (),
   set_access_keys
     ((λ k, if decide (k = K) then increment K else k) <$> access_keys s) s).
Proof.
  intros Hwf HK Huc. unfold updateAccessKeyUsage, bind.
  rewrite bind_integer_int32 by (by eapply wf_key_int32).
  unfold increment_key, bind, select_keys.
  rewrite (filter_key_unique ak_id K) by (by apply wf_key_ids || done).
  simpl. rewrite (proj2 (Z.leb_le _ _)) by lia. simpl.
  by rewrite increment_only.
Qed.

(** The increment of a stored key whose counter is at its end. *)
Lemma updateAccessKeyUsage_overflow (K : AccessKey) (s : Store) :
  wf_store s → K ∈ access_keys s → 2147483647 ≤ ak_used_count K →
  updateAccessKeyUsage (Num (ak_id K)) s = (inl IntegerOverflow, s).
Proof.
  intros Hwf HK Huc. unfold updateAccessKeyUsage, bind.
  rewrite bind_integer_int32 by (by eapply wf_key_int32).
  unfold increment_key, bind, select_keys.
  rewrite (filter_key_unique ak_id K) by (by apply wf_key_ids || done).
  simpl. by rewrite (proj2 (Z.leb_gt _ _)) by lia.
Qed.

(** The increment for an id that no key carries. *)
Lemma updateAccessKeyUsage_absent (i : Z) (s : Store) :
  int32 i = true → i ∉ ak_id <$> access_keys s →
  updateAccessKeyUsage (Num i) s = (inr (), s).
Proof.
  intros Hi Habsent. unfold updateAccessKeyUsage, bind.
  rewrite bind_integer_int32 by done.
  unfold increment_key, bind, select_keys.
  rewrite (filter_key_absent ak_id) by done. simpl.
  rewrite (fmap_update_absent ak_id) by done. by destruct s.
Qed.

Lemma logUsage_run (now i : Z) (ip requestText : string) (success : bool)
    (errorMsg : option string) (s : Store) :
  wf_store s → i ∈ ak_id <$> access_keys s →
  usage_logs_id_seq s ≤ 2147483647 →
  nul_free ip = true → nul_free requestText = true →
  nul_free (str_or errorMsg "") = true →
  logUsage now (Num i) ip requestText success errorMsg s =
  (inr (),
   {| access_keys := access_keys s;
      usage_logs :=
        usage_logs s ++
        [{| ul_id := usage_logs_id_seq s; ul_key_id := i;
            ul_request_text := "[IP: " +:+ ip +:+ "] " +:+ requestText;
            ul_success := success; ul_error_msg := str_or errorMsg "";
            ul_created_at := now |}];
      access_keys_id_seq := access_keys_id_seq s;
      usage_logs_id_seq := usage_logs_id_seq s + 1 |}).
Proof.
  intros Hwf Hfk Hseq Hip Htext Hmsg. unfold logUsage, bind.
  assert (int32 i = true) as Hi.
  { apply list_elem_of_fmap in Hfk as (K & -> & HK).
    by eapply wf_key_int32. }
  rewrite bind_integer_int32 by done.
  rewrite bind_text_nul_free
    by (rewrite !nul_free_app, Hip, Htext; reflexivity).
  rewrite bind_text_nul_free by done.
  unfold insert_log, bind. rewrite nextval_usage_logs_run by done. simpl.
  rewrite decide_False, decide_True; [done|done|].
  intros (l & Heq & Hl)%list_elem_of_fmap.
  pose proof (wf_log_seq s Hwf l Hl). lia.
Qed.

Lemma wf_fresh_log_id (s : Store) :
  wf_store s → usage_logs_id_seq s ∉ ul_id <$> usage_logs s.
Proof.
  intros Hwf (l & Heq & Hl)%list_elem_of_fmap.
  pose proof (wf_log_seq s Hwf l Hl). lia.
Qed.

Lemma wf_fresh_key_id (s : Store) :
  wf_store s → access_keys_id_seq s ∉ ak_id <$> access_keys s.
Proof.
  intros Hwf (k & Heq & Hk)%list_elem_of_fmap.
  pose proof (wf_key_seq s Hwf k Hk). lia.
Qed.

(** The part of the handler that precedes verification. *)
Lemma generate_card_verified (now : Z) (env : Env) (rt : Runtime)
    (ai : GenerateCard.Generation) (req : GenerateCard.Request) (s : Store)
    (authHeader accessKey : string) :
  GenerateCard.method req = POST →
  GenerateCard.authorization req = Some authHeader →
  String.prefix "Bearer " authHeader = true →
  split " " authHeader !! 1%nat = Some accessKey →
  GenerateCard.handler now env rt ai req s =
  let ip := str_or (GenerateCard.x_forwarded_for req)
              (str_or (GenerateCard.remoteAddress req) "unknown") in
  match verifyAccessKey now accessKey s with
  | (inl error, s1) =>
      GenerateCard.on_error now 0 ip (GenerateCard.inputText req) error s1
  | (inr keyData, s1) =>
      try_catch
        (GenerateCard.generate now env rt ai (ak_id keyData) ip
           (GenerateCard.inputText req))
        (GenerateCard.on_error now (ak_id keyData) ip
           (GenerateCard.inputText req)) s1
  end.
Proof.
  intros Hm Hauth Hprefix Hsplit.
  unfold GenerateCard.handler, GenerateCard.handle.
  rewrite Hm, Hauth, Hprefix, Hsplit.
  rewrite decide_False by done. rewrite decide_False by (by intros []).
  assert (String.eqb authHeader "" = false) as ->.
  { destruct authHeader; [discriminate Hprefix|done]. }
  simpl. unfold bind, attempt.
  by destruct (verifyAccessKey now accessKey s) as [[e|k] s1].
Qed.

(** The success path of the handler, once a key is admitted, on a text the
    database accepts. *)
Lemma generate_run (now : Z) (env : Env) (rt : Runtime)
    (ai : GenerateCard.Generation) (K : AccessKey) (ip : string)
    (inputText : option string) (resultData : string) (s : Store) :
  wf_store s → K ∈ access_keys s →
  GenerateCard.generation env rt ai = inr resultData →
  ak_used_count K < 2147483647 →
  usage_logs_id_seq s ≤ 2147483647 →
  nul_free ip = true → nul_free (str_or inputText "") = true →
  try_catch (GenerateCard.generate now env rt ai (ak_id K) ip inputText)
    (GenerateCard.on_error now (ak_id K) ip inputText) s =
  (inr {| status := 200; body := DataBody resultData |},
   {| access_keys :=
        (λ k, if decide (k = K) then increment K else k) <$> access_keys s;
      usage_logs :=
        usage_logs s ++
        [{| ul_id := usage_logs_id_seq s; ul_key_id := ak_id K;
            ul_request_text :=
              "[IP: " +:+ ip +:+ "] " +:+ str_or inputText "";
            ul_success := true; ul_error_msg := "";
            ul_created_at := now |}];
      access_keys_id_seq := access_keys_id_seq s;
      usage_logs_id_seq := usage_logs_id_seq s + 1 |}).
Proof.
  intros Hwf HK Hgen Huc Hseq Hip Htext.
  unfold try_catch, GenerateCard.generate. rewrite Hgen. unfold bind.
  rewrite updateAccessKeyUsage_run by done.
  assert (wf_store
            (set_access_keys
               ((λ k, if decide (k = K) then increment K else k)
                  <$> access_keys s) s)) as Hwf1.
  { pose proof (wf_after (CallUpdateUsage (Num (ak_id K))) s Hwf) as Hafter.
    simpl in Hafter. by rewrite updateAccessKeyUsage_run in Hafter. }
  rewrite logUsage_run; [done|done| |done|done|done|done].
  simpl. rewrite <- increment_only by done.
  rewrite update_key_columns by done. by apply list_elem_of_fmap_2.
Qed.

(** The [catch] block before a key is admitted. *)
Lemma on_error_unverified (now : Z) (ip : string) (inputText : option string)
    (error : Error) (s : Store) :
  GenerateCard.on_error now 0 ip inputText error s =
  (inr {| status := 500;
          body := ErrorBody
                    (Some (str_or (message error) "Internal Server Error")) |},
   s).
Proof. done. Qed.

(** The [catch] block after a key is admitted, on texts the database
    accepts. *)
Lemma on_error_verified (now : Z) (K : AccessKey) (ip : string)
    (inputText : option string) (error : Error) (s : Store) :
  wf_store s → K ∈ access_keys s →
  usage_logs_id_seq s ≤ 2147483647 →
  nul_free ip = true → nul_free (str_or inputText "") = true →
  nul_free (str_or (message error) "") = true →
  GenerateCard.on_error now (ak_id K) ip inputText error s =
  (inr {| status := 500;
          body := ErrorBody
                    (Some (str_or (message error) "Internal Server Error")) |},
   {| access_keys := access_keys s;
      usage_logs :=
        usage_logs s ++
        [{| ul_id := usage_logs_id_seq s; ul_key_id := ak_id K;
            ul_request_text :=
              "[IP: " +:+ ip +:+ "] " +:+ str_or inputText "";
            ul_success := false;
            ul_error_msg := str_or (message error) "";
            ul_created_at := now |}];
      access_keys_id_seq := access_keys_id_seq s;
      usage_logs_id_seq := usage_logs_id_seq s + 1 |}).
Proof.
  intros Hwf HK Hseq Hip Htext Hmsg. unfold GenerateCard.on_error.
  assert ((0 <? ak_id K) = true) as ->.
  { apply Z.ltb_lt. pose proof (wf_key_seq s Hwf K HK). lia. }
  unfold bind. rewrite logUsage_run; [done|done| |done..].
  by apply list_elem_of_fmap_2.
Qed.

(** C2, as the specification words it, fails for an input text that holds
    a NUL character: verification admits [key_promo] and the generation
    succeeds, the counter of the key is raised, and then the database
    refuses the text of the log row, so that no row is appended and the
    error escapes the handler. *)
Lemma success_without_log_row :
  verifyAccessKey 5 "sk-promo" store_promo = (inr key_promo, store_promo)
  ∧ GenerateCard.generation env_sample rt_sample
      (GenerateCard.Responds (Some "{}")) = inr "{}"
  ∧ GenerateCard.handler 5 env_sample rt_sample
      (GenerateCard.Responds (Some "{}")) request_nul store_promo
    = (inl InvalidByteSequence,
       {| access_keys := [increment key_promo]; usage_logs := [];
          access_keys_id_seq := 2; usage_logs_id_seq := 1 |}).
Proof. split; [reflexivity|]. split; reflexivity. Qed.

(** C2 (amended): when verification has admitted key [K] and the generation
    has succeeded, and the logged text (the caller's address and the input
    text) holds no NUL character, the counter of [K] is below 2147483647
    and the id sequence of the log has not come to its end, the handler
    answers 200 and leaves a store in which [K] is replaced by [K] with
    [usedCount + 1] and every other key is as before, and in which exactly
    one log row, with [success = true] and [keyId = K.id], has been
    appended. *)
Theorem record_usage_success (now : Z) (env : Env) (rt : Runtime)
    (ai : GenerateCard.Generation) (req : GenerateCard.Request) (s : Store)
    (authHeader accessKey resultData : string) (K : AccessKey) :
  wf_store s →
  GenerateCard.method req = POST →
  GenerateCard.authorization req = Some authHeader →
  String.prefix "Bearer " authHeader = true →
  split " " authHeader !! 1%nat = Some accessKey →
  verifyAccessKey now accessKey s = (inr K, s) →
  GenerateCard.generation env rt ai = inr resultData →
  nul_free (str_or (GenerateCard.x_forwarded_for req)
              (str_or (GenerateCard.remoteAddress req) "unknown")) = true →
  nul_free (str_or (GenerateCard.inputText req) "") = true →
  ak_used_count K < 2147483647 →
  usage_logs_id_seq s ≤ 2147483647 →
  ∃ row,
    GenerateCard.handler now env rt ai req s =
      (inr {| status := 200; body := DataBody resultData |},
       {| access_keys :=
            (λ k, if decide (k = K) then increment K else k)
              <$> access_keys s;
          usage_logs := usage_logs s ++ [row];
          access_keys_id_seq := access_keys_id_seq s;
          usage_logs_id_seq := usage_logs_id_seq s + 1 |})
    ∧ ak_used_count (increment K) = ak_used_count K + 1
    ∧ ul_success row = true
    ∧ ul_key_id row = ak_id K
    ∧ ul_id row = usage_logs_id_seq s.
Proof.
  intros Hwf Hm Hauth Hprefix Hsplit Hverify Hgen Hip Htext Huc Hseq.
  apply verify_returns_row in Hverify as Hrow.
  destruct Hrow as (_ & HK & _).
  eexists. split; [|shelve].
  rewrite (generate_card_verified _ _ _ _ _ _ _ _ Hm Hauth Hprefix Hsplit).
  rewrite Hverify. simpl. by apply generate_run.
  Unshelve. by repeat split.
Qed.

Lemma record_usage_success_witness :
  ∃ row,
    GenerateCard.handler 5 env_sample rt_sample
      (GenerateCard.Responds (Some "{}")) request_promo store_promo =
      (inr {| status := 200; body := DataBody "{}" |},
       {| access_keys := [increment key_promo];
          usage_logs := [row];
          access_keys_id_seq := 2;
          usage_logs_id_seq := 2 |})
    ∧ ul_success row = true ∧ ul_key_id row = 1.
Proof.
  destruct (record_usage_success 5 env_sample rt_sample
              (GenerateCard.Responds (Some "{}")) request_promo store_promo
              "Bearer sk-promo" "sk-promo" "{}" key_promo)
    as (row & Hrun & _ & Hsuccess & Hkey & _).
  - apply wf_store_check_sound. reflexivity.
  - reflexivity.
  - reflexivity.
  - reflexivity.
  - reflexivity.
  - reflexivity.
  - reflexivity.
  - reflexivity.
  - reflexivity.
  - simpl. lia.
  - simpl. lia.
  - exists row. split; [|by split]. rewrite Hrun. reflexivity.
Defined.

Lemma str_or_empty_nonempty (o : option string) :
  str_or o "" ≠ "" ↔ ∃ m, o = Some m ∧ m ≠ "".
Proof.
  unfold str_or. destruct o as [m|].
  - destruct (String.eqb_spec m "") as [->|Hne]; split.
    + intros []. done.
    + intros (m & [= <-] & Hm). done.
    + intros _. by exists m.
    + done.
  - split; [done|]. by intros (m & ? & _).
Qed.

(** C3, as the specification words it, fails when the error thrown by the
    generation service carries no message: the log row appended for the
    failed attempt then has an empty [errorMsg]. *)
Lemma failure_log_without_message :
  ¬ ∃ row,
      usage_logs
        (snd (GenerateCard.handler 5 env_sample rt_sample
                (GenerateCard.Throws None) request_promo store_promo))
        = usage_logs store_promo ++ [row]
      ∧ ul_success row = false
      ∧ ul_error_msg row ≠ "".
Proof.
  intros (row & Hlogs & _ & Hmsg). vm_compute in Hlogs.
  injection Hlogs as <-. by apply Hmsg.
Qed.

(** C3 (amended): when verification has admitted key [K] and the generation
    has failed with [error], and neither the logged text (the caller's
    address and the input text) nor the message of [error] holds a NUL
    character and the id sequence of the log has not come to its end, the
    handler answers 500 and leaves a store in which every key, [K]
    included, is as before, and in which exactly one log row has been
    appended, with [success = false], [keyId = K.id] and [errorMsg] equal
    to the message of [error], or empty when [error] carries none; so
    [errorMsg] is non-empty exactly when the error has a non-empty
    message. *)
Theorem record_usage_failure (now : Z) (env : Env) (rt : Runtime)
    (ai : GenerateCard.Generation) (req : GenerateCard.Request) (s : Store)
    (authHeader accessKey : string) (K : AccessKey) (error : Error) :
  wf_store s →
  GenerateCard.method req = POST →
  GenerateCard.authorization req = Some authHeader →
  String.prefix "Bearer " authHeader = true →
  split " " authHeader !! 1%nat = Some accessKey →
  verifyAccessKey now accessKey s = (inr K, s) →
  GenerateCard.generation env rt ai = inl error →
  nul_free (str_or (GenerateCard.x_forwarded_for req)
              (str_or (GenerateCard.remoteAddress req) "unknown")) = true →
  nul_free (str_or (GenerateCard.inputText req) "") = true →
  nul_free (str_or (message error) "") = true →
  usage_logs_id_seq s ≤ 2147483647 →
  ∃ row,
    GenerateCard.handler now env rt ai req s =
      (inr {| status := 500;
              body := ErrorBody
                        (Some (str_or (message error)
                                 "Internal Server Error")) |},
       {| access_keys := access_keys s;
          usage_logs := usage_logs s ++ [row];
          access_keys_id_seq := access_keys_id_seq s;
          usage_logs_id_seq := usage_logs_id_seq s + 1 |})
    ∧ ul_success row = false
    ∧ ul_key_id row = ak_id K
    ∧ ul_error_msg row = str_or (message error) ""
    ∧ (ul_error_msg row ≠ "" ↔ ∃ m, message error = Some m ∧ m ≠ "").
Proof.
  intros Hwf Hm Hauth Hprefix Hsplit Hverify Hgen Hip Htext Hmsg Hseq.
  apply verify_returns_row in Hverify as Hrow.
  destruct Hrow as (_ & HK & _).
  eexists. split; [|shelve].
  rewrite (generate_card_verified _ _ _ _ _ _ _ _ Hm Hauth Hprefix Hsplit).
  rewrite Hverify. simpl. unfold try_catch, GenerateCard.generate.
  rewrite Hgen. unfold throw. by apply on_error_verified.
  Unshelve. simpl. repeat split; try done; apply str_or_empty_nonempty.
Qed.

Lemma record_usage_failure_witness :
  ∃ row,
    GenerateCard.handler 5 env_sample rt_sample
      (GenerateCard.Responds None) request_promo store_promo =
      (inr {| status := 500; body := ErrorBody (Some "No response from AI") |},
       {| access_keys := [key_promo];
          usage_logs := [row];
          access_keys_id_seq := 2;
          usage_logs_id_seq := 2 |})
    ∧ ul_success row = false
    ∧ ul_error_msg row = "No response from AI".
Proof.
  destruct (record_usage_failure 5 env_sample rt_sample
              (GenerateCard.Responds None) request_promo store_promo
              "Bearer sk-promo" "sk-promo" key_promo NoResponse)
    as (row & Hrun & Hsuccess & _ & Hmsg & _).
  - apply wf_store_check_sound. reflexivity.
  - reflexivity.
  - reflexivity.
  - reflexivity.
  - reflexivity.
  - reflexivity.
  - reflexivity.
  - reflexivity.
  - reflexivity.
  - reflexivity.
  - simpl. lia.
  - exists row. split; [|by split]. rewrite Hrun. reflexivity.
Defined.

(** C10: [verifyAccessKey] leaves the store as it found it, whether it
    returns a key or throws; and when it throws inside the generation
    handler, the handler answers 500 and the store, its keys, its log rows
    and its counters, is unchanged. *)
Theorem verify_is_read_only (now : Z) (s : Store) :
  (∀ code, snd (verifyAccessKey now code s) = s)
  ∧ (∀ env rt ai req authHeader accessKey error,
       GenerateCard.method req = POST →
       GenerateCard.authorization req = Some authHeader →
       String.prefix "Bearer " authHeader = true →
       split " " authHeader !! 1%nat = Some accessKey →
       fst (verifyAccessKey now accessKey s) = inl error →
       GenerateCard.handler now env rt ai req s =
       (inr {| status := 500;
               body := ErrorBody
                         (Some (str_or (message error)
                                  "Internal Server Error")) |}, s)).
Proof.
  split; [intros code; apply verify_read_only|].
  intros env rt ai req authHeader accessKey error Hm Hauth Hprefix Hsplit
    Hverify.
  rewrite (generate_card_verified _ _ _ _ _ _ _ _ Hm Hauth Hprefix Hsplit).
  pose proof (verify_read_only now accessKey s) as Hs.
  destruct (verifyAccessKey now accessKey s) as [[e|k] s1];
    simpl in *; [|discriminate].
  injection Hverify as ->. subst s1. reflexivity.
Qed.

Lemma verify_is_read_only_witness :
  GenerateCard.handler 86400001 env_sample rt_sample
    (GenerateCard.Responds (Some "{}")) request_promo store_promo =
  (inr {| status := 500;
          body := ErrorBody
                    (Some (str_or (message Expired)
                             "Internal Server Error")) |}, store_promo).
Proof.
  apply (proj2 (verify_is_read_only 86400001 store_promo) env_sample
           rt_sample (GenerateCard.Responds (Some "{}")) request_promo
           "Bearer sk-promo" "sk-promo" Expired);
    reflexivity.
Defined.

(** ** Creation (C4, C9) *)

Lemma length_app_string (s1 s2 : string) :
  String.length (s1 +:+ s2) = (String.length s1 + String.length s2)%nat.
Proof. induction s1 as [|a s1 IH]; simpl; [done|]. by rewrite IH. Qed.

Lemma length_substring_le (n m : nat) (s : string) :
  (String.length (substring n m s) ≤ m)%nat.
Proof.
  revert n m. induction s as [|a s IH]; intros [|n] [|m]; simpl; try lia.
  - specialize (IH 0%nat m). lia.
  - apply (IH n 0%nat).
  - apply (IH n (S m)).
Qed.

(** A generated code fits the 64 characters of its column. *)
Lemma generateKey_fits (rnd : string * string) :
  (characters (generateKey rnd) ≤ 64)%nat.
Proof.
  etrans; [apply characters_le_length|]. unfold generateKey.
  rewrite !length_app_string.
  pose proof (length_substring_le 2 13 (fst rnd)).
  pose proof (length_substring_le 2 13 (snd rnd)). simpl. lia.
Qed.

Lemma createAccessKey_duplicate (now : Z) (rt : Runtime)
    (rnd : string * string) (name : string)
    (maxUses daysValid : option JsNumber) (s : Store) :
  nul_free name = true →
  (∃ k, k ∈ access_keys s ∧ ak_name k = name) →
  createAccessKey now rt rnd name maxUses daysValid s
  = (inl (DuplicateName name), s).
Proof.
  intros Hnul (k & Hk & Hname). unfold createAccessKey, bind.
  rewrite bind_text_nul_free by done. unfold select_keys.
  assert (k ∈ filter (λ k, ak_name k = name) (access_keys s)) as Hin
    by (by apply list_elem_of_filter).
  destruct (filter _ (access_keys s)) as [|k' l]; [by apply elem_of_nil in Hin|].
  done.
Qed.

(** The steps of [createAccessKey] that follow the check of the name, when
    that check finds no key. *)
Lemma createAccessKey_unused (now : Z) (rt : Runtime) (rnd : string * string)
    (name : string) (maxUses daysValid : option JsNumber) (s : Store) :
  nul_free name = true →
  (∀ k, k ∈ access_keys s → ak_name k ≠ name) →
  createAccessKey now rt rnd name maxUses daysValid s =
  (let* expiresAt := expiry_of rt now daysValid in
   let* key_code := bind_text (generateKey rnd) in
   let* max_uses := bind_integer (default_maxUses maxUses) in
   let* expires_at := bind_timestamp rt expiresAt in
   insert_key now key_code name max_uses expires_at) s.
Proof.
  intros Hnul Hname. unfold createAccessKey, bind at 1.
  rewrite bind_text_nul_free by done. unfold bind at 1, select_keys.
  rewrite filter_none by done. simpl. unfold bind.
  destruct (expiry_of rt now daysValid s) as [[e|expiresAt] s1]; [done|].
  destruct (bind_text (generateKey rnd) s1) as [[e|key_code] s2]; [done|].
  by rewrite bind_text_nul_free.
Qed.

Lemma createAccessKey_fresh (now : Z) (rt : Runtime) (rnd : string * string)
    (name : string) (maxUses daysValid : option JsNumber) (m : Z)
    (expiresAt : option string) (e : option Z) (s : Store) :
  wf_store s →
  (∀ k, k ∈ access_keys s → ak_name k ≠ name) →
  generateKey rnd ∉ ak_key_code <$> access_keys s →
  nul_free name = true → (characters name ≤ 100)%nat →
  nul_free (generateKey rnd) = true →
  default_maxUses maxUses = Num m → int32 m = true →
  expiry_of rt now daysValid s = (inr expiresAt, s) →
  bind_timestamp rt expiresAt s = (inr e, s) →
  access_keys_id_seq s ≤ 2147483647 →
  let K := {| ak_id := access_keys_id_seq s; ak_key_code := generateKey rnd;
              ak_name := name; ak_max_uses := m; ak_used_count := 0;
              ak_expires_at := e;
              ak_is_active := true; ak_created_at := now |} in
  createAccessKey now rt rnd name maxUses daysValid s
  = (inr K,
     {| access_keys := access_keys s ++ [K]; usage_logs := usage_logs s;
        access_keys_id_seq := access_keys_id_seq s + 1;
        usage_logs_id_seq := usage_logs_id_seq s |}).
Proof.
  intros Hwf Hname Hcode Hnul Hlen Hnulc Hmax Hm Hexp Htime Hseq K.
  rewrite createAccessKey_unused by done.
  unfold bind. rewrite Hexp, bind_text_nul_free, Hmax by done.
  rewrite bind_integer_int32, Htime by done.
  unfold insert_key, bind.
  rewrite varchar_fits by apply generateKey_fits.
  rewrite varchar_fits by done.
  unfold insert_key_row, bind. rewrite nextval_access_keys_run by done.
  simpl. rewrite decide_False by (by apply wf_fresh_key_id).
  by rewrite decide_False.
Qed.




(** C9, as the specification words it, fails for a negative [maxUses] other
    than [-1]: the request handler stores [-5] as given instead of the
    default [100]. *)
Lemma create_stores_negative_maxUses :
  ∃ K s',
    AdminCreateKey.handler 0 ("0.abcdef", "0.ghijkl") env_sample rt_sample
      (request_create "promo2" (JNumber (Num (-5)))) initDatabase
    = (inr {| status := 200; body := KeyBody (Some K) |}, s')
    ∧ ak_max_uses K = -5
    ∧ ak_max_uses K ≠ 100.
Proof. eexists _, _. split; [reflexivity|]. split; [reflexivity|done]. Qed.

Lemma num_or_truthy (a : JsNumber) (d : Z) :
  d ≠ 0 → truthy (JNumber (num_or a d)) = true.
Proof.
  intros Hd. unfold num_or. destruct (truthy (JNumber a)) eqn:Ha; [done|].
  simpl. by destruct (Z.eqb_spec d 0).
Qed.

Lemma expiry_of_days (rt : Runtime) (now : Z) (days : JsNumber) (t : Z)
    (s : Store) :
  truthy (JNumber days) = true → setDate rt now days = Some t →
  expiry_of rt now (Some days) s = (inr (Some (toISOString rt t)), s).
Proof. intros Hdays Ht. unfold expiry_of. by rewrite Hdays, Ht. Qed.

(** C9 (amended): an authorised creation request under an unused name of at
    most 100 characters, without a NUL character, that the database accepts
    (it draws an unused code, [Number(maxUses) || 100] is an integer of 32
    bits, the expiry is read as a timestamp, the id sequence has not come
    to its end) answers 200 with the created key. Its [maxUses] is
    [Number(maxUses) || 100]: the default [100] when [maxUses] is not
    supplied, not numeric or [0], and any other integer, negative ones
    included, as given. Its [expiresAt] is always set: to the instant the
    process reads back for the date that [setDate] reaches from [now] in
    [Number(expiresInDays) || 30] days, which are 30 days when
    [expiresInDays] is not supplied, not numeric or [0]. *)
Theorem create_defaults (now : Z) (rnd : string * string) (env : Env)
    (rt : Runtime) (req : AdminCreateKey.Request)
    (fields : AdminCreateKey.Fields) (s : Store) (name : string)
    (maxUses days : JsNumber) (m t t' : Z) :
  wf_store s →
  AdminCreateKey.method req = POST →
  AdminCreateKey.x_admin_password req = ADMIN_PASSWORD env →
  AdminCreateKey.req_body req = Some fields →
  AdminCreateKey.name fields = Some name → name ≠ "" →
  nul_free name = true → (characters name ≤ 100)%nat →
  (∀ k, k ∈ access_keys s → ak_name k ≠ name) →
  generateKey rnd ∉ ak_key_code <$> access_keys s →
  nul_free (generateKey rnd) = true →
  access_keys_id_seq s ≤ 2147483647 →
  Number rt (AdminCreateKey.maxUses fields) = maxUses →
  Number rt (AdminCreateKey.expiresInDays fields) = days →
  num_or maxUses 100 = Num m → int32 m = true →
  setDate rt now (num_or days 30) = Some t →
  timestamp rt (toISOString rt t) = inr t' →
  ∃ K s',
    AdminCreateKey.handler now rnd env rt req s
    = (inr {| status := 200; body := KeyBody (Some K) |}, s')
    ∧ K ∈ access_keys s'
    ∧ ak_name K = name
    ∧ ak_used_count K = 0
    ∧ ak_max_uses K = m
    ∧ (maxUses = NaN ∨ maxUses = Num 0 → ak_max_uses K = 100)
    ∧ (∀ z, maxUses = Num z → z ≠ 0 → ak_max_uses K = z)
    ∧ ak_expires_at K = Some t'
    ∧ (days = NaN ∨ days = Num 0 → num_or days 30 = Num 30)
    ∧ (∀ d, days = Num d → d ≠ 0 → num_or days 30 = Num d).
Proof.
  intros Hwf Hm Hpwd Hbody Hname Hne Hnul Hlen Hfresh Hcode Hnulc Hseq
    HmaxUses Hdays Hmax Hint Hdate Htime.
  unfold AdminCreateKey.handler.
  rewrite Hm, Hbody, Hname, Hpwd, HmaxUses, Hdays.
  rewrite decide_False by (by intros []).
  unfold unauthorized. rewrite bool_decide_eq_true_2 by done. simpl.
  destruct (String.eqb_spec name "") as [|_]; [done|].
  unfold try_catch, bind.
  rewrite (createAccessKey_fresh now rt rnd name _ _ m
             (Some (toISOString rt t)) (Some t')); try done.
  - eexists _, _. split; [reflexivity|]. simpl.
    split; [apply elem_of_app; right; apply list_elem_of_here|].
    split; [done|]. split; [done|]. split; [done|].
    split; [intros [->| ->]; by injection Hmax as <-|].
    split.
    { intros z -> Hz. unfold num_or in Hmax. simpl in Hmax.
      destruct (Z.eqb_spec z 0); [done|]. by injection Hmax as <-. }
    split; [done|]. split; [by intros [->| ->]|].
    intros d -> Hd. unfold num_or. simpl. by destruct (Z.eqb_spec d 0).
  - apply expiry_of_days; [by apply num_or_truthy|done].
  - simpl. by rewrite Htime.
Qed.

Lemma create_defaults_witness :
  ∃ K s',
    AdminCreateKey.handler 0 ("0.abcdef", "0.ghijkl") env_sample rt_sample
      (request_create "promo2" JUndefined) initDatabase
    = (inr {| status := 200; body := KeyBody (Some K) |}, s')
    ∧ ak_max_uses K = 100
    ∧ ak_expires_at K = Some (30 * ms_per_day).
Proof.
  destruct (create_defaults 0 ("0.abcdef", "0.ghijkl") env_sample rt_sample
              (request_create "promo2" JUndefined)
              {| AdminCreateKey.name := Some "promo2";
                 AdminCreateKey.maxUses := JUndefined;
                 AdminCreateKey.expiresInDays := JUndefined |}
              initDatabase "promo2" NaN NaN 100
              (30 * ms_per_day) (30 * ms_per_day))
    as (K & s' & Hrun & _ & _ & _ & Hmax & _ & _ & Hexp & _).
  - apply wf_store_check_sound. reflexivity.
  - reflexivity.
  - reflexivity.
  - reflexivity.
  - reflexivity.
  - discriminate.
  - reflexivity.
  - simpl. lia.
  - intros k Hk. by apply elem_of_nil in Hk.
  - simpl. apply not_elem_of_nil.
  - reflexivity.
  - simpl. lia.
  - reflexivity.
  - reflexivity.
  - reflexivity.
  - reflexivity.
  - reflexivity.
  - reflexivity.
  - by exists K, s'.
Defined.

(** ** Update (C7, C8) *)

Lemma set_access_keys_same (s : Store) : set_access_keys (access_keys s) s = s.
Proof. by destruct s. Qed.

Lemma set_usage_logs_same (s : Store) : set_usage_logs (usage_logs s) s = s.
Proof. by destruct s. Qed.

Lemma updateAccessKey_missing (rt : Runtime) (i m : Z)
    (expiresAt : option string) (e : option Z) (s : Store) :
  int32 i = true → int32 m = true →
  bind_timestamp rt expiresAt s = (inr e, s) →
  i ∉ ak_id <$> access_keys s →
  updateAccessKey rt (Num i) (Num m) expiresAt s = (inr None, s).
Proof.
  intros Hint Hm Htime Hi. unfold updateAccessKey, bind.
  rewrite !bind_integer_int32, Htime by done. unfold update_key. simpl.
  rewrite (filter_key_absent ak_id) by done. simpl.
  by rewrite (fmap_update_absent ak_id), set_access_keys_same.
Qed.

Lemma updateAccessKey_existing (rt : Runtime) (K : AccessKey) (m : Z)
    (expiresAt : option string) (e : option Z) (s : Store) :
  wf_store s → K ∈ access_keys s → int32 m = true →
  bind_timestamp rt expiresAt s = (inr e, s) →
  updateAccessKey rt (Num (ak_id K)) (Num m) expiresAt s =
  (inr (Some (set_limits m e K)),
   {| access_keys :=
        (λ k, if decide (k = K) then set_limits m e K else k)
          <$> access_keys s;
      usage_logs := usage_logs s;
      access_keys_id_seq := access_keys_id_seq s;
      usage_logs_id_seq := usage_logs_id_seq s |}).
Proof.
  intros Hwf HK Hm Htime. unfold updateAccessKey, bind.
  rewrite bind_integer_int32 by (by eapply wf_key_int32).
  rewrite bind_integer_int32, Htime by done. unfold update_key.
  rewrite (filter_key_unique ak_id K) by (by apply wf_key_ids || done).
  simpl. f_equal. unfold set_access_keys. f_equal.
  apply (fmap_update_unique ak_id (set_limits m e) K); [|done].
  by apply wf_key_ids.
Qed.

(** C7, as the specification words it, fails: updating an id that no key
    carries throws nothing. [updateAccessKey] returns no row, and the
    request handler answers 200. *)
Lemma update_missing_key_is_no_error :
  (7 ∉ ak_id <$> access_keys store_promo)
  ∧ (¬ ∃ error,
       fst (updateAccessKey rt_sample (Num 7) (Num 5) None store_promo)
       = inl error)
  ∧ AdminUpdateKey.handler env_sample rt_sample (request_update 7 5 None)
      store_promo
    = (inr {| status := 200; body := KeyBody None |}, store_promo).
Proof.
  split; [|split].
  - by intros [Heq|Hin%elem_of_nil]%elem_of_cons.
  - by intros (error & Herr).
  - reflexivity.
Qed.

(** C7 (amended): with an id and a [maxUses] that are integers of 32 bits
    and an [expiresAt] that is absent or read by the database as a
    timestamp: for an id that no stored key carries, [updateAccessKey]
    throws nothing, returns no row and leaves the store as it was, and the
    request handler answers 200 with an empty body; for the id of a stored
    key it returns the updated row, which is then stored. *)
Theorem update_returns_row_if_any (rt : Runtime) (s : Store) (i m : Z)
    (expiresAt : option string) (e : option Z) :
  int32 i = true → int32 m = true →
  bind_timestamp rt expiresAt s = (inr e, s) →
  (i ∉ ak_id <$> access_keys s →
   updateAccessKey rt (Num i) (Num m) expiresAt s = (inr None, s)
   ∧ ∀ env req fields,
       AdminUpdateKey.method req = POST →
       AdminUpdateKey.x_admin_password req = ADMIN_PASSWORD env →
       AdminUpdateKey.req_body req = Some fields →
       truthy (AdminUpdateKey.id fields) = true →
       Number rt (AdminUpdateKey.id fields) = Num i →
       Number rt (AdminUpdateKey.maxUses fields) = Num m →
       str_or_null (AdminUpdateKey.expiresAt fields) = expiresAt →
       AdminUpdateKey.handler env rt req s
       = (inr {| status := 200; body := KeyBody None |}, s))
  ∧ (∀ K, wf_store s → K ∈ access_keys s → ak_id K = i →
       ∃ s',
         updateAccessKey rt (Num i) (Num m) expiresAt s
         = (inr (Some (set_limits m e K)), s')
         ∧ set_limits m e K ∈ access_keys s').
Proof.
  intros Hint Hm Htime. split.
  - intros Hi. split; [by eapply updateAccessKey_missing|].
    intros env req fields Hmeth Hpwd Hbody Hid Hnum Hmax He.
    unfold AdminUpdateKey.handler.
    rewrite Hmeth, Hpwd, Hbody, Hid, Hnum, Hmax, He.
    rewrite decide_False by (by intros []).
    unfold unauthorized. rewrite bool_decide_eq_true_2 by done. simpl.
    unfold try_catch, bind.
    by rewrite (updateAccessKey_missing rt i m expiresAt e).
  - intros K Hwf HK <-. eexists. split.
    + by apply updateAccessKey_existing.
    + simpl. apply list_elem_of_fmap. exists K. by rewrite decide_True.
Qed.

Lemma update_returns_row_if_any_witness :
  updateAccessKey rt_sample (Num 7) (Num 5) None store_promo
  = (inr None, store_promo)
  ∧ ∃ s',
      updateAccessKey rt_sample (Num 1) (Num 5) None store_promo
      = (inr (Some (set_limits 5 None key_promo)), s')
      ∧ set_limits 5 None key_promo ∈ access_keys s'.
Proof.
  split.
  - apply (proj1 (update_returns_row_if_any rt_sample store_promo 7 5 None
                    None eq_refl eq_refl eq_refl)).
    by intros [Heq|Hin%elem_of_nil]%elem_of_cons.
  - apply (proj2 (update_returns_row_if_any rt_sample store_promo 1 5 None
                    None eq_refl eq_refl eq_refl) key_promo).
    + apply wf_store_check_sound. reflexivity.
    + apply list_elem_of_here.
    + reflexivity.
Defined.

(** C8, as the specification words it, fails for a [maxUses] beyond the
    range of the column: the database refuses the number, and
    [updateAccessKey] throws and overwrites nothing. *)
Lemma update_refuses_wide_maxUses :
  key_promo ∈ access_keys store_promo
  ∧ updateAccessKey rt_sample (Num (ak_id key_promo)) (Num 2147483648) None
      store_promo
    = (inl (IntegerOutOfRange 2147483648), store_promo).
Proof. split; [apply list_elem_of_here|reflexivity]. Qed.

(** C8 (amended): for a stored key [K], [updateAccessKey] with [K]'s id, a
    [maxUses] that is an integer of 32 bits and an [expiresAt] that is
    absent or a text the database reads as a timestamp returns [K] with
    exactly these two fields overwritten, [expiresAt] by the instant the
    process reads back for the text, stores it in place of [K], and leaves
    every other key, every log row and both sequences as they were;
    [name], [code], [id], [usedCount], [isActive] and [createdAt] of [K]
    are unchanged. *)
Theorem update_overwrites_limits_only (rt : Runtime) (s : Store)
    (K : AccessKey) (m : Z) (expiresAt : option string) (e : option Z) :
  wf_store s → K ∈ access_keys s → int32 m = true →
  bind_timestamp rt expiresAt s = (inr e, s) →
  ∃ K',
    updateAccessKey rt (Num (ak_id K)) (Num m) expiresAt s =
    (inr (Some K'),
     {| access_keys := (λ k, if decide (k = K) then K' else k)
                         <$> access_keys s;
        usage_logs := usage_logs s;
        access_keys_id_seq := access_keys_id_seq s;
        usage_logs_id_seq := usage_logs_id_seq s |})
    ∧ ak_max_uses K' = m ∧ ak_expires_at K' = e
    ∧ ak_name K' = ak_name K ∧ ak_key_code K' = ak_key_code K
    ∧ ak_id K' = ak_id K ∧ ak_used_count K' = ak_used_count K
    ∧ ak_is_active K' = ak_is_active K
    ∧ ak_created_at K' = ak_created_at K.
Proof.
  intros Hwf HK Hm Htime. exists (set_limits m e K).
  split; [by apply updateAccessKey_existing|]. by repeat split.
Qed.

Lemma update_overwrites_limits_only_witness :
  ∃ K',
    updateAccessKey rt_sample (Num 1) (Num (-7)) (Some "3") store_promo =
    (inr (Some K'),
     {| access_keys := [K']; usage_logs := [];
        access_keys_id_seq := 2; usage_logs_id_seq := 1 |})
    ∧ ak_max_uses K' = -7 ∧ ak_expires_at K' = Some 3
    ∧ ak_name K' = "promo" ∧ ak_used_count K' = 0.
Proof.
  destruct (update_overwrites_limits_only rt_sample store_promo key_promo
              (-7) (Some "3") (Some 3))
    as (K' & Hrun & Hmax & Hexp & Hname & _ & _ & Huc & _).
  - apply wf_store_check_sound. reflexivity.
  - apply list_elem_of_here.
  - reflexivity.
  - reflexivity.
  - exists K'. split; [|by repeat split].
    etrans; [exact Hrun|]. reflexivity.
Defined.

(** ** Deletion (C5) *)

Lemma delete_key_after_logs (i : Z) (s : Store) :
  delete_key i (snd (delete_logs i s)) =
  (inr (),
   {| access_keys := filter (λ k, ak_id k ≠ i) (access_keys s);
      usage_logs := filter (λ l, ul_key_id l ≠ i) (usage_logs s);
      access_keys_id_seq := access_keys_id_seq s;
      usage_logs_id_seq := usage_logs_id_seq s |}).
Proof.
  unfold delete_key, delete_logs. simpl.
  rewrite decide_False; [done|].
  intros [_ (l & Heq & [Hne _]%list_elem_of_filter)%list_elem_of_fmap].
  done.
Qed.

Lemma deleteAccessKey_run (i : Z) (s : Store) :
  int32 i = true →
  deleteAccessKey (Num i) s =
  (inr true,
   {| access_keys := filter (λ k, ak_id k ≠ i) (access_keys s);
      usage_logs := filter (λ l, ul_key_id l ≠ i) (usage_logs s);
      access_keys_id_seq := access_keys_id_seq s;
      usage_logs_id_seq := usage_logs_id_seq s |}).
Proof.
  intros Hi. unfold deleteAccessKey, bind.
  rewrite bind_integer_int32 by done. simpl.
  change (set_usage_logs _ s) with (snd (delete_logs i s)).
  by rewrite delete_key_after_logs.
Qed.

Lemma getKeyLogs_none (i : Z) (s : Store) :
  int32 i = true → i ∉ ul_key_id <$> usage_logs s →
  getKeyLogs (Num i) s = (inr [], s).
Proof.
  intros Hi Hnone. unfold getKeyLogs, bind.
  rewrite bind_integer_int32 by done. unfold select_logs.
  by rewrite (filter_key_absent ul_key_id).
Qed.

(** C5, as the specification words it, fails for an id beyond the range of
    the id column: the database refuses the number, and [deleteAccessKey]
    throws. *)
Lemma delete_refuses_wide_id :
  (2147483648 ∉ ak_id <$> access_keys store_promo)
  ∧ deleteAccessKey (Num 2147483648) store_promo
    = (inl (IntegerOutOfRange 2147483648), store_promo).
Proof.
  split; [|reflexivity]. by intros [Heq|Hin%elem_of_nil]%elem_of_cons.
Qed.

(** C5 (amended): for an id that is an integer of 32 bits,
    [deleteAccessKey] first deletes the log rows whose [keyId] is the given
    id, with the keys still in place, and then the key row; it returns
    success, and changes nothing when no key carries the id. Afterwards
    [getKeyLogs] for that id returns the empty list and [verifyAccessKey]
    on the code of the deleted key throws [InvalidKey]. *)
Theorem delete_cascades (now : Z) (s : Store) (i : Z) :
  wf_store s → int32 i = true →
  ∃ s1 s',
    delete_logs i s = (inr (), s1)
    ∧ access_keys s1 = access_keys s
    ∧ usage_logs s1 = filter (λ l, ul_key_id l ≠ i) (usage_logs s)
    ∧ delete_key i s1 = (inr (), s')
    ∧ deleteAccessKey (Num i) s = (inr true, s')
    ∧ access_keys s' = filter (λ k, ak_id k ≠ i) (access_keys s)
    ∧ usage_logs s' = filter (λ l, ul_key_id l ≠ i) (usage_logs s)
    ∧ (i ∉ ak_id <$> access_keys s → s' = s)
    ∧ getKeyLogs (Num i) s' = (inr [], s')
    ∧ (∀ K, K ∈ access_keys s → ak_id K = i →
         verifyAccessKey now (ak_key_code K) s' = (inl InvalidKey, s')).
Proof.
  intros Hwf Hint. eexists _, _.
  split; [reflexivity|]. split; [reflexivity|]. split; [reflexivity|].
  split; [apply (delete_key_after_logs i s)|].
  split; [by apply deleteAccessKey_run|].
  split; [reflexivity|]. split; [reflexivity|]. split; [|split].
  - intros Hi. destruct s as [keys logs kseq lseq]. simpl in *. f_equal.
    + by apply (filter_other_keys ak_id).
    + apply filter_all. intros l Hl <-.
      apply Hi, (wf_log_fk _ Hwf l Hl).
  - apply getKeyLogs_none; [done|]. simpl.
    by intros (l & Heq & [Hne _]%list_elem_of_filter)%list_elem_of_fmap.
  - intros K HK Hid. apply verify_unknown. simpl.
    intros k [Hne Hk]%list_elem_of_filter Hcode.
    destruct Hne. rewrite <- Hid. f_equal.
    by apply (key_unique ak_key_code k K (access_keys s));
      [apply wf_key_codes| | |].
Qed.

Lemma delete_cascades_witness :
  ∃ s',
    deleteAccessKey (Num 1) store_promo = (inr true, s')
    ∧ access_keys s' = []
    ∧ getKeyLogs (Num 1) s' = (inr [], s')
    ∧ verifyAccessKey 5 "sk-promo" s' = (inl InvalidKey, s').
Proof.
  destruct (delete_cascades 5 store_promo 1)
    as (s1 & s' & _ & _ & _ & _ & Hrun & Hkeys & _ & _ & Hlogs & Hverify).
  - apply wf_store_check_sound. reflexivity.
  - reflexivity.
  - exists s'. split; [exact Hrun|]. split; [exact Hkeys|].
    split; [exact Hlogs|].
    apply (Hverify key_promo); [apply list_elem_of_here|reflexivity].
Defined.

(** ** The usage counter (C6) *)

Lemma counted_refl (s : Store) : counted s s.
Proof. intros K HK. exists K. auto. Qed.

Lemma counted_same_keys (s s1 s2 : Store) :
  counted s s1 → same_keys s1 s2 → counted s s2.
Proof. intros Hc [Hkeys _] K' HK'. apply Hc. by rewrite <- Hkeys. Qed.

Lemma logUsage_same_keys now keyId ip requestText success errorMsg :
  respects same_keys (logUsage now keyId ip requestText success errorMsg).
Proof.
  apply (logUsage_respects same_keys). apply insert_log_same_keys.
Qed.

Lemma on_error_same_keys now keyId ip inputText error :
  respects same_keys (GenerateCard.on_error now keyId ip inputText error).
Proof.
  apply (on_error_respects same_keys). apply insert_log_same_keys.
Qed.

(** What [updateAccessKeyUsage] leaves behind: the store as it was, when it
    throws, and the store with the rows of the id incremented. *)
Lemma updateAccessKeyUsage_cases (keyId : JsNumber) (s : Store) :
  (∃ error, updateAccessKeyUsage keyId s = (inl error, s))
  ∨ (∃ i, keyId = Num i ∧ int32 i = true
          ∧ Forall (λ k, ak_id k = i → ak_used_count k < 2147483647)
              (access_keys s)
          ∧ updateAccessKeyUsage keyId s
            = (inr (), snd (update_key i increment s))).
Proof.
  unfold updateAccessKeyUsage, bind.
  destruct keyId as [|i|text]; simpl; [left; by eexists| |left; by eexists].
  destruct (int32 i) eqn:Hi; simpl; [|left; by eexists].
  unfold increment_key, bind, select_keys.
  destruct (forallb _ _) eqn:Hroom; simpl; [|left; by eexists].
  right. exists i. repeat split; try done.
  apply Forall_forall. intros k Hk Hid.
  rewrite forallb_forall in Hroom.
  assert ((ak_used_count k + 1 <=? 2147483647) = true) as Hle.
  { apply Hroom. apply list_elem_of_In, list_elem_of_filter. by split. }
  apply Z.leb_le in Hle. lia.
Qed.

Lemma updateAccessKeyUsage_counted (keyId : JsNumber) (s : Store) :
  counted s (snd (updateAccessKeyUsage keyId s)).
Proof.
  destruct (updateAccessKeyUsage_cases keyId s)
    as [[error ->]|(i & _ & _ & _ & ->)]; [apply counted_refl|].
  intros K' HK'. by apply (update_key_increment i).
Qed.

Lemma generate_counted now env rt ai keyId ip inputText (s : Store) :
  counted s
    (snd (try_catch
            (GenerateCard.generate now env rt ai keyId ip inputText)
            (GenerateCard.on_error now keyId ip inputText) s)).
Proof.
  unfold try_catch, GenerateCard.generate.
  destruct (GenerateCard.generation env rt ai) as [error|resultData].
  - eapply counted_same_keys; [apply counted_refl|].
    apply on_error_same_keys.
  - unfold bind.
    pose proof (updateAccessKeyUsage_counted (Num keyId) s) as Hs1.
    destruct (updateAccessKeyUsage (Num keyId) s) as [[error|[]] s1];
      simpl in Hs1.
    + eapply counted_same_keys; [exact Hs1|apply on_error_same_keys].
    + pose proof (logUsage_same_keys now (Num keyId) ip
                    (str_or inputText "") true None s1) as Hlog.
      destruct (logUsage _ _ _ _ _ _ s1) as [[error|[]] s2]; simpl in *.
      * eapply counted_same_keys; [|apply on_error_same_keys].
        by eapply counted_same_keys.
      * by eapply counted_same_keys.
Qed.

Lemma generate_card_counted now env rt ai req (s : Store) :
  counted s (snd (GenerateCard.handler now env rt ai req s)).
Proof.
  unfold GenerateCard.handler, GenerateCard.handle.
  repeat case_decide; try apply counted_refl.
  destruct (GenerateCard.authorization req) as [authHeader|];
    [|apply counted_refl].
  destruct (_ || _); [apply counted_refl|].
  unfold bind, attempt.
  set (v := match split " " authHeader !! 1%nat with
            | Some accessKey => verifyAccessKey now accessKey
            | None => throw InvalidKey
            end).
  assert (snd (v s) = s) as Hv.
  { subst v. destruct (_ !! _); [apply verify_read_only|done]. }
  destruct (v s) as [[error|keyData] s1]; simpl in Hv; subst s1.
  - eapply counted_same_keys; [apply counted_refl|].
    apply on_error_same_keys.
  - apply generate_counted.
Qed.

Lemma counted_after (c : Call) (s : Store) :
  accounts c = true → counted s (after c s).
Proof.
  destruct c; try discriminate; intros _; simpl.
  - apply updateAccessKeyUsage_counted.
  - apply generate_card_counted.
Qed.

(** C6: a created key starts with [usedCount = 0]; across any single call
    of the core a stored key keeps its [usedCount], unless the call is the
    accountant's increment (directly or through the generation handler),
    which raises it by exactly one; hence across any sequence of calls the
    [usedCount] of a key that is still stored never decreases. *)
Theorem used_count_monotone (s : Store) :
  wf_store s →
  (∀ c K', K' ∈ access_keys (after c s) →
           ak_id K' ∉ ak_id <$> access_keys s →
           ak_used_count K' = 0)
  ∧ (∀ c K K', K ∈ access_keys s → K' ∈ access_keys (after c s) →
               ak_id K' = ak_id K →
               ak_used_count K' = ak_used_count K
               ∨ (accounts c = true
                  ∧ ak_used_count K' = ak_used_count K + 1))
  ∧ (∀ cs K K', K ∈ access_keys s → K' ∈ access_keys (after_all cs s) →
                ak_id K' = ak_id K →
                ak_used_count K ≤ ak_used_count K').
Proof.
  intros Hwf. split; [|split].
  - intros c K' HK' Hnew. destruct (accounts c) eqn:Hc.
    + destruct (counted_after c s Hc K' HK') as (K & HK & Hid & _).
      destruct Hnew. rewrite Hid. by apply list_elem_of_fmap_2.
    + destruct (quiet_after c s Hc) as [_ Hq].
      destruct (Hq K' HK') as [(K & HK & Hid & _)|[_ Huc]]; [|done].
      destruct Hnew. rewrite Hid. by apply list_elem_of_fmap_2.
  - intros c K K' HK HK' Hid. destruct (accounts c) eqn:Hc.
    + destruct (counted_after c s Hc K' HK') as (K0 & HK0 & Hid0 & Huc).
      assert (K0 = K) as ->.
      { apply (key_unique ak_id K0 K (access_keys s));
          [by apply wf_key_ids|done|done|congruence]. }
      destruct Huc; auto.
    + destruct (quiet_after c s Hc) as [_ Hq].
      destruct (Hq K' HK') as [(K0 & HK0 & Hid0 & Huc)|[Hseq _]].
      * assert (K0 = K) as ->; [|by left].
        apply (key_unique ak_id K0 K (access_keys s));
          [by apply wf_key_ids|done|done|congruence].
      * pose proof (wf_key_seq s Hwf K HK). lia.
  - intros cs K K' HK HK' Hid.
    destruct (grows_after_all cs s) as [_ Hg].
    destruct (Hg K' HK') as [(K0 & HK0 & Hid0 & Huc)|[Hseq _]].
    + assert (K0 = K) as ->; [|done].
      apply (key_unique ak_id K0 K (access_keys s));
        [by apply wf_key_ids|done|done|congruence].
    + pose proof (wf_key_seq s Hwf K HK). lia.
Qed.

Lemma used_count_monotone_witness :
  let K' := increment (set_limits 9 None (increment key_promo)) in
  K' ∈ access_keys
         (after_all
            [ReqGenerate 5 env_sample rt_sample
               (GenerateCard.Responds (Some "{}")) request_promo;
             CallUpdate rt_sample (Num 1) (Num 9) None;
             ReqCreateKey 6 ("0.abcdef", "0.ghijkl") env_sample
               rt_sample (request_create "other" JUndefined);
             CallUpdateUsage (Num 1)]
            store_promo)
  ∧ ak_used_count key_promo ≤ ak_used_count K'.
Proof.
  intros K'.
  assert (wf_store store_promo) as Hwf
    by (apply wf_store_check_sound; reflexivity).
  assert (K' ∈ access_keys
                 (after_all
                    [ReqGenerate 5 env_sample rt_sample
                       (GenerateCard.Responds (Some "{}")) request_promo;
                     CallUpdate rt_sample (Num 1) (Num 9) None;
                     ReqCreateKey 6 ("0.abcdef", "0.ghijkl") env_sample
                       rt_sample (request_create "other" JUndefined);
                     CallUpdateUsage (Num 1)]
                    store_promo)) as HK'
    by (vm_compute; apply list_elem_of_here).
  split; [exact HK'|].
  pose proof (proj2 (proj2 (used_count_monotone store_promo Hwf))) as Hmono.
  eapply Hmono; [apply list_elem_of_here|exact HK'|reflexivity].
Defined.

(** * Further properties of the code *)

(** ** Listings: [getAllKeys], [getKeyLogs] *)

Section order_desc.
Context {A : Type} (at_ : A → Z).

Lemma insert_desc_perm (x : A) (l : list A) :
  insert_desc at_ x l ≡ₚ x :: l.
Proof.
  induction l as [|y l IH]; simpl; [done|].
  destruct (at_ y <? at_ x); [done|].
  rewrite IH. apply Permutation_swap.
Qed.

Lemma order_desc_perm (l : list A) : order_desc at_ l ≡ₚ l.
Proof.
  induction l as [|x l IH]; simpl; [done|].
  fold (order_desc at_ l). by rewrite insert_desc_perm, IH.
Qed.

Lemma insert_desc_sorted (x : A) (l : list A) :
  StronglySorted (newest_first at_) l →
  StronglySorted (newest_first at_) (insert_desc at_ x l).
Proof.
  induction 1 as [|y l Hl IH Hy]; simpl.
  - repeat constructor.
  - destruct (Z.ltb_spec (at_ y) (at_ x)) as [Hlt|Hge].
    + constructor; [by constructor|].
      constructor; [unfold newest_first; lia|].
      eapply Forall_impl; [exact Hy|].
      unfold newest_first. intros z Hz. lia.
    + constructor; [done|].
      rewrite insert_desc_perm. constructor; [done|exact Hy].
Qed.

Lemma order_desc_sorted (l : list A) :
  StronglySorted (newest_first at_) (order_desc at_ l).
Proof.
  induction l as [|x l IH]; simpl; [constructor|].
  by apply insert_desc_sorted.
Qed.
End order_desc.

(** X1: [getAllKeys] returns every stored key exactly once, newest first,
    and leaves the store as it was. *)
Theorem getAllKeys_lists_every_key (s : Store) :
  ∃ rows,
    getAllKeys s = (inr rows, s)
    ∧ rows ≡ₚ access_keys s
    ∧ StronglySorted (newest_first ak_created_at) rows.
Proof.
  eexists. split; [reflexivity|]. split.
  - rewrite order_desc_perm. by rewrite filter_all.
  - apply order_desc_sorted.
Qed.

(** X2: for an id that is an integer of 32 bits, [getKeyLogs] throws
    nothing and leaves the store as it was. The rows it returns are at most
    50, newest first, and are exactly the newest log rows of that key:
    together with the rows left out, none of which is newer than a returned
    one, they make up the log rows whose [key_id] is the id, and rows are
    left out only beyond the fiftieth. *)
Theorem getKeyLogs_newest_fifty (s : Store) (i : Z) :
  int32 i = true →
  ∃ rows older,
    getKeyLogs (Num i) s = (inr rows, s)
    ∧ (length rows ≤ 50)%nat
    ∧ StronglySorted (newest_first ul_created_at) rows
    ∧ rows ++ older ≡ₚ filter (λ l, ul_key_id l = i) (usage_logs s)
    ∧ (∀ r o, r ∈ rows → o ∈ older → ul_created_at o ≤ ul_created_at r)
    ∧ length older
      = (length (filter (λ l, ul_key_id l = i) (usage_logs s)) - 50)%nat.
Proof.
  intros Hi.
  set (logs := filter (λ l, ul_key_id l = i) (usage_logs s)).
  exists (take 50 (order_desc ul_created_at logs)),
         (drop 50 (order_desc ul_created_at logs)).
  pose proof (order_desc_sorted ul_created_at logs) as Hsorted.
  pose proof (order_desc_perm ul_created_at logs) as Hperm.
  split.
  { unfold getKeyLogs, bind. by rewrite bind_integer_int32. }
  split; [rewrite length_take; lia|].
  split; [|split; [|split]].
  - rewrite <- (take_drop 50) in Hsorted.
    by apply StronglySorted_app_1_l in Hsorted.
  - by rewrite take_drop.
  - intros r o Hr Ho. rewrite <- (take_drop 50) in Hsorted.
    apply (StronglySorted_app_1_elem_of _ _ _ r o Hsorted Hr Ho).
  - by rewrite length_drop, Hperm.
Qed.

Lemma getKeyLogs_newest_fifty_witness :
  ∃ rows,
    getKeyLogs (Num 1) store_promo = (inr rows, store_promo)
    ∧ (length rows ≤ 50)%nat
    ∧ StronglySorted (newest_first ul_created_at) rows.
Proof.
  destruct (getKeyLogs_newest_fifty store_promo 1 eq_refl)
    as (rows & older & Hrun & Hlen & Hsorted & _).
  by exists rows.
Defined.

(** ** What holds in every store the calls can reach *)

#[global] Instance stable_preorder : PreOrder stable.
Proof.
  split.
  - intros s. split; [lia|]. intros K HK. left. exists K.
    by repeat split.
  - intros s1 s2 s3 [Hseq12 H12] [Hseq23 H23]. split; [lia|].
    intros K3 HK3.
    destruct (H23 K3 HK3) as [(K2 & HK2 & Hsame23)|[Hnew Hact]].
    + destruct (H12 K2 HK2) as [(K1 & HK1 & Hsame12)|[Hnew Hact]].
      * left. exists K1. split; [done|].
        destruct Hsame12 as (? & ? & ? & ? & ?),
                 Hsame23 as (? & ? & ? & ? & ?).
        repeat split; congruence.
      * right. destruct Hsame23 as (Hid & _ & _ & Hactive & _).
        split; [lia|congruence].
    + right. split; [lia|done].
Qed.

#[global] Instance keeps_names_preorder : PreOrder keeps_names.
Proof. split; unfold keeps_names; [intros s|intros s1 s2 s3]; auto. Qed.

Lemma same_keys_stable (s s' : Store) : same_keys s s' → stable s s'.
Proof.
  intros [Hk Hseq]. split; [lia|]. intros K HK. left. exists K.
  rewrite <- Hk. by repeat split.
Qed.

Lemma same_keys_keeps_names (s s' : Store) :
  same_keys s s' → keeps_names s s'.
Proof. intros [Hk _] Hnd. by rewrite Hk. Qed.

Lemma insert_key_row_stable (now : Z) (key_code name : string)
    (max_uses : Z) (expires_at : option Z) :
  respects stable (insert_key_row now key_code name max_uses expires_at).
Proof.
  intros s. unfold insert_key_row, bind, nextval_access_keys.
  destruct (_ <=? _); simpl; [|reflexivity].
  repeat case_decide; simpl; (split; simpl; [lia|]); intros K' HK';
    try (left; exists K'; by repeat split).
  apply elem_of_app in HK' as [HK'| ->%list_elem_of_singleton].
  - left. exists K'. by repeat split.
  - right. simpl. split; [lia|done].
Qed.

Lemma update_key_stable (i : Z) (f : AccessKey → AccessKey) :
  (∀ k, same_identity k (f k)) → respects stable (update_key i f).
Proof.
  intros Hf s. split; simpl; [lia|].
  intros K' (K & -> & HK)%list_elem_of_fmap. left. exists K.
  split; [done|]. case_decide; [apply Hf|by repeat split].
Qed.

Lemma delete_key_stable (i : Z) : respects stable (delete_key i).
Proof.
  intros s. unfold delete_key. case_decide; simpl; [reflexivity|].
  split; simpl; [lia|]. intros K' [_ HK']%list_elem_of_filter.
  left. exists K'. by repeat split.
Qed.

Lemma stable_after (c : Call) (s : Store) : stable s (after c s).
Proof.
  assert (∀ now i t b e, respects stable (insert_log now i t b e))
    by (intros; eapply respects_weaken;
        [apply same_keys_stable|apply insert_log_same_keys]).
  assert (∀ i, respects stable (delete_logs i))
    by (intros; eapply respects_weaken;
        [apply same_keys_stable|apply delete_logs_same_keys]).
  assert (∀ i m e, respects stable (update_key i (set_limits m e)))
    by (intros; by apply update_key_stable).
  assert (∀ i, respects stable (update_key i increment))
    by (intros; by apply update_key_stable).
  pose proof insert_key_row_stable. pose proof delete_key_stable.
  destruct c; simpl; lift_call stable; auto; apply _.
Qed.

Lemma stable_after_all (cs : list Call) (s : Store) :
  stable s (after_all cs s).
Proof.
  revert s. induction cs as [|c cs IH]; intros s; [reflexivity|].
  simpl. etrans; [apply stable_after|apply IH].
Qed.

Lemma update_key_keeps_names (i : Z) (f : AccessKey → AccessKey) :
  (∀ k, ak_name (f k) = ak_name k) →
  respects keeps_names (update_key i f).
Proof.
  intros Hf s Hnd. simpl. by rewrite update_key_columns.
Qed.

Lemma delete_key_keeps_names (i : Z) : respects keeps_names (delete_key i).
Proof.
  intros s Hnd. unfold delete_key. case_decide; simpl; [done|].
  eapply sublist_NoDup; [exact Hnd|apply fmap_sublist, sublist_filter].
Qed.

(** Runs a step that leaves the store alone, and drops the case in which
    it throws. *)
Ltac pure_step m lemma :=
  let H := fresh in
  let r := fresh "r" in
  let s1 := fresh "s" in
  pose proof lemma as H; destruct m as [r s1]; simpl in H; subst s1;
  destruct r as [?|?]; [done|].

Lemma createAccessKey_keeps_names now rt rnd name maxUses daysValid :
  (characters name ≤ 100)%nat →
  respects keeps_names (createAccessKey now rt rnd name maxUses daysValid).
Proof.
  intros Hlen s Hnd. unfold createAccessKey, bind.
  destruct (nul_free name) eqn:Hnul;
    [|by rewrite bind_text_nul by done].
  rewrite bind_text_nul_free by done. unfold select_keys.
  destruct (filter _ (access_keys s)) as [|k l] eqn:Hcheck; [|done].
  simpl.
  pure_step (expiry_of rt now daysValid s) (expiry_of_pure rt now daysValid s).
  pure_step (bind_text (generateKey rnd) s)
    (bind_text_pure (generateKey rnd) s).
  rewrite bind_text_nul_free by done.
  pure_step (bind_integer (default_maxUses maxUses) s)
    (bind_integer_pure (default_maxUses maxUses) s).
  match goal with
  | |- context [bind_timestamp rt ?e s] =>
      pure_step (bind_timestamp rt e s) (bind_timestamp_pure rt e s)
  end.
  unfold insert_key, bind.
  match goal with
  | |- context [varchar 64 ?c s] =>
      pure_step (varchar 64 c s) (varchar_pure 64 c s)
  end.
  rewrite varchar_fits by done.
  unfold insert_key_row, bind, nextval_access_keys.
  destruct (_ <=? _); simpl; [|done].
  repeat case_decide; simpl; try done.
  rewrite fmap_app. apply NoDup_app. split; [done|]. split.
  - intros n (k & -> & Hk)%list_elem_of_fmap Heq%list_elem_of_singleton.
    by apply (filter_nil_not_elem_of _ _ k Hcheck).
  - apply NoDup_singleton.
Qed.

Lemma keeps_names_after (c : Call) (s : Store) :
  short_named c = true → keeps_names s (after c s).
Proof.
  assert (∀ now i t b e, respects keeps_names (insert_log now i t b e))
    by (intros; eapply respects_weaken;
        [apply same_keys_keeps_names|apply insert_log_same_keys]).
  assert (∀ i, respects keeps_names (delete_logs i))
    by (intros; eapply respects_weaken;
        [apply same_keys_keeps_names|apply delete_logs_same_keys]).
  assert (∀ i m e, respects keeps_names (update_key i (set_limits m e)))
    by (intros; by apply update_key_keeps_names).
  assert (∀ i, respects keeps_names (update_key i increment))
    by (intros; by apply update_key_keeps_names).
  pose proof delete_key_keeps_names.
  destruct c; simpl; intros Hshort.
  13: { revert s.
        change (respects keeps_names
                  (AdminCreateKey.handler now rnd env rt req)).
        unfold AdminCreateKey.handler. revert Hshort.
        destruct (AdminCreateKey.req_body req) as [fields|];
          [|intros _; respects_steps].
        destruct (AdminCreateKey.name fields) as [name|];
          [|intros _; respects_steps].
        intros Hshort%bool_decide_eq_true. respects_steps.
        by apply createAccessKey_keeps_names. }
  4: { apply createAccessKey_keeps_names.
       by apply bool_decide_eq_true in Hshort. }
  all: lift_call keeps_names; auto; try apply _.
Qed.

(** X3: every store reached from the empty database by calls of the core
    satisfies the schema's invariant: ids and key codes are unique, every
    id lies below its sequence, no sequence has gone past its end, and
    every log row refers to a stored key. *)
Theorem reachable_store_is_well_formed (cs : list Call) :
  wf_store (after_all cs initDatabase).
Proof. apply wf_after_all, wf_initDatabase. Qed.

(** X4: as long as no key is created under a name of more than 100
    characters, no two keys of a store reached from the empty database
    share a name: the existence check of [createAccessKey] is then the
    only way a name enters the table, and no call renames a key. *)
Theorem reachable_names_are_unique (cs : list Call) :
  forallb short_named cs = true →
  NoDup (ak_name <$> access_keys (after_all cs initDatabase)).
Proof.
  assert (∀ s, forallb short_named cs = true →
               keeps_names s (after_all cs s)) as Hall.
  { induction cs as [|c cs IH]; intros s Hcs; [reflexivity|].
    simpl in Hcs. apply andb_true_iff in Hcs as [Hc Hcs].
    simpl. etrans; [by apply keeps_names_after|by apply IH]. }
  intros Hcs. apply Hall; [done|]. simpl. apply NoDup_nil_2.
Qed.

Lemma reachable_names_are_unique_witness :
  NoDup
    (ak_name <$>
     access_keys
       (after_all
          [CallCreate 0 rt_sample ("0.abcdef", "0.ghijkl") "dup" None None;
           ReqCreateKey 9 ("0.mnopqr", "0.stuvwx") env_sample rt_sample
             (request_create "dup" JUndefined);
           ReqCreateKey 9 ("0.mnopqr", "0.stuvwx") env_sample rt_sample
             (request_create "other" JUndefined)]
          initDatabase)).
Proof.
  apply (reachable_names_are_unique
           [CallCreate 0 rt_sample ("0.abcdef", "0.ghijkl") "dup" None None;
            ReqCreateKey 9 ("0.mnopqr", "0.stuvwx") env_sample rt_sample
              (request_create "dup" JUndefined);
            ReqCreateKey 9 ("0.mnopqr", "0.stuvwx") env_sample rt_sample
              (request_create "other" JUndefined)]).
  reflexivity.
Defined.

(** X5: every key of a store reached from the empty database is active
    and has a non-negative [used_count]; so there [verifyAccessKey] throws
    [InvalidKey] exactly for the codes that no stored key carries. *)
Theorem reachable_keys_are_active (cs : list Call) (now : Z)
    (code : string) :
  let s := after_all cs initDatabase in
  (∀ K, K ∈ access_keys s → ak_is_active K = true ∧ 0 ≤ ak_used_count K)
  ∧ (verifyAccessKey now code s = (inl InvalidKey, s)
     ↔ code ∉ ak_key_code <$> access_keys s).
Proof.
  intros s.
  assert (∀ K, K ∈ access_keys s →
               ak_is_active K = true ∧ 0 ≤ ak_used_count K) as Hkeys.
  { intros K HK. split.
    - destruct (stable_after_all cs initDatabase) as [_ Hst].
      destruct (Hst K HK) as [(K0 & []%elem_of_nil & _)|[_ Hact]]; done.
    - destruct (grows_after_all cs initDatabase) as [_ Hg].
      destruct (Hg K HK) as [(K0 & []%elem_of_nil & _)|[_ Huc]]; done. }
  split; [exact Hkeys|]. split.
  - intros Hverify (K & -> & HK)%list_elem_of_fmap.
    rewrite (verify_known now s K) in Hverify;
      [|apply wf_key_codes, wf_after_all, wf_initDatabase|done].
    destruct (Hkeys K HK) as [Hact _]. rewrite Hact in Hverify.
    destruct (expired now K); [done|]. by destruct (exhausted K).
  - intros Hcode. apply verify_unknown. intros k Hk <-.
    destruct Hcode. by apply list_elem_of_fmap_2.
Qed.

Lemma wf_key_by_id (s : Store) (K K' : AccessKey) :
  wf_store s → K ∈ access_keys s → K' ∈ access_keys s →
  ak_id K' = ak_id K → K' = K.
Proof.
  intros Hwf HK HK' Hid.
  by apply (key_unique ak_id K' K (access_keys s)); [apply wf_key_ids| | |].
Qed.

(** X6: once [deleteAccessKey] has removed a stored key, no later sequence
    of calls brings its id back: ids come from the sequence and are never
    handed out twice. The log listing of that id therefore stays empty. *)
Theorem deleted_id_is_never_reused (s : Store) (i : Z) (cs : list Call) :
  wf_store s → i ∈ ak_id <$> access_keys s →
  let s' := after_all cs (after (CallDelete (Num i)) s) in
  (i ∉ ak_id <$> access_keys s')
  ∧ getKeyLogs (Num i) s' = (inr [], s').
Proof.
  intros Hwf Hi s'.
  assert (int32 i = true) as Hint.
  { apply list_elem_of_fmap in Hi as (K & -> & HK). by eapply wf_key_int32. }
  set (s1 := after (CallDelete (Num i)) s) in *.
  assert (wf_store s1) as Hwf1 by (by apply wf_after).
  assert (i ∉ ak_id <$> access_keys s') as Hgone.
  { intros (K' & -> & HK')%list_elem_of_fmap.
    destruct (grows_after_all cs s1) as [_ Hg].
    destruct (Hg K' HK') as [(K1 & HK1 & Hid & _)|[Hseq _]].
    - subst s1. simpl in HK1. rewrite deleteAccessKey_run in HK1 by done.
      simpl in HK1.
      apply list_elem_of_filter in HK1 as [Hne _]. congruence.
    - apply list_elem_of_fmap in Hi as (K & HidK & HK).
      pose proof (wf_key_seq s Hwf K HK) as Hlt.
      destruct (grows_after (CallDelete (Num (ak_id K'))) s) as [Hmono _].
      fold s1 in Hmono. lia. }
  split; [exact Hgone|].
  apply getKeyLogs_none; [done|].
  intros (l & Heq & Hl)%list_elem_of_fmap. apply Hgone. rewrite Heq.
  apply (wf_log_fk s'); [|done]. subst s'. by apply wf_after_all.
Qed.

Lemma deleted_id_is_never_reused_witness :
  let s' := after_all
              [ReqCreateKey 6 ("0.abcdef", "0.ghijkl") env_sample rt_sample
                 (request_create "promo" JUndefined)]
              (after (CallDelete (Num 1)) store_promo) in
  (1 ∉ ak_id <$> access_keys s')
  ∧ getKeyLogs (Num 1) s' = (inr [], s').
Proof.
  apply (deleted_id_is_never_reused store_promo 1).
  - apply wf_store_check_sound. reflexivity.
  - apply list_elem_of_here.
Defined.

(** X7: over any sequence of calls a key that is still stored keeps its
    [id], [key_code], [name], [is_active] and [created_at]: the code is
    never reissued, the name never changed, and no call deactivates a
    key. *)
Theorem key_identity_is_immutable (s : Store) (cs : list Call)
    (K K' : AccessKey) :
  wf_store s → K ∈ access_keys s → K' ∈ access_keys (after_all cs s) →
  ak_id K' = ak_id K →
  ak_key_code K' = ak_key_code K ∧ ak_name K' = ak_name K
  ∧ ak_is_active K' = ak_is_active K
  ∧ ak_created_at K' = ak_created_at K.
Proof.
  intros Hwf HK HK' Hid.
  destruct (stable_after_all cs s) as [_ Hst].
  destruct (Hst K' HK') as [(K0 & HK0 & Hid0 & Hsame)|[Hseq _]].
  - assert (K0 = K) as -> by (apply (wf_key_by_id s); [done..|congruence]).
    exact Hsame.
  - pose proof (wf_key_seq s Hwf K HK). lia.
Qed.

Lemma key_identity_is_immutable_witness :
  let K' := increment (set_limits 9 None key_promo) in
  ak_key_code K' = "sk-promo" ∧ ak_name K' = "promo"
  ∧ ak_is_active K' = true ∧ ak_created_at K' = 0.
Proof.
  intros K'.
  apply (key_identity_is_immutable store_promo
           [CallUpdate rt_sample (Num 1) (Num 9) None;
            CallUpdateUsage (Num 1)]
           key_promo K').
  - apply wf_store_check_sound. reflexivity.
  - apply list_elem_of_here.
  - vm_compute. apply list_elem_of_here.
  - reflexivity.
Defined.

(** ** The generation handler as a whole *)

Lemma prefix_app (p s : string) :
  String.prefix p s = true → ∃ rest, s = p +:+ rest.
Proof.
  revert s. induction p as [|a p IH]; intros s Hp; [by exists s|].
  destruct s as [|b s]; [discriminate Hp|]. simpl in Hp.
  destruct (ascii_dec a b) as [->|]; [|discriminate Hp].
  destruct (IH s Hp) as [rest ->]. by exists rest.
Qed.

Lemma split_cons (c : ascii) (s : string) :
  ∃ w ws, split c s = w :: ws.
Proof.
  destruct s as [|a s]; simpl; [by eexists _, _|].
  destruct (Ascii.eqb a c); [by eexists _, _|].
  destruct (split c s); by eexists _, _.
Qed.

Lemma split_bearer (rest : string) :
  split " " ("Bearer " +:+ rest) = "Bearer" :: split " " rest.
Proof. done. Qed.

(** How the handler falls into its cases on a request that has a body. *)
Lemma generate_card_cases (now : Z) (env : Env) (rt : Runtime)
    (ai : GenerateCard.Generation) (req : GenerateCard.Request) (s : Store) :
  let ip := str_or (GenerateCard.x_forwarded_for req)
              (str_or (GenerateCard.remoteAddress req) "unknown") in
  (GenerateCard.handler now env rt ai req s
   = (inr {| status := 200; body := NoBody |}, s)
   ∧ GenerateCard.method req = OPTIONS)
  ∨ (GenerateCard.handler now env rt ai req s
     = (inr {| status := 405;
               body := ErrorBody (Some "Method not allowed") |}, s)
     ∧ GenerateCard.method req ≠ OPTIONS ∧ GenerateCard.method req ≠ POST)
  ∨ (GenerateCard.handler now env rt ai req s
     = (inr {| status := 401;
               body := ErrorBody
                         (Some "Missing or invalid Authorization header") |},
        s)
     ∧ GenerateCard.method req = POST
     ∧ ∀ authHeader, GenerateCard.authorization req = Some authHeader →
                     String.prefix "Bearer " authHeader = false)
  ∨ (∃ authHeader accessKey,
       GenerateCard.method req = POST
       ∧ GenerateCard.authorization req = Some authHeader
       ∧ String.prefix "Bearer " authHeader = true
       ∧ split " " authHeader !! 1%nat = Some accessKey
       ∧ GenerateCard.handler now env rt ai req s =
         match verifyAccessKey now accessKey s with
         | (inl error, s1) =>
             GenerateCard.on_error now 0 ip (GenerateCard.inputText req)
               error s1
         | (inr keyData, s1) =>
             try_catch
               (GenerateCard.generate now env rt ai (ak_id keyData) ip
                  (GenerateCard.inputText req))
               (GenerateCard.on_error now (ak_id keyData) ip
                  (GenerateCard.inputText req)) s1
         end).
Proof.
  intros ip. unfold GenerateCard.handler, GenerateCard.handle.
  destruct (decide (GenerateCard.method req = OPTIONS)) as [Hopt|Hopt];
    [by left|].
  destruct (decide (GenerateCard.method req ≠ POST)) as [Hpost|Hpost];
    [right; by left|].
  apply dec_stable in Hpost.
  destruct (GenerateCard.authorization req) as [authHeader|] eqn:Hauth;
    [|right; right; left; by repeat split].
  destruct (String.prefix "Bearer " authHeader) eqn:Hprefix.
  - assert (String.eqb authHeader "" = false) as ->
      by (destruct authHeader; [discriminate Hprefix|done]).
    simpl. right. right. right.
    assert (∃ accessKey, split " " authHeader !! 1%nat = Some accessKey)
      as [accessKey Hsplit].
    { apply prefix_app in Hprefix as [rest ->].
      rewrite split_bearer. destruct (split_cons " " rest) as (w & ws & ->).
      by exists w. }
    exists authHeader, accessKey. rewrite Hsplit.
    repeat split; try done.
    unfold bind, attempt.
    by destruct (verifyAccessKey now accessKey s) as [[e|k] s1].
  - rewrite orb_true_r. right. right. left.
    repeat split; try done. by intros ? [= <-].
Qed.

(** What a [logUsage] that returns has done. *)
Lemma logUsage_returns (now : Z) (keyId : JsNumber) (ip requestText : string)
    (success : bool) (errorMsg : option string) (s s' : Store) :
  logUsage now keyId ip requestText success errorMsg s = (inr (), s') →
  ∃ row,
    access_keys s' = access_keys s
    ∧ usage_logs s' = usage_logs s ++ [row]
    ∧ ul_success row = success
    ∧ keyId = Num (ul_key_id row).
Proof.
  unfold logUsage, bind.
  destruct keyId as [|i|text]; simpl; [done| |done].
  destruct (int32 i); simpl; [|done].
  pure_step (bind_text ("[IP: " +:+ ip +:+ "] " +:+ requestText) s)
    (bind_text_pure ("[IP: " +:+ ip +:+ "] " +:+ requestText) s).
  pure_step (bind_text (str_or errorMsg "") s)
    (bind_text_pure (str_or errorMsg "") s).
  unfold insert_log, bind, nextval_usage_logs.
  destruct (_ <=? _); simpl; [|done].
  repeat case_decide; simpl; try done.
  intros [= <-]. by eexists.
Qed.

(** A [logUsage] for a stored key fails only on what a second [logUsage]
    with the same text fails on as well. *)
Lemma logUsage_fails_again (now now' : Z) (i : Z) (ip requestText : string)
    (success success' : bool) (errorMsg' : option string) (error : Error)
    (s s' : Store) :
  wf_store s → i ∈ ak_id <$> access_keys s →
  logUsage now (Num i) ip requestText success None s = (inl error, s') →
  s' = s
  ∧ ∃ error',
      logUsage now' (Num i) ip requestText success' errorMsg' s
      = (inl error', s).
Proof.
  intros Hwf Hi. unfold logUsage, bind.
  assert (int32 i = true) as Hint.
  { apply list_elem_of_fmap in Hi as (K & -> & HK). by eapply wf_key_int32. }
  rewrite !bind_integer_int32 by done.
  destruct (nul_free ("[IP: " +:+ ip +:+ "] " +:+ requestText)) eqn:Hnul.
  - rewrite !bind_text_nul_free by done.
    unfold insert_log, bind, nextval_usage_logs.
    destruct (Z.leb_spec (usage_logs_id_seq s) 2147483647) as [Hseq|Hseq];
      simpl.
    + rewrite decide_False by (by apply wf_fresh_log_id).
      by rewrite decide_True.
    + intros [= _ Hs]. subst s'. split; [done|].
      pose proof (bind_text_pure (str_or errorMsg' "") s) as Hpure.
      destruct (bind_text (str_or errorMsg' "") s) as [[e|a] s1];
        simpl in Hpure; subst s1; [by eexists|].
      rewrite (proj2 (Z.leb_gt _ _)) by lia. by eexists.
  - rewrite !bind_text_nul by done. intros [= _ Hs]. subst s'.
    split; [done|]. by eexists.
Qed.

(** What the [catch] block has done when it answers. *)
Lemma on_error_returns now keyId ip inputText error s response s' :
  GenerateCard.on_error now keyId ip inputText error s = (inr response, s') →
  response
  = {| status := 500;
       body := ErrorBody
                 (Some (str_or (message error) "Internal Server Error")) |}
  ∧ access_keys s' = access_keys s
  ∧ (usage_logs s' = usage_logs s
     ∨ ∃ row, usage_logs s' = usage_logs s ++ [row]
              ∧ ul_success row = false ∧ ul_key_id row = keyId).
Proof.
  unfold GenerateCard.on_error, bind. destruct (0 <? keyId).
  - destruct (logUsage _ _ _ _ _ _ s) as [[e|[]] s1] eqn:Hlog; [done|].
    intros [= <- <-].
    apply logUsage_returns in Hlog as (row & Hkeys & Hlogs & Hrow & Hid).
    split; [done|]. split; [done|]. right. exists row.
    split; [done|]. split; [done|]. by injection Hid.
  - intros [= <- <-]. split; [done|]. split; [done|]. by left.
Qed.

Lemma on_error_status now keyId ip inputText error s response s' :
  GenerateCard.on_error now keyId ip inputText error s = (inr response, s') →
  status response = 500.
Proof. by intros (-> & _)%on_error_returns. Qed.

Lemma generate_status now env rt ai keyId ip inputText s response s' :
  try_catch (GenerateCard.generate now env rt ai keyId ip inputText)
    (GenerateCard.on_error now keyId ip inputText) s = (inr response, s') →
  status response = 200 ∨ status response = 500.
Proof.
  unfold try_catch.
  destruct (GenerateCard.generate _ _ _ _ _ _ _ s) as [[e|r] s1] eqn:Hgen.
  - intros ?%on_error_status. by right.
  - intros [= <- _]. left. revert Hgen. unfold GenerateCard.generate.
    destruct (GenerateCard.generation env rt ai); [done|]. unfold bind.
    destruct (updateAccessKeyUsage _ s) as [[?|[]] ?]; [done|].
    destruct (logUsage _ _ _ _ _ _ _) as [[?|[]] ?]; [done|].
    by intros [= <- _].
Qed.

(** What the [try] block and its [catch] have done, once a key is
    admitted, when the handler answers. *)
Lemma generate_answers (now : Z) (env : Env) (rt : Runtime)
    (ai : GenerateCard.Generation) (K : AccessKey) (ip : string)
    (inputText : option string) (s s' : Store) (response : Response) :
  wf_store s → K ∈ access_keys s →
  try_catch (GenerateCard.generate now env rt ai (ak_id K) ip inputText)
    (GenerateCard.on_error now (ak_id K) ip inputText) s
  = (inr response, s') →
  (status response = 200
   ∧ access_keys s'
     = (λ k, if decide (k = K) then increment K else k) <$> access_keys s
   ∧ ∃ row, usage_logs s' = usage_logs s ++ [row]
            ∧ ul_success row = true ∧ ul_key_id row = ak_id K)
  ∨ (status response = 500
     ∧ access_keys s' = access_keys s
     ∧ ∃ row, usage_logs s' = usage_logs s ++ [row]
              ∧ ul_success row = false ∧ ul_key_id row = ak_id K).
Proof.
  intros Hwf HK.
  assert (0 < ak_id K) as Hpos by (pose proof (wf_key_seq s Hwf K HK); lia).
  assert (∀ error s0 s1 response,
            GenerateCard.on_error now (ak_id K) ip inputText error s0
            = (inr response, s1) →
            status response = 500 ∧ access_keys s1 = access_keys s0
            ∧ ∃ row, usage_logs s1 = usage_logs s0 ++ [row]
                     ∧ ul_success row = false ∧ ul_key_id row = ak_id K)
    as Hcatch.
  { intros error s0 s1 r. unfold GenerateCard.on_error, bind.
    rewrite (proj2 (Z.ltb_lt 0 (ak_id K))) by done.
    destruct (logUsage _ _ _ _ _ _ s0) as [[e|[]] s2] eqn:Hlog; [done|].
    intros [= <- <-].
    apply logUsage_returns in Hlog as (row & Hkeys & Hlogs & Hrow & Hid).
    split; [done|]. split; [done|]. exists row.
    split; [done|]. split; [done|]. by injection Hid. }
  unfold try_catch, GenerateCard.generate.
  destruct (GenerateCard.generation env rt ai) as [error|resultData].
  { intros Hrun. right. by apply Hcatch in Hrun. }
  unfold bind.
  destruct (updateAccessKeyUsage_cases (Num (ak_id K)) s)
    as [[error ->]|(i & [= <-] & _ & _ & ->)].
  { intros Hrun. right. by apply Hcatch in Hrun. }
  set (s1 := snd (update_key (ak_id K) increment s)).
  assert (wf_store s1) as Hwf1.
  { apply (update_key_wf (ak_id K) increment); done. }
  assert (access_keys s1
          = (λ k, if decide (k = K) then increment K else k)
              <$> access_keys s) as Hkeys1.
  { subst s1. simpl. by apply increment_only. }
  assert (usage_logs s1 = usage_logs s) as Hlogs1 by done.
  assert (ak_id K ∈ ak_id <$> access_keys s1) as Hin1.
  { subst s1. simpl. rewrite update_key_columns by done.
    by apply list_elem_of_fmap_2. }
  destruct (logUsage now (Num (ak_id K)) ip (str_or inputText "") true None
              s1) as [[error|[]] s2] eqn:Hlog.
  - apply (logUsage_fails_again now now _ _ _ true false (message error))
      in Hlog as [-> [error' Hagain]]; [|done|done].
    unfold GenerateCard.on_error, bind.
    rewrite (proj2 (Z.ltb_lt 0 (ak_id K))) by done.
    by rewrite Hagain.
  - intros [= <- <-]. left.
    apply logUsage_returns in Hlog as (row & Hkeys & Hlogs & Hrow & Hid).
    split; [done|]. split; [congruence|]. exists row.
    split; [congruence|]. split; [done|]. by injection Hid.
Qed.

(** X8: on a store that satisfies the schema's invariant, whenever the
    generation handler answers a request that has a body, it answers 200,
    401, 405 or 500 (its 403 is never sent). An [OPTIONS] request is
    answered 200 with an empty body and changes nothing. For any other
    request quota is consumed exactly when the answer is 200: then one key,
    admissible at that time, has its [used_count] raised by one and one log
    row with [success = true] is appended; with any other answer every key
    is as before and at most one log row, with [success = false], is
    appended. The handler does answer when the database accepts what is
    logged: when neither the logged text nor the message of a failed
    generation holds a NUL character and the id sequence of the log has
    not come to its end. A [POST] with a bearer token and without a body
    is not answered: the handler throws and leaves the store as it was. *)
Theorem generate_card_accounting (now : Z) (env : Env) (rt : Runtime)
    (ai : GenerateCard.Generation) (req : GenerateCard.Request) (s : Store) :
  wf_store s →
  (∀ response s',
     GenerateCard.handler now env rt ai req s = (inr response, s') →
     (status response = 200 ∨ status response = 401
      ∨ status response = 405 ∨ status response = 500)
     ∧ (GenerateCard.method req = OPTIONS →
        response = {| status := 200; body := NoBody |} ∧ s' = s)
     ∧ (GenerateCard.method req ≠ OPTIONS → status response = 200 →
        ∃ K row,
          K ∈ access_keys s ∧ admissible now K
          ∧ access_keys s'
            = (λ k, if decide (k = K) then increment K else k)
                <$> access_keys s
          ∧ usage_logs s' = usage_logs s ++ [row]
          ∧ ul_success row = true ∧ ul_key_id row = ak_id K)
     ∧ (status response ≠ 200 →
        access_keys s' = access_keys s
        ∧ (usage_logs s' = usage_logs s
           ∨ ∃ row, usage_logs s' = usage_logs s ++ [row]
                    ∧ ul_success row = false)))
  ∧ (nul_free (str_or (GenerateCard.x_forwarded_for req)
                 (str_or (GenerateCard.remoteAddress req) "unknown")) = true →
     nul_free (str_or (GenerateCard.inputText req) "") = true →
     (∀ error, GenerateCard.generation env rt ai = inl error →
               nul_free (str_or (message error) "") = true) →
     usage_logs_id_seq s ≤ 2147483647 →
     ∃ response s',
       GenerateCard.handler now env rt ai req s = (inr response, s'))
  ∧ (∀ authHeader,
       GenerateCard.method req = POST →
       GenerateCard.authorization req = Some authHeader →
       String.prefix "Bearer " authHeader = true →
       GenerateCard.handle now env rt ai false req s
       = (inl (BodyMissing "inputText"), s)).
Proof.
  intros Hwf. split; [|split].
  - intros response s'.
    destruct (generate_card_cases now env rt ai req s)
      as [[-> Hopt]|[[-> [Hopt _]]|[[-> [Hpost _]]|
          (authHeader & accessKey & Hpost & _ & _ & _ & ->)]]].
    + intros [= <- <-]. simpl.
      split; [auto|]. split; [done|]. split; [done|auto].
    + intros [= <- <-]. simpl.
      split; [auto|]. split; [done|]. split; [done|auto].
    + intros [= <- <-]. simpl.
      split; [auto|]. split; [by rewrite Hpost|]. split; [done|auto].
    + destruct (verifyAccessKey now accessKey s) as [[error|K] s1] eqn:Hv.
      * pose proof (verify_read_only now accessKey s) as Hs.
        rewrite Hv in Hs. simpl in Hs. subst s1.
        rewrite on_error_unverified. intros [= <- <-]. simpl.
        split; [auto|]. split; [by rewrite Hpost|]. split; [done|auto].
      * apply verify_returns_row in Hv
          as (-> & HK & _ & Hact & Hexp & Hquota).
        intros [(Hst & Hkeys & row & Hlogs & Hrow & Hid)
               |(Hst & Hkeys & row & Hlogs & Hrow & Hid)]%generate_answers;
          [| |done|done].
        -- split; [auto|]. split; [by rewrite Hpost|]. split; [|done].
           intros _ _. exists K, row. split; [done|].
           split; [|done].
           split; [done|]. split.
           ++ by apply expired_false_iff.
           ++ by apply exhausted_false_iff.
        -- split; [auto|]. split; [by rewrite Hpost|].
           split; [intros _ ?; lia|].
           intros _. split; [done|]. right. by exists row.
  - intros Hip Htext Hmsg Hseq.
    destruct (generate_card_cases now env rt ai req s)
      as [[-> _]|[[-> _]|[[-> _]|
          (authHeader & accessKey & _ & _ & _ & _ & ->)]]];
      try by eexists _, _.
    destruct (verifyAccessKey now accessKey s) as [[error|K] s1] eqn:Hv.
    + rewrite on_error_unverified. by eexists _, _.
    + apply verify_returns_row in Hv as (-> & HK & _).
      destruct (GenerateCard.generation env rt ai) as [error|resultData]
        eqn:Hgen.
      * unfold try_catch, GenerateCard.generate. rewrite Hgen. unfold throw.
        rewrite on_error_verified by auto. by eexists _, _.
      * destruct (Z.lt_ge_cases (ak_used_count K) 2147483647) as [Huc|Huc].
        -- erewrite generate_run by done. by eexists _, _.
        -- unfold try_catch, GenerateCard.generate. rewrite Hgen.
           unfold bind. rewrite updateAccessKeyUsage_overflow by done.
           rewrite on_error_verified by done. by eexists _, _.
  - intros authHeader Hpost Hauth Hprefix. unfold GenerateCard.handle.
    rewrite Hpost, Hauth, Hprefix.
    rewrite decide_False by done. rewrite decide_False by (by intros []).
    by destruct authHeader.
Qed.

Lemma generate_card_accounting_witness :
  ∃ response s',
    GenerateCard.handler 5 env_sample rt_sample
      (GenerateCard.Responds (Some "{}")) request_promo store_promo
    = (inr response, s')
    ∧ (status response = 200 ∨ status response = 401
       ∨ status response = 405 ∨ status response = 500).
Proof.
  assert (wf_store store_promo) as Hwf
    by (apply wf_store_check_sound; reflexivity).
  destruct (generate_card_accounting 5 env_sample rt_sample
              (GenerateCard.Responds (Some "{}")) request_promo store_promo
              Hwf)
    as (Hanswer & Hanswers & _).
  destruct Hanswers as (response & s' & Hrun);
    [reflexivity|reflexivity|discriminate|simpl; lia|].
  exists response, s'. split; [exact Hrun|].
  apply (Hanswer response s' Hrun).
Defined.

(** X9: whenever the generation handler answers, it answers 405 exactly
    when the method is neither [OPTIONS] nor [POST], and 401 exactly when a
    [POST] carries no [Authorization] header that starts with the word
    Bearer and a space; in both cases the store is left untouched. *)
Theorem generate_card_gate (now : Z) (env : Env) (rt : Runtime)
    (ai : GenerateCard.Generation) (req : GenerateCard.Request)
    (s s' : Store) (response : Response) :
  GenerateCard.handler now env rt ai req s = (inr response, s') →
  (status response = 405 ↔
   GenerateCard.method req ≠ OPTIONS ∧ GenerateCard.method req ≠ POST)
  ∧ (status response = 401 ↔
     GenerateCard.method req = POST
     ∧ ∀ authHeader, GenerateCard.authorization req = Some authHeader →
                     String.prefix "Bearer " authHeader = false)
  ∧ (status response = 401 ∨ status response = 405 → s' = s).
Proof.
  destruct (generate_card_cases now env rt ai req s)
    as [[-> Hopt]|[[-> [Hopt Hpost]]|[[-> [Hpost Hauth]]|
        (authHeader & accessKey & Hpost & Hauth & Hprefix & _ & ->)]]].
  - intros [= <- <-]. simpl. rewrite Hopt.
    split; [split; [done|by intros [? _]]|].
    split; [split; [done|by intros [? _]]|]. by intros [|].
  - intros [= <- <-]. simpl.
    split; [done|]. split; [split; [done|by intros [? _]]|done].
  - intros [= <- <-]. simpl.
    split; [split; [done|]|by split]. rewrite Hpost. by intros [_ ?].
  - intros Hrun.
    assert (status response = 200 ∨ status response = 500) as Hstatus.
    { destruct (verifyAccessKey now accessKey s) as [[error|K] s1].
      - apply on_error_status in Hrun. by right.
      - by apply generate_status in Hrun. }
    split; [|split].
    + split; [intros ?; lia|]. by intros [_ ?].
    + split; [intros ?; lia|]. intros [_ Hno].
      specialize (Hno authHeader Hauth). congruence.
    + intros [|]; lia.
Qed.

Lemma generate_card_gate_witness :
  status {| status := 401;
            body := ErrorBody
                      (Some "Missing or invalid Authorization header") |}
  = 401
  ↔ POST = POST
    ∧ ∀ authHeader, Some "Basic sk-promo" = Some authHeader →
                    String.prefix "Bearer " authHeader = false.
Proof.
  apply (generate_card_gate 5 env_sample rt_sample
           (GenerateCard.Responds (Some "{}"))
           {| GenerateCard.method := POST;
              GenerateCard.authorization := Some "Basic sk-promo";
              GenerateCard.inputText := None;
              GenerateCard.x_forwarded_for := None;
              GenerateCard.remoteAddress := None |}
           store_promo store_promo).
  reflexivity.
Defined.

Lemma prefix_bearer (rest : string) :
  String.prefix "Bearer " ("Bearer " +:+ rest) = true.
Proof. simpl. by destruct rest. Qed.

Lemma split_spaceless (code : string) :
  spaceless code = true → split " " code = [code].
Proof.
  induction code as [|a code IH]; simpl; [done|].
  intros [Ha Hcode]%andb_true_iff. apply negb_true_iff in Ha.
  rewrite Ha, IH by done. done.
Qed.

Lemma split_token (code rest : string) :
  spaceless code = true →
  split " " (code +:+ " " +:+ rest) = code :: split " " rest.
Proof.
  induction code as [|a code IH]; simpl; [done|].
  intros [Ha Hcode]%andb_true_iff. apply negb_true_iff in Ha.
  rewrite Ha. change (code +:+ String " " rest)%string
    with (code +:+ " " +:+ rest). by rewrite IH.
Qed.

(** X10: the handler takes as access key the text between the first and
    the second space of the [Authorization] header: whatever follows a key
    that holds no space is ignored, so the request is treated exactly as
    if the header ended with the key. *)
Theorem bearer_token_ends_at_space (now : Z) (env : Env) (rt : Runtime)
    (ai : GenerateCard.Generation) (req req' : GenerateCard.Request)
    (code rest : string) (s : Store) :
  spaceless code = true →
  GenerateCard.authorization req = Some ("Bearer " +:+ code) →
  GenerateCard.authorization req'
    = Some ("Bearer " +:+ code +:+ " " +:+ rest) →
  GenerateCard.method req' = GenerateCard.method req →
  GenerateCard.inputText req' = GenerateCard.inputText req →
  GenerateCard.x_forwarded_for req' = GenerateCard.x_forwarded_for req →
  GenerateCard.remoteAddress req' = GenerateCard.remoteAddress req →
  split " " ("Bearer " +:+ code) !! 1%nat = Some code
  ∧ split " " ("Bearer " +:+ code +:+ " " +:+ rest) !! 1%nat = Some code
  ∧ GenerateCard.handler now env rt ai req' s
    = GenerateCard.handler now env rt ai req s.
Proof.
  intros Hcode Hauth Hauth' Hm Hin Hx Hr.
  assert (split " " ("Bearer " +:+ code) !! 1%nat = Some code) as H1
    by (by rewrite split_bearer, split_spaceless).
  assert (split " " ("Bearer " +:+ code +:+ " " +:+ rest) !! 1%nat
          = Some code) as H2
    by (by rewrite split_bearer, split_token).
  split; [done|]. split; [done|].
  unfold GenerateCard.handler, GenerateCard.handle.
  rewrite Hm, Hin, Hx, Hr, Hauth, Hauth'.
  repeat case_decide; try done.
  change (String.eqb ("Bearer " +:+ code +:+ " " +:+ rest) "") with false.
  change (String.eqb ("Bearer " +:+ code) "") with false.
  rewrite !prefix_bearer. cbv [orb negb]. by rewrite H1, H2.
Qed.

Lemma bearer_token_ends_at_space_witness :
  GenerateCard.handler 5 env_sample rt_sample
    (GenerateCard.Responds (Some "{}"))
    {| GenerateCard.method := POST;
       GenerateCard.authorization := Some "Bearer sk-promo or anything";
       GenerateCard.inputText := Some "hello";
       GenerateCard.x_forwarded_for := None;
       GenerateCard.remoteAddress := Some "10.0.0.1" |}
    store_promo
  = GenerateCard.handler 5 env_sample rt_sample
      (GenerateCard.Responds (Some "{}")) request_promo store_promo.
Proof.
  apply (bearer_token_ends_at_space 5 env_sample rt_sample
           (GenerateCard.Responds (Some "{}")) request_promo
           {| GenerateCard.method := POST;
              GenerateCard.authorization :=
                Some "Bearer sk-promo or anything";
              GenerateCard.inputText := Some "hello";
              GenerateCard.x_forwarded_for := None;
              GenerateCard.remoteAddress := Some "10.0.0.1" |}
           "sk-promo" "or anything" store_promo);
    reflexivity.
Defined.

(** ** How the operations compose *)

Lemma verify_known_iff (now : Z) (s : Store) (K : AccessKey) :
  wf_store s → K ∈ access_keys s →
  verifyAccessKey now (ak_key_code K) s = (inr K, s) ↔ admissible now K.
Proof.
  intros Hwf HK.
  rewrite (verify_known now s K (wf_key_codes s Hwf) HK).
  unfold admissible.
  rewrite <- expired_false_iff, <- exhausted_false_iff.
  destruct (ak_is_active K), (expired now K), (exhausted K);
    split; try done; try (intros (? & ? & ?); done).
Qed.

(** Runs a step that leaves the store alone, drops the case in which it
    throws and keeps the equation of the other. *)
Ltac pure_step_eq m lemma Heq :=
  let H := fresh in
  let r := fresh "r" in
  let s1 := fresh "s" in
  pose proof lemma as H; destruct m as [r s1] eqn:Heq; simpl in H;
  subst s1; destruct r as [?|?]; [done|].

(** What a [createAccessKey] that returns has done. *)
Lemma createAccessKey_returns (now : Z) (rt : Runtime)
    (rnd : string * string) (name : string)
    (maxUses daysValid : option JsNumber) (s s' : Store) (K : AccessKey) :
  createAccessKey now rt rnd name maxUses daysValid s = (inr K, s') →
  ∃ m expiresAt e,
    default_maxUses maxUses = Num m ∧ int32 m = true
    ∧ expiry_of rt now daysValid s = (inr expiresAt, s)
    ∧ bind_timestamp rt expiresAt s = (inr e, s)
    ∧ K = {| ak_id := access_keys_id_seq s;
             ak_key_code := generateKey rnd;
             ak_name := fst (clip 100 name);
             ak_max_uses := m; ak_used_count := 0;
             ak_expires_at := e;
             ak_is_active := true; ak_created_at := now |}
    ∧ s' = {| access_keys := access_keys s ++ [K];
              usage_logs := usage_logs s;
              access_keys_id_seq := access_keys_id_seq s + 1;
              usage_logs_id_seq := usage_logs_id_seq s |}.
Proof.
  unfold createAccessKey, bind.
  destruct (nul_free name) eqn:Hnul;
    [|by rewrite bind_text_nul by done].
  rewrite bind_text_nul_free by done. unfold select_keys.
  destruct (0 <? _); [done|].
  pure_step_eq (expiry_of rt now daysValid s)
    (expiry_of_pure rt now daysValid s) Hexp.
  destruct (nul_free (generateKey rnd)) eqn:Hnulc;
    [|by rewrite bind_text_nul by done].
  rewrite !bind_text_nul_free by done.
  destruct (default_maxUses maxUses) as [|m|text] eqn:Hmax; [done| |done].
  simpl. destruct (int32 m) eqn:Hm; [|done]. simpl.
  match goal with
  | |- context [bind_timestamp rt ?x s] =>
      pure_step_eq (bind_timestamp rt x s) (bind_timestamp_pure rt x s) Htime
  end.
  unfold insert_key, bind.
  rewrite varchar_fits by apply generateKey_fits.
  unfold varchar. destruct (clip 100 name) as [kept surplus].
  destruct (blank surplus); [|done]. simpl.
  unfold insert_key_row, bind, nextval_access_keys.
  destruct (_ <=? _); simpl; [|done].
  repeat case_decide; try done.
  intros [= <- <-]. by eexists m, _, _.
Qed.

(** X11: a key returned by [createAccessKey] can be redeemed at once with
    the code it carries: [verifyAccessKey] admits it at time [now'] exactly
    when its [max_uses] is [-1] or positive and [now'] is not later than
    its expiry. The expiry is absent when [daysValid] is absent or [0];
    otherwise it is the instant the process reads back from the database
    for the text of the date that [setDate] reaches from [now] in
    [daysValid] days. *)
Theorem created_key_is_admitted_until_expiry (now : Z) (rt : Runtime)
    (rnd : string * string) (name : string)
    (maxUses daysValid : option JsNumber) (s s' : Store) (K : AccessKey)
    (now' : Z) :
  wf_store s →
  createAccessKey now rt rnd name maxUses daysValid s = (inr K, s') →
  match ak_expires_at K with
  | None =>
      daysValid = None
      ∨ ∃ days, daysValid = Some days ∧ truthy (JNumber days) = false
  | Some t =>
      ∃ days t0,
        daysValid = Some days ∧ truthy (JNumber days) = true
        ∧ setDate rt now days = Some t0
        ∧ timestamp rt (toISOString rt t0) = inr t
  end
  ∧ (verifyAccessKey now' (ak_key_code K) s' = (inr K, s')
     ↔ (ak_max_uses K = -1 ∨ 0 < ak_max_uses K)
       ∧ ∀ t, ak_expires_at K = Some t → now' ≤ t).
Proof.
  intros Hwf Hcreate.
  assert (wf_store s') as Hwf'.
  { pose proof (wf_after (CallCreate now rt rnd name maxUses daysValid) s
                  Hwf) as Hafter.
    simpl in Hafter. by rewrite Hcreate in Hafter. }
  apply createAccessKey_returns in Hcreate
    as (m & expiresAt & e & _ & _ & Hexp & Htime & HK & Hs').
  assert (K ∈ access_keys s') as Hin.
  { rewrite Hs'. simpl. apply elem_of_app. right. apply list_elem_of_here. }
  split.
  - assert (ak_expires_at K = e) as -> by (by rewrite HK).
    revert Hexp Htime. unfold expiry_of.
    destruct daysValid as [days|].
    + destruct (truthy (JNumber days)) eqn:Hdays.
      * destruct (setDate rt now days) as [t0|] eqn:Hdate; [|done].
        intros [= <-]. simpl.
        destruct (timestamp rt (toISOString rt t0)) as [?|t] eqn:Ht;
          [done|].
        intros [= <-]. by exists days, t0.
      * intros [= <-] [= <-]. right. by exists days.
    + intros [= <-] [= <-]. by left.
  - rewrite (verify_known_iff now' s' K Hwf' Hin). unfold admissible.
    assert (ak_is_active K = true) as -> by (by rewrite HK).
    assert (ak_used_count K = 0) as -> by (by rewrite HK).
    split.
    + intros (_ & Hexpiry & Hmax). split; [done|].
      intros t Ht. destruct Hexpiry as [Hnone|(t' & Ht' & Hge)];
        [congruence|].
      assert (t' = t) by congruence. lia.
    + intros [Hmax Hexpiry]. split; [done|]. split; [|done].
      destruct (ak_expires_at K) as [t|]; [|by left].
      right. exists t. split; [done|]. specialize (Hexpiry t eq_refl). lia.
Qed.

Lemma created_key_is_admitted_until_expiry_witness :
  let K := {| ak_id := 1;
              ak_key_code := generateKey ("0.abcdef", "0.ghijkl");
              ak_name := "week"; ak_max_uses := 3; ak_used_count := 0;
              ak_expires_at := Some (7 * ms_per_day);
              ak_is_active := true; ak_created_at := 0 |} in
  let s' := {| access_keys := [K]; usage_logs := [];
               access_keys_id_seq := 2; usage_logs_id_seq := 1 |} in
  createAccessKey 0 rt_sample ("0.abcdef", "0.ghijkl") "week" (Some (Num 3))
    (Some (Num 7)) initDatabase = (inr K, s')
  ∧ verifyAccessKey (7 * ms_per_day) (ak_key_code K) s' = (inr K, s').
Proof.
  intros K s'. split; [reflexivity|].
  destruct (created_key_is_admitted_until_expiry 0 rt_sample
              ("0.abcdef", "0.ghijkl")
              "week" (Some (Num 3)) (Some (Num 7)) initDatabase s' K
              (7 * ms_per_day) wf_initDatabase eq_refl)
    as [_ Hverify].
  apply Hverify. split.
  - right. reflexivity.
  - intros t [= <-]. reflexivity.
Defined.

(** X12: an update takes effect at the next verification: after
    [updateAccessKey] has set the limits of a stored key (to a [maxUses]
    that is an integer of 32 bits and an [expiresAt] that is absent or read
    by the database as a timestamp), [verifyAccessKey] on its code admits
    it exactly when the key with its new [max_uses] and [expires_at] is
    admissible, whatever the limits were before. *)
Theorem update_then_verify (rt : Runtime) (now : Z) (s : Store)
    (K : AccessKey) (m : Z) (expiresAt : option string) (e : option Z) :
  wf_store s → K ∈ access_keys s → int32 m = true →
  bind_timestamp rt expiresAt s = (inr e, s) →
  let K' := set_limits m e K in
  let s' := snd (updateAccessKey rt (Num (ak_id K)) (Num m) expiresAt s) in
  verifyAccessKey now (ak_key_code K) s' = (inr K', s')
  ↔ ak_is_active K = true
    ∧ (e = None ∨ ∃ t, e = Some t ∧ t >= now)
    ∧ (m = -1 ∨ ak_used_count K < m).
Proof.
  intros Hwf HK Hm Htime K' s'.
  assert (wf_store s') as Hwf'
    by apply (wf_after (CallUpdate rt (Num (ak_id K)) (Num m) expiresAt) s
                Hwf).
  assert (K' ∈ access_keys s') as HK'.
  { subst s'. rewrite (updateAccessKey_existing rt K m expiresAt e) by done.
    simpl. apply list_elem_of_fmap. exists K. by rewrite decide_True. }
  apply (verify_known_iff now s' K' Hwf' HK').
Qed.

Lemma update_then_verify_witness :
  let exhausted_key := increment (increment key_promo) in
  let s := set_access_keys [exhausted_key] store_promo in
  let s' := snd (updateAccessKey rt_sample (Num 1) (Num 5) None s) in
  fst (verifyAccessKey 5 "sk-promo" s) = inl QuotaExhausted
  ∧ verifyAccessKey 5 "sk-promo" s'
    = (inr (set_limits 5 None exhausted_key), s').
Proof.
  intros exhausted_key s s'. split; [reflexivity|].
  apply (update_then_verify rt_sample 5 s exhausted_key 5 None None).
  - apply wf_store_check_sound. reflexivity.
  - apply list_elem_of_here.
  - reflexivity.
  - reflexivity.
  - split; [reflexivity|]. split; [by left|]. right. simpl. lia.
Defined.

(** The keys a generation request leaves behind. *)
Lemma generate_card_keys (now : Z) (env : Env) (rt : Runtime)
    (ai : GenerateCard.Generation) (req : GenerateCard.Request) (s : Store) :
  wf_store s →
  let s' := snd (GenerateCard.handler now env rt ai req s) in
  access_keys s' = access_keys s
  ∨ ∃ K, K ∈ access_keys s ∧ exhausted K = false
         ∧ access_keys s'
           = (λ k, if decide (k = K) then increment K else k)
               <$> access_keys s.
Proof.
  intros Hwf s'. subst s'.
  destruct (generate_card_cases now env rt ai req s)
    as [[-> _]|[[-> _]|[[-> _]|
        (authHeader & accessKey & _ & _ & _ & _ & ->)]]];
    try by left.
  destruct (verifyAccessKey now accessKey s) as [[error|K] s1] eqn:Hv.
  - pose proof (verify_read_only now accessKey s) as Hs.
    rewrite Hv in Hs. simpl in Hs. subst s1. by left.
  - apply verify_returns_row in Hv as (-> & HK & _ & _ & _ & Hquota).
    unfold try_catch, GenerateCard.generate.
    destruct (GenerateCard.generation env rt ai) as [error|resultData].
    { left. apply on_error_same_keys. }
    unfold bind.
    destruct (updateAccessKeyUsage_cases (Num (ak_id K)) s)
      as [[error ->]|(i & [= <-] & _ & _ & ->)].
    { left. apply on_error_same_keys. }
    right. exists K. split; [done|]. split; [done|].
    set (s1 := snd (update_key (ak_id K) increment s)).
    assert (access_keys s1
            = (λ k, if decide (k = K) then increment K else k)
                <$> access_keys s) as <-.
    { subst s1. simpl. by apply increment_only. }
    pose proof (logUsage_same_keys now (Num (ak_id K))
                  (str_or (GenerateCard.x_forwarded_for req)
                     (str_or (GenerateCard.remoteAddress req) "unknown"))
                  (str_or (GenerateCard.inputText req) "") true None s1)
      as [Hlog _].
    destruct (logUsage _ _ _ _ _ _ s1) as [[error|[]] s2]; simpl in *;
      [|done].
    rewrite <- Hlog. apply on_error_same_keys.
Qed.

Lemma within_quota_after_generate (c : Call) (s : Store) :
  is_generate c = true → wf_store s → within_quota s →
  within_quota (after c s).
Proof.
  destruct c; try discriminate. intros _ Hwf Hq. simpl.
  unfold within_quota.
  destruct (generate_card_keys now env rt ai req s Hwf)
    as [Hkeys|(K & HK & Hquota & Hkeys)]; rewrite Hkeys; [done|].
  intros k' (k & -> & Hk)%list_elem_of_fmap.
  case_decide as Heq; [|by apply Hq]. subst k.
  apply exhausted_false_iff in Hquota. simpl.
  destruct Hquota as [Hmax|Hlt]; [by left|right; lia].
Qed.

(** X13: generation requests handled one after the other never overrun a
    quota: if every limited key of a well-formed store has
    [used_count <= max_uses], the same holds after any sequence of
    generation requests, whatever their keys and outcomes. *)
Theorem sequential_requests_respect_quota (cs : list Call) (s : Store) :
  forallb is_generate cs = true → wf_store s → within_quota s →
  within_quota (after_all cs s).
Proof.
  revert s. induction cs as [|c cs IH]; intros s Hcs Hwf Hq; [done|].
  simpl in Hcs. apply andb_true_iff in Hcs as [Hc Hcs]. simpl.
  apply IH; [done|by apply wf_after|by apply within_quota_after_generate].
Qed.

Lemma sequential_requests_respect_quota_witness :
  let request :=
    ReqGenerate 5 env_sample rt_sample (GenerateCard.Responds (Some "{}"))
      request_promo in
  within_quota (after_all [request; request; request; request] store_promo).
Proof.
  intros request.
  apply (sequential_requests_respect_quota
           [request; request; request; request] store_promo).
  - reflexivity.
  - apply wf_store_check_sound. reflexivity.
  - intros k ->%list_elem_of_singleton. right. simpl. lia.
Defined.

(** X14: deleting a key frees its name: on a well-formed store with
    pairwise distinct names, once [deleteAccessKey] has removed a stored
    key whose name has at most 100 characters and no NUL character,
    [createAccessKey] under the same name succeeds when the database
    accepts the creation (a code no remaining key carries, a [maxUses] that
    is an integer of 32 bits, an expiry read as a timestamp, an id sequence
    that has not come to its end), and returns a key with a new id and a
    [used_count] of [0]. *)
Theorem delete_frees_the_name (now : Z) (rt : Runtime)
    (rnd : string * string) (maxUses daysValid : option JsNumber) (m : Z)
    (expiresAt : option string) (e : option Z) (s : Store)
    (K : AccessKey) :
  wf_store s → NoDup (ak_name <$> access_keys s) → K ∈ access_keys s →
  nul_free (ak_name K) = true → (characters (ak_name K) ≤ 100)%nat →
  nul_free (generateKey rnd) = true →
  default_maxUses maxUses = Num m → int32 m = true →
  expiry_of rt now daysValid s = (inr expiresAt, s) →
  bind_timestamp rt expiresAt s = (inr e, s) →
  access_keys_id_seq s ≤ 2147483647 →
  let s1 := snd (deleteAccessKey (Num (ak_id K)) s) in
  generateKey rnd ∉ ak_key_code <$> access_keys s1 →
  ∃ K' s2,
    createAccessKey now rt rnd (ak_name K) maxUses daysValid s1
    = (inr K', s2)
    ∧ ak_name K' = ak_name K ∧ ak_id K' ≠ ak_id K
    ∧ ak_used_count K' = 0.
Proof.
  intros Hwf Hnames HK Hnul Hlen Hnulc Hmax Hm Hexp Htime Hseq s1 Hcode.
  assert (wf_store s1) as Hwf1
    by apply (wf_after (CallDelete (Num (ak_id K))) s Hwf).
  assert (access_keys s1 = filter (λ k, ak_id k ≠ ak_id K) (access_keys s)
          ∧ access_keys_id_seq s1 = access_keys_id_seq s) as [Hkeys Hseq1].
  { subst s1.
    by rewrite deleteAccessKey_run by exact (wf_key_int32 s K Hwf HK). }
  eexists _, _. split.
  - apply (createAccessKey_fresh now rt rnd (ak_name K) maxUses daysValid m
             expiresAt e); try done.
    + intros k Hk Hname. rewrite Hkeys in Hk.
      apply list_elem_of_filter in Hk as [Hne Hk]. apply Hne. f_equal.
      by apply (key_unique ak_name k K (access_keys s)).
    + pose proof (expiry_of_pure rt now daysValid s1) as Hpure.
      revert Hexp Hpure. unfold expiry_of.
      destruct daysValid as [days|]; [|by intros [= <-]].
      destruct (truthy (JNumber days)); [|by intros [= <-]].
      destruct (setDate rt now days); [|done]. by intros [= <-].
    + by eapply bind_timestamp_any.
    + lia.
  - simpl. split; [done|]. split; [|done]. rewrite Hseq1.
    pose proof (wf_key_seq s Hwf K HK). lia.
Qed.

Lemma delete_frees_the_name_witness :
  ∃ K' s2,
    createAccessKey 9 rt_sample ("0.abcdef", "0.ghijkl") "promo" None None
      (snd (deleteAccessKey (Num 1) store_promo)) = (inr K', s2)
    ∧ ak_name K' = "promo" ∧ ak_id K' ≠ 1 ∧ ak_used_count K' = 0.
Proof.
  apply (delete_frees_the_name 9 rt_sample ("0.abcdef", "0.ghijkl") None
           None (-1) None None store_promo key_promo).
  - apply wf_store_check_sound. reflexivity.
  - apply NoDup_singleton.
  - apply list_elem_of_here.
  - reflexivity.
  - simpl. lia.
  - reflexivity.
  - reflexivity.
  - reflexivity.
  - reflexivity.
  - reflexivity.
  - simpl. lia.
  - apply not_elem_of_nil.
Defined.

(** X15: [deleteAccessKey] never throws for an id that is an integer of 32
    bits, on any store, and deleting the same id a second time changes
    nothing more; the keys with another id and the log rows of other keys
    are all kept, in their order. *)
Theorem delete_twice_is_delete_once (s : Store) (i : Z) :
  int32 i = true →
  ∃ s',
    deleteAccessKey (Num i) s = (inr true, s')
    ∧ deleteAccessKey (Num i) s' = (inr true, s')
    ∧ access_keys s' = filter (λ k, ak_id k ≠ i) (access_keys s)
    ∧ usage_logs s' = filter (λ l, ul_key_id l ≠ i) (usage_logs s).
Proof.
  intros Hi. eexists. split; [by apply deleteAccessKey_run|].
  split; [|done]. rewrite deleteAccessKey_run by done. simpl.
  by rewrite !list_filter_filter_l.
Qed.

Lemma delete_twice_is_delete_once_witness :
  ∃ s',
    deleteAccessKey (Num 1) store_promo = (inr true, s')
    ∧ deleteAccessKey (Num 1) s' = (inr true, s')
    ∧ access_keys s' = [].
Proof.
  destruct (delete_twice_is_delete_once store_promo 1 eq_refl)
    as (s' & Hfirst & Hsecond & Hkeys & _).
  exists s'. split; [exact Hfirst|]. split; [exact Hsecond|].
  rewrite Hkeys. reflexivity.
Defined.

(** X16: accounting for a key that has been deleted since it was verified
    is lost without a trace in the tables: on a well-formed store, after
    [deleteAccessKey] has removed the key, [updateAccessKeyUsage] for its
    id succeeds and changes nothing, and [logUsage] for its id, with texts
    that hold no NUL character and an id sequence that has not come to its
    end, throws the foreign-key violation and adds no log row. *)
Theorem accounting_after_delete (now : Z) (ip requestText : string)
    (success : bool) (errorMsg : option string) (s : Store)
    (K : AccessKey) :
  wf_store s → K ∈ access_keys s →
  nul_free ip = true → nul_free requestText = true →
  nul_free (str_or errorMsg "") = true →
  usage_logs_id_seq s ≤ 2147483647 →
  let s1 := snd (deleteAccessKey (Num (ak_id K)) s) in
  updateAccessKeyUsage (Num (ak_id K)) s1 = (inr (), s1)
  ∧ ∃ s2,
      logUsage now (Num (ak_id K)) ip requestText success errorMsg s1
      = (inl (ForeignKeyViolation usage_logs_key_id_fkey), s2)
      ∧ access_keys s2 = access_keys s1
      ∧ usage_logs s2 = usage_logs s1.
Proof.
  intros Hwf HK Hip Htext Hmsg Hseq s1.
  assert (int32 (ak_id K) = true) as Hint by (by eapply wf_key_int32).
  assert (wf_store s1) as Hwf1
    by apply (wf_after (CallDelete (Num (ak_id K))) s Hwf).
  assert (usage_logs_id_seq s1 = usage_logs_id_seq s) as Hseq1.
  { subst s1. by rewrite deleteAccessKey_run. }
  assert (ak_id K ∉ ak_id <$> access_keys s1) as Hgone.
  { subst s1. rewrite deleteAccessKey_run by done. simpl.
    intros (k & Heq & [Hne _]%list_elem_of_filter)%list_elem_of_fmap.
    congruence. }
  split; [by apply updateAccessKeyUsage_absent|].
  unfold logUsage, bind. rewrite bind_integer_int32 by done.
  rewrite bind_text_nul_free
    by (rewrite !nul_free_app, Hip, Htext; reflexivity).
  rewrite bind_text_nul_free by done.
  unfold insert_log, bind. rewrite nextval_usage_logs_run by lia. simpl.
  rewrite decide_False by (by apply wf_fresh_log_id).
  rewrite decide_False by done. by eexists.
Qed.

Lemma accounting_after_delete_witness :
  let s1 := snd (deleteAccessKey (Num 1) store_promo) in
  updateAccessKeyUsage (Num 1) s1 = (inr (), s1)
  ∧ ∃ s2,
      logUsage 5 (Num 1) "10.0.0.1" "hello" true None s1
      = (inl (ForeignKeyViolation usage_logs_key_id_fkey), s2)
      ∧ access_keys s2 = access_keys s1
      ∧ usage_logs s2 = usage_logs s1.
Proof.
  apply (accounting_after_delete 5 "10.0.0.1" "hello" true None store_promo
           key_promo).
  - apply wf_store_check_sound. reflexivity.
  - apply list_elem_of_here.
  - reflexivity.
  - reflexivity.
  - reflexivity.
  - simpl. lia.
Defined.

(** ** The admin handlers *)

Lemma try_catch_answers {A} (m : M A) (good : A → Body) (bad : Error → Body)
    (s s' : Store) (response : Response) :
  try_catch (let* x := m in ret {| status := 200; body := good x |})
    (λ error, ret {| status := 500; body := bad error |}) s
  = (inr response, s') →
  (∃ x, m s = (inr x, s') ∧ response = {| status := 200; body := good x |})
  ∨ (∃ error, m s = (inl error, s')
              ∧ response = {| status := 500; body := bad error |}).
Proof.
  unfold try_catch, bind, ret. destruct (m s) as [[error|x] s1].
  - intros [= <- <-]. right. by exists error.
  - intros [= <- <-]. left. by exists x.
Qed.

Lemma unauthorized_iff (adminPwd : option string) (env : Env) :
  unauthorized adminPwd env = true ↔ adminPwd ≠ ADMIN_PASSWORD env.
Proof.
  unfold unauthorized. rewrite negb_true_iff, bool_decide_eq_false. done.
Qed.

(** X17: each admin handler, whenever it answers, answers 401 exactly when
    the method is the one it serves and the [x-admin-password] header
    differs from the [ADMIN_PASSWORD] variable, a missing header being
    equal to an unset variable; at 401 the store is untouched. *)
Theorem admin_handlers_check_the_password (now : Z) (rnd : string * string)
    (env : Env) (rt : Runtime) (s : Store) :
  (∀ req response s',
     AdminKeys.handler env req s = (inr response, s') →
     (status response = 401 ↔
      AdminKeys.method req = GET
      ∧ AdminKeys.x_admin_password req ≠ ADMIN_PASSWORD env)
     ∧ (status response = 401 → s' = s))
  ∧ (∀ req response s',
       AdminKeyLogs.handler env rt req s = (inr response, s') →
       (status response = 401 ↔
        AdminKeyLogs.method req = GET
        ∧ AdminKeyLogs.x_admin_password req ≠ ADMIN_PASSWORD env)
       ∧ (status response = 401 → s' = s))
  ∧ (∀ req response s',
       AdminUpdateKey.handler env rt req s = (inr response, s') →
       (status response = 401 ↔
        AdminUpdateKey.method req = POST
        ∧ AdminUpdateKey.x_admin_password req ≠ ADMIN_PASSWORD env)
       ∧ (status response = 401 → s' = s))
  ∧ (∀ req response s',
       AdminCreateKey.handler now rnd env rt req s = (inr response, s') →
       (status response = 401 ↔
        AdminCreateKey.method req = POST
        ∧ AdminCreateKey.x_admin_password req ≠ ADMIN_PASSWORD env)
       ∧ (status response = 401 → s' = s)).
Proof.
  split; [|split; [|split]]; intros req response s'.
  - unfold AdminKeys.handler.
    case_decide as Hm; [intros [= <- <-]; simpl; by intuition|].
    destruct (unauthorized _ env) eqn:Hpwd.
    + apply unauthorized_iff in Hpwd. intros [= <- <-]. simpl. by intuition.
    + apply not_true_iff_false in Hpwd. rewrite unauthorized_iff in Hpwd.
      intros [(x & _ & ->)|(e & _ & ->)]%try_catch_answers; simpl;
        by intuition.
  - unfold AdminKeyLogs.handler.
    case_decide as Hm; [intros [= <- <-]; simpl; by intuition|].
    destruct (unauthorized _ env) eqn:Hpwd.
    + apply unauthorized_iff in Hpwd. intros [= <- <-]. simpl. by intuition.
    + apply not_true_iff_false in Hpwd. rewrite unauthorized_iff in Hpwd.
      destruct (AdminKeyLogs.keyId req) as [keyId|];
        [|intros [= <- <-]; simpl; by intuition].
      destruct (String.eqb keyId "");
        [intros [= <- <-]; simpl; by intuition|].
      intros [(x & _ & ->)|(e & _ & ->)]%try_catch_answers; simpl;
        by intuition.
  - unfold AdminUpdateKey.handler.
    case_decide as Hm; [intros [= <- <-]; simpl; by intuition|].
    destruct (unauthorized _ env) eqn:Hpwd.
    + apply unauthorized_iff in Hpwd. intros [= <- <-]. simpl. by intuition.
    + apply not_true_iff_false in Hpwd. rewrite unauthorized_iff in Hpwd.
      destruct (AdminUpdateKey.req_body req) as [fields|]; [|done].
      destruct (negb _); [intros [= <- <-]; simpl; by intuition|].
      intros [(x & _ & ->)|(e & _ & ->)]%try_catch_answers; simpl;
        by intuition.
  - unfold AdminCreateKey.handler.
    case_decide as Hm; [intros [= <- <-]; simpl; by intuition|].
    destruct (unauthorized _ env) eqn:Hpwd.
    + apply unauthorized_iff in Hpwd. intros [= <- <-]. simpl. by intuition.
    + apply not_true_iff_false in Hpwd. rewrite unauthorized_iff in Hpwd.
      destruct (AdminCreateKey.req_body req) as [fields|]; [|done].
      destruct (AdminCreateKey.name fields) as [name|];
        [|intros [= <- <-]; simpl; by intuition].
      destruct (String.eqb name "");
        [intros [= <- <-]; simpl; by intuition|].
      intros [(x & _ & ->)|(e & _ & ->)]%try_catch_answers; simpl;
        by intuition.
Qed.

Lemma eqb_empty_false (s : string) : s ≠ "" → String.eqb s "" = false.
Proof. intros Hs. by destruct (String.eqb_spec s ""). Qed.

(** X18: an authorised creation request fails without touching the tables
    in four ways. Without a body the handler throws. With a body that has
    no name it is answered 400. Under the name of a stored key (a name
    without NUL character) it is answered 500 with the duplicate-name
    message that quotes the name. And when the database accepts everything
    but the drawn code, which is already taken, it is answered 500 with the
    unique-violation text, no row is added, and the id drawn for the new
    row is lost. *)
Theorem create_request_failures (now : Z) (rnd : string * string)
    (env : Env) (rt : Runtime) (req : AdminCreateKey.Request) (s : Store) :
  AdminCreateKey.method req = POST →
  AdminCreateKey.x_admin_password req = ADMIN_PASSWORD env →
  (AdminCreateKey.req_body req = None →
   AdminCreateKey.handler now rnd env rt req s
   = (inl (BodyMissing "name"), s))
  ∧ (∀ fields,
       AdminCreateKey.req_body req = Some fields →
       falsy (AdminCreateKey.name fields) = true →
       AdminCreateKey.handler now rnd env rt req s
       = (inr {| status := 400;
                 body := ErrorBody (Some "Name is required") |}, s))
  ∧ (∀ fields name k,
       AdminCreateKey.req_body req = Some fields →
       AdminCreateKey.name fields = Some name → name ≠ "" →
       nul_free name = true →
       k ∈ access_keys s → ak_name k = name →
       AdminCreateKey.handler now rnd env rt req s
       = (inr {| status := 500;
                 body := ErrorBody (message (DuplicateName name)) |}, s))
  ∧ (∀ fields name m t t',
       AdminCreateKey.req_body req = Some fields →
       AdminCreateKey.name fields = Some name → name ≠ "" →
       nul_free name = true → (characters name ≤ 100)%nat →
       wf_store s →
       (∀ k, k ∈ access_keys s → ak_name k ≠ name) →
       nul_free (generateKey rnd) = true →
       num_or (Number rt (AdminCreateKey.maxUses fields)) 100 = Num m →
       int32 m = true →
       setDate rt now
         (num_or (Number rt (AdminCreateKey.expiresInDays fields)) 30)
       = Some t →
       timestamp rt (toISOString rt t) = inr t' →
       access_keys_id_seq s ≤ 2147483647 →
       generateKey rnd ∈ ak_key_code <$> access_keys s →
       AdminCreateKey.handler now rnd env rt req s
       = (inr {| status := 500;
                 body := ErrorBody
                           (message
                              (UniqueViolation access_keys_key_code_key)) |},
          {| access_keys := access_keys s; usage_logs := usage_logs s;
             access_keys_id_seq := access_keys_id_seq s + 1;
             usage_logs_id_seq := usage_logs_id_seq s |})).
Proof.
  intros Hm Hpwd. unfold AdminCreateKey.handler.
  rewrite Hm, Hpwd. rewrite decide_False by (by intros []).
  unfold unauthorized. rewrite bool_decide_eq_true_2 by done. simpl.
  split; [|split; [|split]].
  - by intros ->.
  - intros fields ->.
    destruct (AdminCreateKey.name fields) as [name|]; simpl; [|done].
    by intros ->.
  - intros fields name k -> -> Hne Hnul Hk Hname.
    rewrite eqb_empty_false by done.
    unfold try_catch, bind.
    rewrite createAccessKey_duplicate; [done|done|by exists k].
  - intros fields name m t t' -> -> Hne Hnul Hlen Hwf Hfresh Hnulc Hmax Hint
      Hdate Htime Hseq Hcode.
    rewrite eqb_empty_false by done.
    unfold try_catch, bind at 1. rewrite createAccessKey_unused by done.
    unfold bind. rewrite (expiry_of_days rt now _ t)
      by (by apply num_or_truthy || done).
    rewrite bind_text_nul_free, Hmax by done.
    change (default_maxUses (Some (Num m))) with (Num m).
    rewrite bind_integer_int32 by done. simpl. rewrite Htime.
    unfold insert_key, bind, ret.
    rewrite varchar_fits by apply generateKey_fits.
    rewrite varchar_fits by done.
    unfold insert_key_row, bind. rewrite nextval_access_keys_run by done.
    simpl. rewrite decide_False by (by apply wf_fresh_key_id).
    by rewrite decide_True.
Qed.

Lemma create_request_failures_witness :
  AdminCreateKey.handler 9 ("0.abcdef", "0.ghijkl") env_sample rt_sample
    (request_create "promo" JUndefined) store_promo
  = (inr {| status := 500;
            body := ErrorBody (message (DuplicateName "promo")) |},
     store_promo).
Proof.
  apply (proj1 (proj2 (proj2
           (create_request_failures 9 ("0.abcdef", "0.ghijkl")
              env_sample rt_sample
              (request_create "promo" JUndefined) store_promo
              eq_refl eq_refl)))
           {| AdminCreateKey.name := Some "promo";
              AdminCreateKey.maxUses := JUndefined;
              AdminCreateKey.expiresInDays := JUndefined |}
           "promo" key_promo).
  - reflexivity.
  - reflexivity.
  - discriminate.
  - reflexivity.
  - apply list_elem_of_here.
  - reflexivity.
Defined.





(** ** The browser-side caller *)


Lemma str_or_some (m d : string) : m ≠ "" → str_or (Some m) d = m.
Proof. intros Hm. simpl. by rewrite eqb_empty_false. Qed.

Lemma client_request_verified (now : Z) (env : Env) (rt : Runtime)
    (ai : GenerateCard.Generation) (tr : GeminiService.Transport)
    (inputText key : string) (s : Store) :
  key ≠ "" → spaceless key = true →
  let ip := str_or (GeminiService.x_forwarded_for tr)
              (str_or (GeminiService.remoteAddress tr) "unknown") in
  GenerateCard.handler now env rt ai
    {| GenerateCard.method := POST;
       GenerateCard.authorization := Some ("Bearer " +:+ key);
       GenerateCard.inputText := Some inputText;
       GenerateCard.x_forwarded_for := GeminiService.x_forwarded_for tr;
       GenerateCard.remoteAddress := GeminiService.remoteAddress tr |} s
  = match verifyAccessKey now key s with
    | (inl error, s1) =>
        GenerateCard.on_error now 0 ip (Some inputText) error s1
    | (inr keyData, s1) =>
        try_catch
          (GenerateCard.generate now env rt ai (ak_id keyData) ip
             (Some inputText))
          (GenerateCard.on_error now (ak_id keyData) ip (Some inputText)) s1
    end.
Proof.
  intros Hkey Hspace ip.
  rewrite (generate_card_verified _ _ _ _ _ _ ("Bearer " +:+ key) key);
    [done|done|done|apply prefix_bearer|].
  by rewrite split_bearer, split_spaceless.
Qed.

Lemma nul_free_input (text : string) :
  nul_free text = true → nul_free (str_or (Some text) "") = true.
Proof. intros Htext. simpl. by destruct (String.eqb text ""). Qed.

(** X21: end to end, a caller of [generateCardContent] who presents the
    code of a key that verification admits, and whose generation succeeds,
    receives the generated data, and the store then holds the key with its
    [used_count] raised by one and one more log row, marked successful and
    tied to that key, provided the database accepts the two statements:
    the client address and the input text hold no NUL character, the
    counter has room below the largest integer of 32 bits, and the log
    sequence is not exhausted. *)
Theorem client_redeems_one_use (now : Z) (env : Env) (rt : Runtime)
    (ai : GenerateCard.Generation) (tr : GeminiService.Transport)
    (inputText key resultData : string) (s : Store) (K : AccessKey) :
  wf_store s → key ≠ "" → spaceless key = true →
  verifyAccessKey now key s = (inr K, s) →
  GenerateCard.generation env rt ai = inr resultData →
  nul_free (str_or (GeminiService.x_forwarded_for tr)
              (str_or (GeminiService.remoteAddress tr) "unknown")) = true →
  nul_free inputText = true →
  ak_used_count K < 2147483647 →
  usage_logs_id_seq s ≤ 2147483647 →
  ∃ row,
    GeminiService.generateCardContent now env rt ai tr inputText (Some key) s
    = (inr (DataBody resultData),
       {| access_keys :=
            (λ k, if decide (k = K) then increment K else k)
              <$> access_keys s;
          usage_logs := usage_logs s ++ [row];
          access_keys_id_seq := access_keys_id_seq s;
          usage_logs_id_seq := usage_logs_id_seq s + 1 |})
    ∧ ul_success row = true ∧ ul_key_id row = ak_id K.
Proof.
  intros Hwf Hkey Hspace Hverify Hgen Hip Htext%nul_free_input Huc Hseq.
  apply verify_returns_row in Hverify as Hrow.
  destruct Hrow as (_ & HK & _).
  unfold GeminiService.generateCardContent.
  rewrite str_or_some, eqb_empty_false by done.
  rewrite client_request_verified by done.
  rewrite Hverify. rewrite (generate_run _ _ _ _ _ _ _ resultData) by done.
  simpl. by eexists.
Qed.

Lemma client_redeems_one_use_witness :
  ∃ row,
    GeminiService.generateCardContent 5 env_sample rt_sample
      (GenerateCard.Responds (Some "{}"))
      {| GeminiService.x_forwarded_for := None;
         GeminiService.remoteAddress := Some "10.0.0.1";
         GeminiService.statusText := λ _, "";
         GeminiService.not_json := Some "Unexpected token" |}
      "hello" (Some "sk-promo") store_promo
    = (inr (DataBody "{}"),
       {| access_keys := [increment key_promo];
          usage_logs := [row];
          access_keys_id_seq := 2; usage_logs_id_seq := 2 |})
    ∧ ul_success row = true ∧ ul_key_id row = 1.
Proof.
  destruct (client_redeems_one_use 5 env_sample rt_sample
              (GenerateCard.Responds (Some "{}"))
              {| GeminiService.x_forwarded_for := None;
                 GeminiService.remoteAddress := Some "10.0.0.1";
                 GeminiService.statusText := λ _, "";
                 GeminiService.not_json := Some "Unexpected token" |}
              "hello" "sk-promo" "{}" store_promo key_promo)
    as (row & Hrun & Hrow).
  - apply wf_store_check_sound. reflexivity.
  - discriminate.
  - reflexivity.
  - reflexivity.
  - reflexivity.
  - reflexivity.
  - reflexivity.
  - reflexivity.
  - discriminate.
  - exists row. split; [|exact Hrow]. etrans; [exact Hrun|]. reflexivity.
Defined.


(** ** Generated codes *)

Lemma length_substring_full (n m : nat) (s : string) :
  (n + m ≤ String.length s)%nat → String.length (substring n m s) = m.
Proof.
  revert n m. induction s as [|a s IH]; intros [|n] [|m]; simpl;
    try lia; intros Hlen.
  - rewrite (IH 0%nat m); lia.
  - apply (IH n 0%nat). lia.
  - apply (IH n (S m)). lia.
Qed.

Lemma spaceless_app (s1 s2 : string) :
  spaceless s1 = true → spaceless s2 = true → spaceless (s1 +:+ s2) = true.
Proof.
  induction s1 as [|a s1 IH]; simpl; [done|].
  intros [Ha Hs1]%andb_true_iff Hs2. rewrite Ha. simpl. by apply IH.
Qed.

Lemma spaceless_substring (n m : nat) (s : string) :
  spaceless s = true → spaceless (substring n m s) = true.
Proof.
  revert n m. induction s as [|a s IH]; intros [|n] [|m]; simpl;
    try done; intros [Ha Hs]%andb_true_iff.
  - rewrite Ha. simpl. by apply IH.
  - by apply IH.
  - by apply IH.
Qed.

(** X23: a generated code starts with [sk-] and is 3 to 29 characters
    long, 29 when both random renderings have at least 15 characters, so
    it fits the 64 characters of the [key_code] column; and when the two
    renderings hold no space neither does the code, so the code survives
    the split of the [Authorization] header. *)
Theorem generateKey_shape (rnd : string * string) :
  String.prefix "sk-" (generateKey rnd) = true
  ∧ (3 ≤ String.length (generateKey rnd) ≤ 29)%nat
  ∧ ((15 ≤ String.length (fst rnd))%nat →
     (15 ≤ String.length (snd rnd))%nat →
     String.length (generateKey rnd) = 29%nat)
  ∧ (spaceless (fst rnd) = true → spaceless (snd rnd) = true →
     spaceless (generateKey rnd) = true
     ∧ split " " ("Bearer " +:+ generateKey rnd) !! 1%nat
       = Some (generateKey rnd)).
Proof.
  unfold generateKey.
  pose proof (length_substring_le 2 13 (fst rnd)).
  pose proof (length_substring_le 2 13 (snd rnd)).
  split; [|split; [|split]].
  - simpl. by destruct (substring 2 13 (fst rnd) +:+ _).
  - rewrite !length_app_string. simpl. lia.
  - intros H1 H2. rewrite !length_app_string.
    rewrite !length_substring_full by lia. done.
  - intros H1 H2.
    assert (spaceless ("sk-" +:+ substring 2 13 (fst rnd)
                       +:+ substring 2 13 (snd rnd)) = true) as Hspace.
    { apply (spaceless_app "sk-"); [done|].
      by apply spaceless_app; apply spaceless_substring. }
    split; [done|]. by rewrite split_bearer, split_spaceless.
Qed.

(** ** The usage log *)

#[global] Instance log_stable_preorder : PreOrder log_stable.
Proof.
  split.
  - intros s. split; [lia|]. auto.
  - intros s1 s2 s3 [Hseq12 H12] [Hseq23 H23]. split; [lia|].
    intros l Hl. destruct (H23 l Hl) as [Hl2|Hnew]; [|right; lia].
    destruct (H12 l Hl2) as [Hl1|Hnew]; [by left|right; lia].
Qed.

Lemma insert_log_stable now i t b e :
  respects log_stable (insert_log now i t b e).
Proof.
  intros s. unfold insert_log, bind, nextval_usage_logs.
  destruct (_ <=? _); simpl; [|reflexivity].
  repeat case_decide; simpl; (split; simpl; [lia|]); intros l Hl;
    try by left.
  apply elem_of_app in Hl as [Hl| ->%list_elem_of_singleton]; [by left|].
  right. simpl. lia.
Qed.

Lemma log_stable_after (c : Call) (s : Store) : log_stable s (after c s).
Proof.
  assert (∀ now k n m e, respects log_stable (insert_key_row now k n m e)).
  { intros now k n m e s0. unfold insert_key_row, bind, nextval_access_keys.
    destruct (_ <=? _); simpl; [|reflexivity].
    repeat case_decide; simpl; (split; simpl; [lia|auto]). }
  assert (∀ i f, respects log_stable (update_key i f))
    by (intros i f s0; split; simpl; [lia|auto]).
  assert (∀ i, respects log_stable (delete_logs i)).
  { intros i s0. split; simpl; [lia|].
    intros l [_ Hl]%list_elem_of_filter. by left. }
  assert (∀ i, respects log_stable (delete_key i)).
  { intros i s0. unfold delete_key.
    case_decide; simpl; (split; simpl; [lia|auto]). }
  pose proof insert_log_stable.
  destruct c; simpl; lift_call log_stable; auto; apply _.
Qed.

(** X24: the usage log is append-only apart from the cascade of a
    deletion: over any sequence of calls no log row is ever altered. A row
    of the final store that carries the id of an earlier row is that very
    row, and every other row of the final store was appended by one of the
    calls. *)
Theorem log_rows_are_immutable (s : Store) (cs : list Call) (l' : UsageLog) :
  wf_store s → l' ∈ usage_logs (after_all cs s) →
  (l' ∈ usage_logs s ∨ usage_logs_id_seq s ≤ ul_id l')
  ∧ ∀ l, l ∈ usage_logs s → ul_id l' = ul_id l → l' = l.
Proof.
  intros Hwf Hl'.
  assert (log_stable s (after_all cs s)) as [_ Hst].
  { clear. revert s. induction cs as [|c cs IH]; intros s; [reflexivity|].
    simpl. etrans; [apply log_stable_after|apply IH]. }
  split; [by apply Hst|].
  intros l Hl Hid. destruct (Hst l' Hl') as [Hold|Hnew].
  - by apply (key_unique ul_id l' l (usage_logs s));
      [apply wf_log_ids| | |].
  - pose proof (wf_log_seq s Hwf l Hl). lia.
Qed.

Lemma log_rows_are_immutable_witness :
  let s := snd (GenerateCard.handler 5 env_sample rt_sample
                  (GenerateCard.Responds (Some "{}")) request_promo
                  store_promo) in
  let s' := after_all
              [ReqGenerate 6 env_sample rt_sample
                 (GenerateCard.Throws None) request_promo;
               CallUpdate rt_sample (Num 1) (Num 9) None] s in
  let row := {| ul_id := 1; ul_key_id := 1;
                ul_request_text := "[IP: 10.0.0.1] hello";
                ul_success := true; ul_error_msg := "";
                ul_created_at := 5 |} in
  row ∈ usage_logs s'
  ∧ (row ∈ usage_logs s ∨ usage_logs_id_seq s ≤ ul_id row).
Proof.
  intros s s' row.
  assert (row ∈ usage_logs s') as Hrow
    by (vm_compute; apply list_elem_of_here).
  split; [exact Hrow|].
  apply (log_rows_are_immutable s
           [ReqGenerate 6 env_sample rt_sample (GenerateCard.Throws None)
              request_promo;
            CallUpdate rt_sample (Num 1) (Num 9) None] row);
    [|exact Hrow].
  apply wf_store_check_sound. reflexivity.
Defined.

(** ** The key listing *)

(** X25: an authorised listing request is answered 200 with every stored
    key exactly once, codes included, newest first, and leaves the store
    as it was; no filter on [is_active], on expiry or on quota is
    applied. *)
Theorem keys_request_lists_every_key (env : Env) (req : AdminKeys.Request)
    (s : Store) :
  AdminKeys.method req = GET →
  AdminKeys.x_admin_password req = ADMIN_PASSWORD env →
  ∃ rows,
    AdminKeys.handler env req s
    = (inr {| status := 200; body := KeysBody rows |}, s)
    ∧ rows ≡ₚ access_keys s
    ∧ StronglySorted (newest_first ak_created_at) rows.
Proof.
  intros Hm Hpwd. unfold AdminKeys.handler.
  rewrite Hm, Hpwd. rewrite decide_False by (by intros []).
  unfold unauthorized. rewrite bool_decide_eq_true_2 by done. simpl.
  eexists. split; [reflexivity|]. split.
  - rewrite order_desc_perm. by rewrite filter_all.
  - apply order_desc_sorted.
Qed.

Lemma keys_request_lists_every_key_witness :
  ∃ rows,
    AdminKeys.handler env_sample
      {| AdminKeys.method := GET;
         AdminKeys.x_admin_password := Some "admin" |} store_promo
    = (inr {| status := 200; body := KeysBody rows |}, store_promo)
    ∧ rows ≡ₚ [key_promo]
    ∧ StronglySorted (newest_first ak_created_at) rows.
Proof.
  apply (keys_request_lists_every_key env_sample
           {| AdminKeys.method := GET;
              AdminKeys.x_admin_password := Some "admin" |} store_promo);
    reflexivity.
Defined.

(** ** Requests the database refuses *)

(** X26: a generation request of an admitted key whose log text (client
    address and input text) holds a NUL character is never logged, since
    the database refuses the text. When the generation succeeds the quota
    is consumed all the same: [used_count] is raised, no log row is
    written, and the handler throws in place of answering 200. When the
    generation fails, the [logUsage] of the [catch] block throws in its
    turn, and the handler throws with the store untouched. *)
Theorem unloggable_request_is_not_logged (now : Z) (env : Env)
    (rt : Runtime) (ai : GenerateCard.Generation)
    (req : GenerateCard.Request) (s : Store) (authHeader accessKey : string)
    (K : AccessKey) :
  wf_store s →
  GenerateCard.method req = POST →
  GenerateCard.authorization req = Some authHeader →
  String.prefix "Bearer " authHeader = true →
  split " " authHeader !! 1%nat = Some accessKey →
  verifyAccessKey now accessKey s = (inr K, s) →
  nul_free ("[IP: "
            +:+ str_or (GenerateCard.x_forwarded_for req)
                  (str_or (GenerateCard.remoteAddress req) "unknown")
            +:+ "] " +:+ str_or (GenerateCard.inputText req) "") = false →
  (∀ resultData,
     GenerateCard.generation env rt ai = inr resultData →
     ak_used_count K < 2147483647 →
     GenerateCard.handler now env rt ai req s
     = (inl InvalidByteSequence,
        {| access_keys :=
             (λ k, if decide (k = K) then increment K else k)
               <$> access_keys s;
           usage_logs := usage_logs s;
           access_keys_id_seq := access_keys_id_seq s;
           usage_logs_id_seq := usage_logs_id_seq s |}))
  ∧ (∀ error,
       GenerateCard.generation env rt ai = inl error →
       GenerateCard.handler now env rt ai req s
       = (inl InvalidByteSequence, s)).
Proof.
  intros Hwf Hm Hauth Hprefix Hsplit Hverify Hnul.
  apply verify_returns_row in Hverify as Hrow.
  destruct Hrow as (_ & HK & _).
  pose proof (wf_key_int32 s K Hwf HK) as Hint.
  assert ((0 <? ak_id K) = true) as Hpos.
  { apply Z.ltb_lt. pose proof (wf_key_seq s Hwf K HK). lia. }
  rewrite (generate_card_verified _ _ _ _ _ _ authHeader accessKey) by done.
  rewrite Hverify. cbv zeta.
  unfold try_catch, GenerateCard.generate, GenerateCard.on_error.
  rewrite Hpos.
  split.
  - intros resultData -> Huc. unfold bind.
    rewrite updateAccessKeyUsage_run by done.
    unfold logUsage, bind. rewrite bind_integer_int32 by done.
    rewrite bind_text_nul by done. cbv beta iota.
    rewrite bind_integer_int32 by done. by rewrite bind_text_nul by done.
  - intros error ->. unfold throw, logUsage, bind.
    rewrite bind_integer_int32 by done. by rewrite bind_text_nul by done.
Qed.

Lemma unloggable_request_is_not_logged_witness :
  GenerateCard.handler 5 env_sample rt_sample
    (GenerateCard.Responds (Some "{}")) request_nul store_promo
  = (inl InvalidByteSequence,
     {| access_keys := [increment key_promo]; usage_logs := [];
        access_keys_id_seq := 2; usage_logs_id_seq := 1 |}).
Proof.
  etrans.
  - apply (proj1 (unloggable_request_is_not_logged 5 env_sample rt_sample
                    (GenerateCard.Responds (Some "{}")) request_nul
                    store_promo "Bearer sk-promo" "sk-promo" key_promo
                    ltac:(apply wf_store_check_sound; reflexivity)
                    eq_refl eq_refl eq_refl eq_refl eq_refl eq_refl) "{}").
    + reflexivity.
    + reflexivity.
  - reflexivity.
Defined.

Lemma clip_padded (n : nat) (text : string) :
  characters text = n → clip n (text +:+ " ") = (text, " ").
Proof.
  revert n. induction text as [|a text IH]; intros n Hn; simpl in *.
  - by subst n.
  - destruct (continuation a).
    + by rewrite (IH n).
    + destruct n as [|n]; [done|]. rewrite (IH n) by lia. done.
Qed.

Lemma createAccessKey_padded (now : Z) (rt : Runtime)
    (rnd : string * string) (A : string) (s : Store) :
  wf_store s →
  characters A = 100%nat → nul_free A = true →
  (∀ k, k ∈ access_keys s → ak_name k ≠ A +:+ " ") →
  generateKey rnd ∉ ak_key_code <$> access_keys s →
  nul_free (generateKey rnd) = true →
  access_keys_id_seq s ≤ 2147483647 →
  let K := {| ak_id := access_keys_id_seq s; ak_key_code := generateKey rnd;
              ak_name := A; ak_max_uses := -1; ak_used_count := 0;
              ak_expires_at := None;
              ak_is_active := true; ak_created_at := now |} in
  createAccessKey now rt rnd (A +:+ " ") None None s
  = (inr K,
     {| access_keys := access_keys s ++ [K]; usage_logs := usage_logs s;
        access_keys_id_seq := access_keys_id_seq s + 1;
        usage_logs_id_seq := usage_logs_id_seq s |}).
Proof.
  intros Hwf Hlen Hnul Hname Hcode Hnulc Hseq K.
  assert (nul_free (A +:+ " ") = true) as Hnul'
    by (by rewrite nul_free_app, Hnul).
  rewrite createAccessKey_unused by done.
  unfold bind, expiry_of, ret. rewrite bind_text_nul_free by done.
  simpl default_maxUses. rewrite bind_integer_int32 by done.
  unfold bind_timestamp, ret, insert_key, bind.
  rewrite varchar_fits by apply generateKey_fits.
  unfold varchar. rewrite clip_padded by done. unfold blank, ret.
  change ((" " =? " ")%char && true) with true. cbv beta iota.
  unfold insert_key_row, bind. rewrite nextval_access_keys_run by done.
  simpl. rewrite decide_False by (by apply wf_fresh_key_id).
  by rewrite decide_False.
Qed.

(** X27: the uniqueness of names checked by [createAccessKey] is lost on
    names that the column cuts. A name of 100 characters followed by a
    space is looked up as it stands and stored without the space, so on a
    store without a key of the padded name two successive creations under
    it (with unused, distinct codes and room for two ids) both succeed and
    leave two keys that carry the same stored name. *)
Theorem padded_names_collide (now now' : Z) (rt rt' : Runtime)
    (rnd rnd' : string * string) (A : string) (s : Store) :
  wf_store s →
  characters A = 100%nat → nul_free A = true →
  (∀ k, k ∈ access_keys s → ak_name k ≠ A +:+ " ") →
  generateKey rnd ∉ ak_key_code <$> access_keys s →
  generateKey rnd' ∉ ak_key_code <$> access_keys s →
  generateKey rnd' ≠ generateKey rnd →
  nul_free (generateKey rnd) = true → nul_free (generateKey rnd') = true →
  access_keys_id_seq s < 2147483647 →
  ∃ K K' s1 s2,
    createAccessKey now rt rnd (A +:+ " ") None None s = (inr K, s1)
    ∧ createAccessKey now' rt' rnd' (A +:+ " ") None None s1 = (inr K', s2)
    ∧ ak_name K = A ∧ ak_name K' = A ∧ ak_id K ≠ ak_id K'
    ∧ K ∈ access_keys s2 ∧ K' ∈ access_keys s2.
Proof.
  intros Hwf Hlen Hnul Hname Hcode Hcode' Hdiff Hnulc Hnulc' Hseq.
  pose proof (createAccessKey_padded now rt rnd A s Hwf Hlen Hnul Hname
                Hcode Hnulc ltac:(lia)) as Hrun.
  cbv zeta in Hrun.
  set (K := {| ak_id := access_keys_id_seq s;
               ak_key_code := generateKey rnd; ak_name := A;
               ak_max_uses := -1; ak_used_count := 0;
               ak_expires_at := None; ak_is_active := true;
               ak_created_at := now |}) in *.
  set (s1 := {| access_keys := access_keys s ++ [K];
                usage_logs := usage_logs s;
                access_keys_id_seq := access_keys_id_seq s + 1;
                usage_logs_id_seq := usage_logs_id_seq s |}) in *.
  assert (wf_store s1) as Hwf1.
  { pose proof (wf_after (CallCreate now rt rnd (A +:+ " ") None None) s Hwf)
      as Hafter.
    simpl in Hafter. by rewrite Hrun in Hafter. }
  assert (A ≠ A +:+ " ") as Hpad.
  { intros Heq. apply (f_equal String.length) in Heq.
    rewrite length_app_string in Heq. simpl in Heq. lia. }
  pose proof (createAccessKey_padded now' rt' rnd' A s1 Hwf1 Hlen Hnul)
    as Hrun'.
  cbv zeta in Hrun'. eexists K, _, s1, _.
  split; [exact Hrun|]. split.
  - apply Hrun'; simpl; [| |done|lia].
    + intros k [Hk| ->%list_elem_of_singleton]%elem_of_app; [by apply Hname|].
      done.
    + rewrite fmap_app. intros [Hk|Hk%list_elem_of_singleton]%elem_of_app;
        [by apply Hcode'|]. by apply Hdiff.
  - simpl. split; [done|]. split; [done|]. split; [lia|].
    split; apply elem_of_app.
    + left. apply elem_of_app. right. apply list_elem_of_here.
    + right. apply list_elem_of_here.
Qed.

Lemma padded_names_collide_witness :
  let A := "aaaaaaaaaaaaaaaaaaaaaaaaaaaaaaaaaaaaaaaaaaaaaaaaaa"
           +:+ "aaaaaaaaaaaaaaaaaaaaaaaaaaaaaaaaaaaaaaaaaaaaaaaaaa" in
  ∃ K K' s1 s2,
    createAccessKey 0 rt_sample ("0.abcdef", "0.ghijkl") (A +:+ " ")
      None None initDatabase = (inr K, s1)
    ∧ createAccessKey 9 rt_sample ("0.mnopqr", "0.stuvwx") (A +:+ " ")
        None None s1 = (inr K', s2)
    ∧ ak_name K = A ∧ ak_name K' = A ∧ ak_id K ≠ ak_id K'
    ∧ K ∈ access_keys s2 ∧ K' ∈ access_keys s2.
Proof.
  intros A.
  apply (padded_names_collide 0 9 rt_sample rt_sample
           ("0.abcdef", "0.ghijkl") ("0.mnopqr", "0.stuvwx") A
           initDatabase).
  - apply wf_initDatabase.
  - reflexivity.
  - reflexivity.
  - intros k Hk. by apply elem_of_nil in Hk.
  - apply not_elem_of_nil.
  - apply not_elem_of_nil.
  - discriminate.
  - reflexivity.
  - reflexivity.
  - simpl. lia.
Defined.



(** X29: a creation under an unused name whose expiry cannot be written or
    read is refused with the store untouched. When the date moved by
    [daysValid] days is not a valid date, [toISOString] throws before any
    statement is sent; when the database does not read the text of the
    date as a timestamp, the [INSERT] is refused with the database's
    message. *)
Theorem create_refuses_unreadable_expiry (now : Z) (rt : Runtime)
    (rnd : string * string) (name : string) (maxUses : option JsNumber)
    (days : JsNumber) (s : Store) :
  nul_free name = true →
  (∀ k, k ∈ access_keys s → ak_name k ≠ name) →
  truthy (JNumber days) = true →
  (setDate rt now days = None →
   createAccessKey now rt rnd name maxUses (Some days) s
   = (inl InvalidTime, s))
  ∧ (∀ t m text,
       setDate rt now days = Some t →
       nul_free (generateKey rnd) = true →
       default_maxUses maxUses = Num m → int32 m = true →
       timestamp rt (toISOString rt t) = inl text →
       createAccessKey now rt rnd name maxUses (Some days) s
       = (inl (InvalidTimestamp text), s)).
Proof.
  intros Hnul Hname Hdays. split.
  - intros Hdate. rewrite createAccessKey_unused by done.
    unfold bind, expiry_of. by rewrite Hdays, Hdate.
  - intros t m text Hdate Hnulc Hmax Hm Htime.
    rewrite createAccessKey_unused by done.
    unfold bind. rewrite (expiry_of_days rt now days t) by done.
    rewrite bind_text_nul_free, Hmax by done.
    rewrite bind_integer_int32 by done.
    unfold bind_timestamp. by rewrite Htime.
Qed.

Lemma create_refuses_unreadable_expiry_witness :
  createAccessKey 0 rt_sample ("0.abcdef", "0.ghijkl") "guest" None
    (Some (Other "Infinity")) store_promo
  = (inl InvalidTime, store_promo).
Proof.
  apply (proj1 (create_refuses_unreadable_expiry 0 rt_sample
                  ("0.abcdef", "0.ghijkl") "guest" None (Other "Infinity")
                  store_promo eq_refl
                  ltac:(intros k ->%list_elem_of_singleton; discriminate)
                  eq_refl)).
  reflexivity.
Defined.

(** X30: a key stops working once its counter has reached the largest
    integer of 32 bits. When verification still admits it the generation is
    made, but the increment overflows the column, so the request is
    answered 500 with the database's message, the counter stays where it
    is, and what is logged is a failure row with that message. *)
Theorem full_counter_blocks_the_key (now : Z) (env : Env) (rt : Runtime)
    (ai : GenerateCard.Generation) (req : GenerateCard.Request) (s : Store)
    (authHeader accessKey resultData : string) (K : AccessKey) :
  wf_store s →
  GenerateCard.method req = POST →
  GenerateCard.authorization req = Some authHeader →
  String.prefix "Bearer " authHeader = true →
  split " " authHeader !! 1%nat = Some accessKey →
  verifyAccessKey now accessKey s = (inr K, s) →
  GenerateCard.generation env rt ai = inr resultData →
  ak_used_count K = 2147483647 →
  nul_free (str_or (GenerateCard.x_forwarded_for req)
              (str_or (GenerateCard.remoteAddress req) "unknown")) = true →
  nul_free (str_or (GenerateCard.inputText req) "") = true →
  usage_logs_id_seq s ≤ 2147483647 →
  ∃ row,
    GenerateCard.handler now env rt ai req s
    = (inr {| status := 500;
              body := ErrorBody (Some "integer out of range") |},
       {| access_keys := access_keys s;
          usage_logs := usage_logs s ++ [row];
          access_keys_id_seq := access_keys_id_seq s;
          usage_logs_id_seq := usage_logs_id_seq s + 1 |})
    ∧ ul_key_id row = ak_id K ∧ ul_success row = false
    ∧ ul_error_msg row = "integer out of range".
Proof.
  intros Hwf Hm Hauth Hprefix Hsplit Hverify Hgen Huc Hip Htext Hseq.
  apply verify_returns_row in Hverify as Hrow.
  destruct Hrow as (_ & HK & _).
  rewrite (generate_card_verified _ _ _ _ _ _ authHeader accessKey) by done.
  rewrite Hverify. cbv zeta.
  unfold try_catch, GenerateCard.generate. rewrite Hgen. unfold bind.
  rewrite updateAccessKeyUsage_overflow by (done || lia).
  rewrite (on_error_verified now K) by done.
  eexists. split; [reflexivity|]. done.
Qed.

Lemma full_counter_blocks_the_key_witness :
  let K := {| ak_id := 1; ak_key_code := "sk-promo"; ak_name := "promo";
              ak_max_uses := -1; ak_used_count := 2147483647;
              ak_expires_at := None; ak_is_active := true;
              ak_created_at := 0 |} in
  let s := {| access_keys := [K]; usage_logs := [];
              access_keys_id_seq := 2; usage_logs_id_seq := 1 |} in
  ∃ row,
    GenerateCard.handler 5 env_sample rt_sample
      (GenerateCard.Responds (Some "{}")) request_promo s
    = (inr {| status := 500;
              body := ErrorBody (Some "integer out of range") |},
       {| access_keys := [K]; usage_logs := [row];
          access_keys_id_seq := 2; usage_logs_id_seq := 2 |})
    ∧ ul_key_id row = 1 ∧ ul_success row = false
    ∧ ul_error_msg row = "integer out of range".
Proof.
  intros K s.
  apply (full_counter_blocks_the_key 5 env_sample rt_sample
           (GenerateCard.Responds (Some "{}")) request_promo s
           "Bearer sk-promo" "sk-promo" "{}" K).
  - apply wf_store_check_sound. reflexivity.
  - reflexivity.
  - reflexivity.
  - reflexivity.
  - reflexivity.
  - reflexivity.
  - reflexivity.
  - reflexivity.
  - reflexivity.
  - reflexivity.
  - discriminate.
Defined.
